(** * A circular genome for simulating transposable elements

    Shallow embedding of [src/genome.py]: the list-backed [ListGenome] and
    the doubly-linked [LinkedListGenome], with the registry of transposable
    elements (TEs) they share in shape, and the properties of the
    specification proved (or refuted) on them. *)

From Stdlib Require Import ZArith Ascii String.
From stdpp Require Import base tactics option numbers list sorting.

Local Open Scope Z_scope.

(** ** Outcomes of a call

    A Python call returns a value or raises.  The only exceptions the code
    can raise are [KeyError] (subscripting the registry with an id it does
    not hold) and [ZeroDivisionError] (a modulus by a length of zero).
    [Stuck] is not a Python outcome: it is what the model of the linked
    structure answers when a walk runs out of fuel or follows a reference
    outside the store, which no well-formed ring does (see [ring]). *)

Inductive exn : Type := KeyError | ZeroDivisionError.

Inductive res (X : Type) : Type :=
| Ok (x : X)
| Raise (e : exn)
| Stuck.
Arguments Ok {X} x.
Arguments Raise {X} e.
Arguments Stuck {X}.

Definition bind {X Y : Type} (r : res X) (k : X → res Y) : res Y :=
  match r with
  | Ok x => k x
  | Raise e => Raise e
  | Stuck => Stuck
  end.

Global Instance res_bind : MBind res := λ X Y k r, bind r k.

(** ** The TE registry

    [self.TEs] is a Python dict from the id to the three-element list
    [[pos, length, status]], the status being ['A'] (active) or ['D']
    (disabled).  A dict iterates in insertion order and the scan of
    [insert_te] depends on that order, so the registry is an association
    list in insertion order.  A dict holds a key once: where a statement
    needs it, it assumes [NoDup (keys d)], which [registry_inv] shows of
    every registry the methods build.  A loop [for te in self.TEs] that
    reads [self.TEs[te]] is a recursion over the entries. *)

Inductive status : Type := Active | Disabled.

Global Instance status_eq_dec : EqDecision status.
Proof. solve_decision. Defined.

Record TE : Type := mkTE { te_pos : Z; te_length : Z; te_status : status }.

Global Instance TE_eq_dec : EqDecision TE.
Proof. solve_decision. Defined.

Definition dict : Type := list (Z * TE).

(** [d[k]] as an expression: [None] stands for the [KeyError]. *)
Fixpoint dict_get (d : dict) (k : Z) : option TE :=
  match d with
  | [] => None
  | (k', v) :: d' => if decide (k' = k) then Some v else dict_get d' k
  end.

(** The in-place update [d[k][i] = ...] of the list stored under [k]. *)
Fixpoint dict_alter (f : TE → TE) (k : Z) (d : dict) : dict :=
  match d with
  | [] => []
  | (k', v) :: d' =>
      if decide (k' = k) then (k', f v) :: d' else (k', v) :: dict_alter f k d'
  end.

(** [d[k] = v]: a present key keeps its place, a new key goes last. *)
Fixpoint dict_set (k : Z) (v : TE) (d : dict) : dict :=
  match d with
  | [] => [(k, v)]
  | (k', v') :: d' =>
      if decide (k' = k) then (k', v) :: d' else (k', v') :: dict_set k v d'
  end.

Definition keys (d : dict) : list Z := d.*1.

Definition set_status (s : status) (r : TE) : TE :=
  {| te_pos := te_pos r; te_length := te_length r; te_status := s |}.

Definition add_pos (n : Z) (r : TE) : TE :=
  {| te_pos := te_pos r + n; te_length := te_length r; te_status := te_status r |}.

Definition is_active (r : TE) : bool := bool_decide (te_status r = Active).

(** The test of the scan: [start < pos and pos < end], on an active record. *)
Definition collides (pos : Z) (r : TE) : bool :=
  is_active r && bool_decide (te_pos r < pos) &&
  bool_decide (pos < te_pos r + te_length r).

(** The first id, in iteration order, the scan of [insert_te] stops at. *)
Fixpoint first_collision (pos : Z) (d : dict) : option Z :=
  match d with
  | [] => None
  | (te, r) :: d' => if collides pos r then Some te else first_collision pos d'
  end.

(** The second loop of [insert_te]:
    [for te in self.TEs: if pos <= self.TEs[te][0]: self.TEs[te][0] += length]. *)
Definition shift_te (pos len : Z) (r : TE) : TE :=
  if bool_decide (pos ≤ te_pos r) then add_pos len r else r.

Definition shift_tes (pos len : Z) (d : dict) : dict :=
  prod_map id (shift_te pos len) <$> d.

(** [[te for te in self.TEs if self.TEs[te][2] == 'A']] *)
Definition active_ids (d : dict) : list Z :=
  (filter (λ kv, is_active kv.2 = true) d).*1.

(** ** Python slices

    [a[i:j]] clamps its bounds: a negative bound counts from the end, and
    what still falls outside is cut to [0] or to [len(a)]. *)

Definition slice_bound {X} (a : list X) (i : Z) : nat :=
  let n := Z.of_nat (length a) in
  Z.to_nat (if bool_decide (i < 0) then Z.max 0 (i + n) else Z.min i n).

(** [a[:i]] and [a[i:]] *)
Definition slice_to {X} (a : list X) (i : Z) : list X := take (slice_bound a i) a.
Definition slice_from {X} (a : list X) (i : Z) : list X := drop (slice_bound a i) a.

(** [a[i:j] = b]: the cells from [i] up to [j] (none when [j] comes before
    [i]) are replaced by [b], whatever its length. *)
Definition slice_assign {X} (a : list X) (i j : Z) (b : list X) : list X :=
  let lo := slice_bound a i in
  let hi := Nat.max lo (slice_bound a j) in
  take lo a ++ b ++ drop hi a.

(** ['c' * n] and [['c'] * n]: nothing for [n <= 0]. *)
Definition times {X} (c : X) (n : Z) : list X := replicate (Z.to_nat n) c.

(** ** ListGenome *)

Module ListGenome.

Record t : Type := mk {
  genome : list ascii;
  TE_counter : Z;
  TEs : dict
}.

Definition __init__ (n : Z) : t :=
  {| genome := times "-"%char n; TE_counter := 0; TEs := [] |}.

Definition disable_te (self : t) (te : Z) : res t :=
  match dict_get (TEs self) te with
  | None => Raise KeyError
  | Some r =>
      let pos := te_pos r in
      let len := te_length r in
      Ok {| genome := slice_assign (genome self) pos (pos + len) (times "x"%char len);
            TE_counter := TE_counter self;
            TEs := dict_alter (set_status Disabled) te (TEs self) |}
  end.

(** The first loop of [insert_te]: disable the first active TE that
    has [pos] strictly inside, and leave the loop. *)
Fixpoint scan (self : t) (pos : Z) (items : dict) : res t :=
  match items with
  | [] => Ok self
  | (te, r) :: items' =>
      if collides pos r then disable_te self te else scan self pos items'
  end.

Definition insert_te (self : t) (pos len : Z) : res (t * Z) :=
  let counter := TE_counter self + 1 in
  s ← scan self pos (TEs self);
  let g := slice_to (genome s) pos ++ times "A"%char len ++ slice_from (genome s) pos in
  Ok ({| genome := g;
         TE_counter := counter;
         TEs := dict_set counter (mkTE pos len Active) (shift_tes pos len (TEs s)) |},
      counter).

Definition __len__ (self : t) : Z := Z.of_nat (length (genome self)).

Definition copy_te (self : t) (te offset : Z) : res (t * option Z) :=
  match dict_get (TEs self) te with
  | None => Raise KeyError
  | Some r =>
      if is_active r then
        let n := __len__ self in
        if decide (n = 0) then Raise ZeroDivisionError
        else '(s, i) ← insert_te self ((te_pos r + offset) `mod` n) (te_length r);
             Ok (s, Some i)
      else Ok (self, None)
  end.

Definition active_tes (self : t) : list Z := active_ids (TEs self).

Definition __str__ (self : t) : string := string_of_list_ascii (genome self).

End ListGenome.

(** ** LinkedListGenome

    The links are objects that refer to each other, so they live in a
    store: a reference is the index of the link in the store, [Link(...)]
    allocates at the end of it, and an attribute assignment updates the
    link in place, whoever else refers to it. *)

Record Link : Type := mkLink { val : option ascii; prev : nat; next : nat }.

Definition set_val (v : option ascii) (l : Link) : Link :=
  {| val := v; prev := prev l; next := next l |}.
Definition set_prev (p : nat) (l : Link) : Link :=
  {| val := val l; prev := p; next := next l |}.
Definition set_next (n : nat) (l : Link) : Link :=
  {| val := val l; prev := prev l; next := n |}.

Abbreviation store := (list Link).

(** [insert_after(link, val)] *)
Definition insert_after (h : store) (link : nat) (v : ascii) : res store :=
  match h !! link with
  | None => Stuck
  | Some l =>
      (* new_link = Link(val, link, link.next) *)
      let new_link := length h in
      let h := h ++ [ {| val := Some v; prev := link; next := next l |} ] in
      (* new_link.prev.next = new_link *)
      let h := alter (set_next new_link) link h in
      (* new_link.next.prev = new_link *)
      let h := alter (set_prev new_link) (next l) h in
      Ok h
  end.

(** [for _ in range(k): insert_after(link, v)] *)
Fixpoint insert_after_times (k : nat) (h : store) (link : nat) (v : ascii) : res store :=
  match k with
  | O => Ok h
  | S k' => h' ← insert_after h link v; insert_after_times k' h' link v
  end.

(** [link.next] *)
Definition next_of (h : store) (link : nat) : res nat :=
  match h !! link with
  | None => Stuck
  | Some l => Ok (next l)
  end.

(** [str(link.val)] *)
Definition str_val (v : option ascii) : string :=
  match v with
  | Some c => String c EmptyString
  | None => "None"%string
  end.

Module LinkedListGenome.

Record t : Type := mk {
  links : store;
  head : nat;
  TEs : dict;
  TE_counter : Z
}.

(** Every walk stops at the head after at most one step per link. *)
Definition fuel (h : store) : nat := S (length h).

Definition __init__ (n : Z) : res t :=
  (* head = Link(None, None, None); head.prev = head; head.next = head *)
  let h := [ {| val := None; prev := O; next := O |} ] in
  h ← insert_after_times (Z.to_nat n) h O "-"%char;
  Ok {| links := h; head := O; TEs := []; TE_counter := 0 |}.

(** The loop of [__len__], entered with [current] and [counter]. *)
Fixpoint len_loop (f : nat) (h : store) (hd current : nat) (counter : Z) : res Z :=
  match f with
  | O => Stuck
  | S f' =>
      if decide (current = hd) then Ok counter
      else c ← next_of h current; len_loop f' h hd c (counter + 1)
  end.

Definition __len__ (self : t) : res Z :=
  c ← next_of (links self) (head self);
  len_loop (fuel (links self)) (links self) (head self) c 0.

(** The loop of [__str__]; [elms] is kept in reverse. *)
Fixpoint str_loop (f : nat) (h : store) (hd link : nat) (elms : list string)
  : res (list string) :=
  match f with
  | O => Stuck
  | S f' =>
      if decide (link = hd) then Ok (reverse elms)
      else match h !! link with
           | None => Stuck
           | Some l => str_loop f' h hd (next l) (str_val (val l) :: elms)
           end
  end.

Definition __str__ (self : t) : res string :=
  c ← next_of (links self) (head self);
  elms ← str_loop (fuel (links self)) (links self) (head self) c [];
  Ok (String.concat "" elms).

(** [for _ in range(k): current.val = 'x'; current = current.next] *)
Fixpoint mark (k : nat) (h : store) (current : nat) : res store :=
  match k with
  | O => Ok h
  | S k' =>
      match h !! current with
      | None => Stuck
      | Some l => mark k' (alter (set_val (Some "x"%char)) current h) (next l)
      end
  end.

(** The loop of [disable_te], entered with [current] and [count]. *)
Fixpoint disable_loop (f : nat) (h : store) (hd current : nat) (count pos len : Z)
  : res store :=
  match f with
  | O => Stuck
  | S f' =>
      if decide (current = hd) then Ok h
      else if decide (count = pos) then mark (Z.to_nat len) h current
      else c ← next_of h current; disable_loop f' h hd c (count + 1) pos len
  end.

Definition disable_te (self : t) (te : Z) : res t :=
  match dict_get (TEs self) te with
  | None => Raise KeyError
  | Some r =>
      let tes := dict_alter (set_status Disabled) te (TEs self) in
      c ← next_of (links self) (head self);
      h ← disable_loop (fuel (links self)) (links self) (head self) c 0
            (te_pos r) (te_length r);
      Ok {| links := h; head := head self; TEs := tes; TE_counter := TE_counter self |}
  end.

Fixpoint scan (self : t) (pos : Z) (items : dict) : res t :=
  match items with
  | [] => Ok self
  | (te, r) :: items' =>
      if collides pos r then disable_te self te else scan self pos items'
  end.

(** The loop of [insert_te] over the links, entered with [current] and
    [count]. *)
Fixpoint insert_loop (f : nat) (h : store) (hd current : nat) (count pos len : Z)
  : res store :=
  match f with
  | O => Stuck
  | S f' =>
      if decide (current = hd) then Ok h
      else if decide (count = pos)
           then insert_after_times (Z.to_nat len) h current "A"%char
      else c ← next_of h current; insert_loop f' h hd c (count + 1) pos len
  end.

Definition insert_te (self : t) (pos len : Z) : res (t * Z) :=
  let counter := TE_counter self + 1 in
  s ← scan self pos (TEs self);
  c ← next_of (links s) (head s);
  h ← insert_loop (fuel (links s)) (links s) (head s) c 1 pos len;
  Ok ({| links := h;
         head := head s;
         TEs := dict_set counter (mkTE pos len Active) (shift_tes pos len (TEs s));
         TE_counter := counter |},
      counter).

Definition copy_te (self : t) (te offset : Z) : res (t * option Z) :=
  match dict_get (TEs self) te with
  | None => Raise KeyError
  | Some r =>
      if is_active r then
        n ← __len__ self;
        if decide (n = 0) then Raise ZeroDivisionError
        else '(s, i) ← insert_te self ((te_pos r + offset) `mod` n) (te_length r);
             Ok (s, Some i)
      else Ok (self, None)
  end.

Definition active_tes (self : t) : list Z := active_ids (TEs self).

End LinkedListGenome.

Arguments LinkedListGenome.fuel : simpl never.

(** ** The Genome interface

    [Genome] is the abstract class both structures specialise.  A caller
    sees a genome through its methods only: what each call returns, and
    after it the rendering and the active TEs. *)

Class Genome (G : Type) : Type := {
  genome_init : Z → res G;
  genome_insert_te : G → Z → Z → res (G * Z);
  genome_copy_te : G → Z → Z → res (G * option Z);
  genome_disable_te : G → Z → res G;
  genome_active_tes : G → list Z;
  genome_len : G → res Z;
  genome_str : G → res string
}.

Global Instance ListGenome_Genome : Genome ListGenome.t := {|
  genome_init n := Ok (ListGenome.__init__ n);
  genome_insert_te := ListGenome.insert_te;
  genome_copy_te := ListGenome.copy_te;
  genome_disable_te := ListGenome.disable_te;
  genome_active_tes := ListGenome.active_tes;
  genome_len self := Ok (ListGenome.__len__ self);
  genome_str self := Ok (ListGenome.__str__ self)
|}.

Global Instance LinkedListGenome_Genome : Genome LinkedListGenome.t := {|
  genome_init := LinkedListGenome.__init__;
  genome_insert_te := LinkedListGenome.insert_te;
  genome_copy_te := LinkedListGenome.copy_te;
  genome_disable_te := LinkedListGenome.disable_te;
  genome_active_tes := LinkedListGenome.active_tes;
  genome_len := LinkedListGenome.__len__;
  genome_str := LinkedListGenome.__str__
|}.

(** A call of one of the three mutating methods, and what a caller
    observes of it: the value returned ([None] for [disable_te] and for
    the copy of an inactive TE), then the rendering and the active TEs. *)
Inductive call : Type :=
| InsertTe (pos len : Z)
| CopyTe (te offset : Z)
| DisableTe (te : Z).

Definition observation : Type := option Z * string * list Z.

Definition do_call {G} `{Genome G} (g : G) (c : call) : res (G * option Z) :=
  match c with
  | InsertTe pos len => '(s, i) ← genome_insert_te g pos len; Ok (s, Some i)
  | CopyTe te offset => genome_copy_te g te offset
  | DisableTe te => s ← genome_disable_te g te; Ok (s, None)
  end.

Fixpoint run {G} `{Genome G} (g : G) (calls : list call) : res (list observation) :=
  match calls with
  | [] => Ok []
  | c :: calls' =>
      '(s, r) ← do_call g c;
      str ← genome_str s;
      obs ← run s calls';
      Ok ((r, str, genome_active_tes s) :: obs)
  end.

(** Construction with size [n], then the calls. *)
Definition trace (G : Type) `{Genome G} (n : Z) (calls : list call)
  : res (list observation) :=
  g ← genome_init n; run g calls.

(** * The vocabulary of the properties

    What the statements below speak of: the registry after the loops of
    [insert_te], the invariant of the registry, the ring of links that a
    linked genome is, the genomes a caller can reach, and a few small
    genomes to run the statements on. *)

(** The registry after the first loop of [insert_te], and after the call:
    both structures run the same statements on it. *)
Definition scan_tes (pos : Z) (d : dict) : dict :=
  match first_collision pos d with
  | Some te => dict_alter (set_status Disabled) te d
  | None => d
  end.

Definition insert_tes (counter pos len : Z) (d : dict) : dict :=
  dict_set (counter + 1) (mkTE pos len Active) (shift_tes pos len (scan_tes pos d)).

(** The intervals [[pos, pos + length)] of two distinct active records do
    not meet. *)
Definition disjoint_active (d : dict) : Prop :=
  ∀ t1 t2 r1 r2,
    t1 ≠ t2 → dict_get d t1 = Some r1 → dict_get d t2 = Some r2 →
    te_status r1 = Active → te_status r2 = Active →
    te_pos r1 + te_length r1 ≤ te_pos r2 ∨ te_pos r2 + te_length r2 ≤ te_pos r1.

(** What every registry built by the public operations satisfies: it is a
    dict (no id twice), its ids are the values the counter went through,
    no record is empty, and the active intervals are disjoint. *)
Record registry_inv (counter : Z) (d : dict) : Prop := {
  inv_counter : 0 ≤ counter;
  inv_nodup : NoDup (keys d);
  inv_ids : ∀ k, k ∈ keys d → 1 ≤ k ≤ counter;
  inv_length : ∀ k r, dict_get d k = Some r → 0 < te_length r;
  inv_disjoint : disjoint_active d
}.

(** [lseg h cur l stop]: following [next] from [cur] visits the links [l]
    in order and arrives at [stop]. *)
Fixpoint lseg (h : store) (cur : nat) (l : list nat) (stop : nat) : Prop :=
  match l with
  | [] => cur = stop
  | a :: l' => cur = a ∧ ∃ lk, h !! a = Some lk ∧ lseg h (next lk) l' stop
  end.

(** In a ring the walk from the head visits the head, then the cells
    [order], and is back at the head without having seen a link twice. *)
Definition ring (h : store) (hd : nat) (order : list nat) : Prop :=
  NoDup (hd :: order) ∧ lseg h hd (hd :: order) hd.

(** What the link at [a] holds, and what the links [l] hold. *)
Definition val_at (h : store) (a : nat) : option ascii := h !! a ≫= val.

Definition vals (h : store) (l : list nat) : list (option ascii) := val_at h <$> l.

(** The store holds, from the head on, exactly the cells [cs]. *)
Definition rep (h : store) (hd : nat) (cs : list ascii) : Prop :=
  ∃ order, ring h hd order ∧ vals h order = Some <$> cs.

(** A linked genome is well-formed when its store is a ring of cells. *)
Definition wf (self : LinkedListGenome.t) : Prop :=
  ∃ cs, rep (LinkedListGenome.links self) (LinkedListGenome.head self) cs.

(** [cells self cs]: the genome holds the cells [cs], first cell first. *)
Definition cells (self : LinkedListGenome.t) (cs : list ascii) : Prop :=
  rep (LinkedListGenome.links self) (LinkedListGenome.head self) cs.

(** What [insert_after(c, v)] does to the store: one link more, reached
    from [c] and leading where [c] led; no other [next] and no [val]
    changes. *)
Definition linked_after (h : store) (c : nat) (v : ascii) (h' : store) : Prop :=
  length h' = S (length h) ∧
  next <$> h' !! c = Some (length h) ∧
  next <$> h' !! length h = next <$> h !! c ∧
  (∀ a, a ≠ c → (a < length h)%nat → next <$> h' !! a = next <$> h !! a) ∧
  (∀ a, (a < length h)%nat → val_at h' a = val_at h a) ∧
  val_at h' (length h) = Some v.

(** The store once the links [l] have had their [val] set to ['x'], one
    after the other. *)
Definition mark_all (l : list nat) (h : store) : store :=
  foldl (λ h a, alter (set_val (Some "x"%char)) a h) h l.

(** The cells after the loop of [LinkedListGenome.insert_te]: the count
    starts at [1] on the first cell and the new cells go behind the cell
    where it reaches [pos]; no cell is counted [0] or beyond the length. *)
Definition ring_insert (cs : list ascii) (pos len : Z) : list ascii :=
  if decide (1 ≤ pos ≤ Z.of_nat (length cs))
  then take (Z.to_nat pos) cs ++ times "A"%char len ++ drop (Z.to_nat pos) cs
  else cs.

(** An active record with [pos] strictly inside its interval, both
    boundaries excluded. *)
Definition strictly_inside (pos : Z) (r : TE) : Prop :=
  te_status r = Active ∧ te_pos r < pos ∧ pos < te_pos r + te_length r.

(** How the statuses of the registry [d'] after a call relate to those of
    the registry [d] before it. *)
Record disables_first (pos : Z) (d d' : dict) : Prop := {
  (* every record is still there *)
  df_kept : ∀ te r, dict_get d te = Some r → is_Some (dict_get d' te);
  (* at most one status changed *)
  df_one : ∀ t1 t2 r1 r2 r1' r2',
    dict_get d t1 = Some r1 → dict_get d' t1 = Some r1' →
    dict_get d t2 = Some r2 → dict_get d' t2 = Some r2' →
    te_status r1' ≠ te_status r1 → te_status r2' ≠ te_status r2 → t1 = t2;
  (* the record whose status changed is now disabled; it was active with
     [pos] strictly inside, and the first such in iteration order *)
  df_first : ∀ te r r',
    dict_get d te = Some r → dict_get d' te = Some r' →
    te_status r' ≠ te_status r →
    te_status r' = Disabled ∧
    ∃ d1 d2, d = d1 ++ (te, r) :: d2 ∧ strictly_inside pos r ∧
             Forall (λ kv, ¬ strictly_inside pos kv.2) d1;
  (* when some record has [pos] strictly inside, one is disabled *)
  df_some : ∀ te r,
    dict_get d te = Some r → strictly_inside pos r →
    ∃ t0 r0 r0', dict_get d t0 = Some r0 ∧ dict_get d' t0 = Some r0' ∧
                 te_status r0 = Active ∧ te_status r0' = Disabled;
  (* a record that starts or ends at [pos] keeps its status *)
  df_boundary : ∀ te r r',
    dict_get d te = Some r → dict_get d' te = Some r' →
    te_pos r = pos ∨ te_pos r + te_length r = pos →
    te_status r' = te_status r
}.

(** The recorded interval lies on cells of a genome of length [n]. *)
Definition in_range (r : TE) (n : Z) : Prop :=
  0 ≤ te_pos r ∧ 0 ≤ te_length r ∧ te_pos r + te_length r ≤ n.

(** The genomes a caller can get from a fresh one by calls with arguments
    in range: [0 <= pos <= len] and [length >= 1] for [insert_te], any id
    and any offset for [copy_te] and [disable_te], as long as the call
    returns. *)
Inductive list_reachable : ListGenome.t → Prop :=
| lr_init n : 0 ≤ n → list_reachable (ListGenome.__init__ n)
| lr_insert g pos len s i :
    list_reachable g → 0 ≤ pos ≤ ListGenome.__len__ g → 1 ≤ len →
    ListGenome.insert_te g pos len = Ok (s, i) → list_reachable s
| lr_copy g te offset s i :
    list_reachable g → ListGenome.copy_te g te offset = Ok (s, i) → list_reachable s
| lr_disable g te s :
    list_reachable g → ListGenome.disable_te g te = Ok s → list_reachable s.

Inductive linked_reachable : LinkedListGenome.t → Prop :=
| kr_init n g : 0 ≤ n → LinkedListGenome.__init__ n = Ok g → linked_reachable g
| kr_insert g m pos len s i :
    linked_reachable g → LinkedListGenome.__len__ g = Ok m → 0 ≤ pos ≤ m → 1 ≤ len →
    LinkedListGenome.insert_te g pos len = Ok (s, i) → linked_reachable s
| kr_copy g te offset s i :
    linked_reachable g → LinkedListGenome.copy_te g te offset = Ok (s, i) →
    linked_reachable s
| kr_disable g te s :
    linked_reachable g → LinkedListGenome.disable_te g te = Ok s → linked_reachable s.

(** A genome of size 10 after [insert_te(3, 4)]: one active TE, id 1, on
    the cells 3 to 6. *)
Definition demo_list : ListGenome.t :=
  Eval vm_compute in
    match ListGenome.insert_te (ListGenome.__init__ 10) 3 4 with
    | Ok (s, _) => s
    | _ => ListGenome.__init__ 0
    end.

Definition demo_linked : LinkedListGenome.t :=
  Eval vm_compute in
    match g ← LinkedListGenome.__init__ 10; LinkedListGenome.insert_te g 3 4 with
    | Ok (s, _) => s
    | _ => LinkedListGenome.mk [] 0 [] 0
    end.

(** The demo genomes after [insert_te(5, 2)]: TE 1 is disabled, TE 2 is
    active on the cells 5 and 6. *)
Definition demo_list_disabled : ListGenome.t :=
  Eval vm_compute in
    match ListGenome.insert_te demo_list 5 2 with
    | Ok (s, _) => s
    | _ => ListGenome.__init__ 0
    end.

Definition demo_linked_disabled : LinkedListGenome.t :=
  Eval vm_compute in
    match LinkedListGenome.insert_te demo_linked 5 2 with
    | Ok (s, _) => s
    | _ => LinkedListGenome.mk [] 0 [] 0
    end.

(** The demo genomes after [insert_te(9, 3)]: two active TEs, on the cells
    3 to 6 and 9 to 11. *)
Definition demo_list_two : ListGenome.t :=
  Eval vm_compute in
    match ListGenome.insert_te demo_list 9 3 with
    | Ok (s, _) => s
    | _ => ListGenome.__init__ 0
    end.

Definition demo_linked_two : LinkedListGenome.t :=
  Eval vm_compute in
    match LinkedListGenome.insert_te demo_linked 9 3 with
    | Ok (s, _) => s
    | _ => LinkedListGenome.mk [] 0 [] 0
    end.

(** The two structures hold the same genome: the same cells, the same
    registry and the same counter. *)
Definition same_genome (gl : ListGenome.t) (gk : LinkedListGenome.t) : Prop :=
  cells gk (ListGenome.genome gl) ∧
  LinkedListGenome.TEs gk = ListGenome.TEs gl ∧
  LinkedListGenome.TE_counter gk = ListGenome.TE_counter gl.

(** Every record lies on cells of the genome. *)
Definition all_in_range (gl : ListGenome.t) : Prop :=
  ∀ k r, dict_get (ListGenome.TEs gl) k = Some r → in_range r (ListGenome.__len__ gl).

(** A call whose insertion, if it makes one, goes to a position from 1 to
    the length: [insert_te] with such a position and a length that is not
    negative, [copy_te] of an active TE when the wrapped position is not
    0, any [copy_te] of another id, any [disable_te]. *)
Definition away_from_0 (gl : ListGenome.t) (c : call) : Prop :=
  match c with
  | InsertTe pos len => 1 ≤ pos ≤ ListGenome.__len__ gl ∧ 0 ≤ len
  | CopyTe te offset =>
      match dict_get (ListGenome.TEs gl) te with
      | Some r =>
          if is_active r
          then (te_pos r + offset) `mod` ListGenome.__len__ gl ≠ 0
          else True
      | None => True
      end
  | DisableTe _ => True
  end.

(** A sequence of calls each of which is [away_from_0] on the genome the
    calls before it lead to. *)
Fixpoint calm (gl : ListGenome.t) (calls : list call) : Prop :=
  match calls with
  | [] => True
  | c :: calls' =>
      away_from_0 gl c ∧
      match do_call gl c with
      | Ok (s, _) => calm s calls'
      | _ => True
      end
  end.

(** What two calls, one on each structure, give: the same value and the
    same genome again, or the same exception. *)
Definition same_outcome
  (ol : res (ListGenome.t * option Z)) (ok : res (LinkedListGenome.t * option Z)) : Prop :=
  match ol, ok with
  | Ok (sl, rl), Ok (sk, rk) => rl = rk ∧ same_genome sl sk ∧ all_in_range sl
  | Raise e, Raise e' => e = e'
  | _, _ => False
  end.

(** The links are doubly linked: for every link [l] of the store,
    [l.next.prev] is [l] and [l.prev.next] is [l]. *)
Definition doubly_linked (h : store) : Prop :=
  ∀ a lk, h !! a = Some lk →
    (∃ n, h !! next lk = Some n ∧ prev n = a) ∧
    (∃ p, h !! prev lk = Some p ∧ next p = a).

(** [link.next] and [link.prev] as partial functions on references. *)
Definition nxt (h : store) (a : nat) : option nat := next <$> h !! a.
Definition prv (h : store) (a : nat) : option nat := prev <$> h !! a.

(** How one call changes the counter and the registry: not at all, by
    an insertion under the next id, or by disabling one id. *)
Definition registry_step (c : Z) (d : dict) (c' : Z) (d' : dict) : Prop :=
  (c' = c ∧ d' = d) ∨
  (∃ pos len, c' = c + 1 ∧ d' = insert_tes c pos len d) ∨
  (∃ te, c' = c ∧ d' = dict_alter (set_status Disabled) te d).

(** The three characters a cell can hold. *)
Definition cell_char (c : ascii) : Prop :=
  c = "-"%char ∨ c = "A"%char ∨ c = "x"%char.

(** The demo genomes with TE 1 disabled, after [copy_te(2, 3)]: the copy
    of TE 2 is TE 3, on the cells 8 and 9. *)
Definition demo_list_copied : ListGenome.t :=
  Eval vm_compute in
    match ListGenome.copy_te demo_list_disabled 2 3 with
    | Ok (s, _) => s
    | _ => ListGenome.__init__ 0
    end.

Definition demo_linked_copied : LinkedListGenome.t :=
  Eval vm_compute in
    match LinkedListGenome.copy_te demo_linked_disabled 2 3 with
    | Ok (s, _) => s
    | _ => LinkedListGenome.mk [] 0 [] 0
    end.

(** The cells that hold ['A'] are exactly the cells of the intervals of
    the active records. *)
Definition painted (cs : list ascii) (d : dict) : Prop :=
  ∀ i : nat,
    cs !! i = Some "A"%char ↔
    ∃ k r, dict_get d k = Some r ∧ te_status r = Active ∧
           te_pos r ≤ Z.of_nat i < te_pos r + te_length r.

(** The genomes a caller gets who, besides keeping the arguments in range,
    calls [disable_te] on active TEs only. *)
Inductive list_careful : ListGenome.t → Prop :=
| lc_init n : 0 ≤ n → list_careful (ListGenome.__init__ n)
| lc_insert g pos len s i :
    list_careful g → 0 ≤ pos ≤ ListGenome.__len__ g → 1 ≤ len →
    ListGenome.insert_te g pos len = Ok (s, i) → list_careful s
| lc_copy g te offset s i :
    list_careful g → ListGenome.copy_te g te offset = Ok (s, i) → list_careful s
| lc_disable g te r s :
    list_careful g → dict_get (ListGenome.TEs g) te = Some r → te_status r = Active →
    ListGenome.disable_te g te = Ok s → list_careful s.

(** The same on the linked genome, whose caller also keeps away from
    position 0: [insert_te] with [1 <= pos <= len], and no [copy_te] of an
    active TE to the wrapped position 0. *)
Inductive linked_careful : LinkedListGenome.t → Prop :=
| kc_init n g : 0 ≤ n → LinkedListGenome.__init__ n = Ok g → linked_careful g
| kc_insert g m pos len s i :
    linked_careful g → LinkedListGenome.__len__ g = Ok m → 1 ≤ pos ≤ m → 1 ≤ len →
    LinkedListGenome.insert_te g pos len = Ok (s, i) → linked_careful s
| kc_copy g m te offset s i :
    linked_careful g → LinkedListGenome.__len__ g = Ok m →
    (∀ r, dict_get (LinkedListGenome.TEs g) te = Some r → te_status r = Active →
          (te_pos r + offset) `mod` m ≠ 0) →
    LinkedListGenome.copy_te g te offset = Ok (s, i) → linked_careful s
| kc_disable g te r s :
    linked_careful g → dict_get (LinkedListGenome.TEs g) te = Some r →
    te_status r = Active →
    LinkedListGenome.disable_te g te = Ok s → linked_careful s.

(** * Properties *)

Lemma bind_Ok {X Y : Type} (x : X) (k : X → res Y) : Ok x ≫= k = k x.
Proof. reflexivity. Qed.

(** Two runs of the model, against the source traced by hand. *)
Example list_demo :
  (λ r, match r with Ok (s, i) => Some (ListGenome.__str__ s, i) | _ => None end)
    (ListGenome.insert_te (ListGenome.__init__ 10) 3 2)
  = Some ("---AA-------"%string, 1).
Proof. reflexivity. Qed.

Example linked_demo :
  (g ← LinkedListGenome.__init__ 10;
   '(s, i) ← LinkedListGenome.insert_te g 3 2;
   '(s, j) ← LinkedListGenome.insert_te s 4 1;
   str ← LinkedListGenome.__str__ s;
   n ← LinkedListGenome.__len__ s;
   Ok (str, n, i, j, LinkedListGenome.active_tes s))
  = Ok ("---xAx-------"%string, 13, 1, 2, [2]).
Proof. vm_compute. reflexivity. Qed.

(** ** The registry *)

Section registry.
Implicit Types (d : dict) (k te : Z) (r : TE).

Lemma dict_get_Some_key d k r : dict_get d k = Some r → k ∈ keys d.
Proof.
  induction d as [|[k' v] d IH]; simpl; [done|].
  case_decide; intros; subst; [left | right; auto].
Qed.

Lemma dict_get_key d k : k ∈ keys d → is_Some (dict_get d k).
Proof.
  induction d as [|[k' v] d IH]; simpl; [by intros ?%elem_of_nil|].
  case_decide; [eauto|]. intros [?|?]%elem_of_cons; [congruence | auto].
Qed.

Lemma dict_get_None d k : dict_get d k = None ↔ k ∉ keys d.
Proof.
  split.
  - intros E [r Hr]%dict_get_key. congruence.
  - intros Hn. destruct (dict_get d k) eqn:E; [|done].
    by apply dict_get_Some_key in E.
Qed.

Lemma dict_get_elem d k r : dict_get d k = Some r → (k, r) ∈ d.
Proof.
  induction d as [|[k' v] d IH]; simpl; [done|].
  case_decide; intros; simplify_eq; [left | right; auto].
Qed.

Lemma dict_elem_get d k r : NoDup (keys d) → (k, r) ∈ d → dict_get d k = Some r.
Proof.
  induction d as [|[k' v] d IH]; simpl; [by intros _ ?%elem_of_nil|].
  intros [Hk Hd]%NoDup_cons [E|E]%elem_of_cons.
  - simplify_eq. by rewrite decide_True.
  - rewrite decide_False; [auto|]. intros ->. apply Hk.
    by apply (list_elem_of_fmap_2 fst _ (k, r)).
Qed.

Lemma keys_alter f k d : keys (dict_alter f k d) = keys d.
Proof.
  induction d as [|[k' v] d IH]; simpl; [done|].
  case_decide; simpl; [done | by f_equal].
Qed.

Lemma dict_get_alter f k d k' :
  dict_get (dict_alter f k d) k'
  = if decide (k = k') then f <$> dict_get d k' else dict_get d k'.
Proof.
  induction d as [|[k0 v] d IH]; simpl; [by case_decide|].
  repeat (case_decide; simpl; simplify_eq); try done.
  all: rewrite IH; by repeat (case_decide; simplify_eq).
Qed.

Lemma keys_shift pos len d : keys (shift_tes pos len d) = keys d.
Proof.
  unfold keys, shift_tes. rewrite <- list_fmap_compose.
  by apply list_fmap_ext; intros ? [].
Qed.

Lemma dict_get_shift pos len d k :
  dict_get (shift_tes pos len d) k = shift_te pos len <$> dict_get d k.
Proof.
  induction d as [|[k0 v] d IH]; simpl; [done|].
  by case_decide.
Qed.

Lemma dict_get_set k v d k' :
  dict_get (dict_set k v d) k' = if decide (k = k') then Some v else dict_get d k'.
Proof.
  induction d as [|[k0 v0] d IH]; simpl.
  - by case_decide.
  - repeat (case_decide; simpl; simplify_eq); try done.
    all: rewrite IH; by repeat (case_decide; simplify_eq).
Qed.

Lemma keys_set_fresh k v d : k ∉ keys d → keys (dict_set k v d) = keys d ++ [k].
Proof.
  induction d as [|[k0 v0] d IH]; simpl; [done|].
  intros [? ?]%not_elem_of_cons. rewrite decide_False by done.
  simpl. f_equal. auto.
Qed.

Lemma dict_set_fresh k v d : k ∉ keys d → dict_set k v d = d ++ [(k, v)].
Proof.
  induction d as [|[k0 v0] d IH]; simpl; [done|].
  intros [? ?]%not_elem_of_cons. rewrite decide_False by done.
  f_equal. auto.
Qed.

Lemma collides_spec pos r :
  collides pos r = true
  ↔ te_status r = Active ∧ te_pos r < pos ∧ pos < te_pos r + te_length r.
Proof.
  unfold collides, is_active.
  rewrite !andb_true_iff, !bool_decide_eq_true. tauto.
Qed.

(** What [first_collision] finds: the entry, with nothing that collides
    before it in iteration order. *)
Lemma first_collision_Some pos d te :
  first_collision pos d = Some te →
  ∃ d1 r d2, d = d1 ++ (te, r) :: d2 ∧ collides pos r = true ∧
             Forall (λ kv, collides pos kv.2 = false) d1.
Proof.
  induction d as [|[k v] d IH]; simpl; [done|].
  destruct (collides pos v) eqn:E.
  - intros [= ->]. by exists [], v, d.
  - intros (d1 & r & d2 & -> & ? & ?)%IH.
    exists ((k, v) :: d1), r, d2. split_and!; [done..|]. by constructor.
Qed.

Lemma first_collision_None pos d :
  first_collision pos d = None ↔ Forall (λ kv, collides pos kv.2 = false) d.
Proof.
  induction d as [|[k v] d IH]; simpl; [by split; [constructor|]|].
  destruct (collides pos v) eqn:E.
  - split; [done|]. intros [? ?]%Forall_cons; simpl in *; congruence.
  - rewrite IH. split; [by constructor | by intros [? ?]%Forall_cons].
Qed.

Lemma first_collision_key pos d te : first_collision pos d = Some te → te ∈ keys d.
Proof.
  intros (d1 & r & d2 & -> & _)%first_collision_Some.
  unfold keys. rewrite fmap_app, fmap_cons.
  apply elem_of_app; right; left.
Qed.

End registry.

Section registry_steps.
Implicit Types (d : dict) (k te : Z) (r : TE).

Lemma keys_scan pos d : keys (scan_tes pos d) = keys d.
Proof. unfold scan_tes. destruct (first_collision pos d); [apply keys_alter | done]. Qed.

Lemma scan_tes_get pos d te :
  dict_get (scan_tes pos d) te
  = if decide (first_collision pos d = Some te)
    then set_status Disabled <$> dict_get d te else dict_get d te.
Proof.
  unfold scan_tes. destruct (first_collision pos d) as [t0|] eqn:E.
  - rewrite dict_get_alter. by repeat (case_decide; simplify_eq).
  - by rewrite decide_False.
Qed.

(** The scan changes no position and no length, and activates nothing. *)
Lemma scan_tes_get_inv pos d te r' :
  dict_get (scan_tes pos d) te = Some r' →
  ∃ r, dict_get d te = Some r ∧ te_pos r' = te_pos r ∧
       te_length r' = te_length r ∧
       (te_status r' = Active → r' = r).
Proof.
  rewrite scan_tes_get. case_decide.
  - destruct (dict_get d te) as [r|]; [|done]. intros [= <-].
    exists r. by split_and!.
  - intros ?. exists r'. by split_and!.
Qed.

(** With disjoint active intervals, nothing active has [pos] strictly
    inside once the scan is over. *)
Lemma scan_tes_clear pos d te r' :
  NoDup (keys d) → disjoint_active d →
  dict_get (scan_tes pos d) te = Some r' → collides pos r' = false.
Proof.
  intros Hnd Hdis. rewrite scan_tes_get.
  destruct (first_collision pos d) as [t0|] eqn:E.
  - case_decide; simplify_eq.
    + destruct (dict_get d te); [|done]. by intros [= <-].
    + intros Hr. apply not_true_is_false. intros Hc.
      apply first_collision_Some in E as (d1 & r0 & d2 & -> & Hc0 & _).
      assert (dict_get (d1 ++ (t0, r0) :: d2) t0 = Some r0) as H0.
      { apply dict_elem_get; [done|]. apply elem_of_app; right; left. }
      apply collides_spec in Hc as (? & ? & ?).
      apply collides_spec in Hc0 as (? & ? & ?).
      assert (te ≠ t0) as Hne by congruence.
      destruct (Hdis te t0 r' r0 Hne Hr H0) as [|]; [done..|lia|lia].
  - rewrite decide_False by done. intros Hr%dict_get_elem.
    apply first_collision_None in E.
    by apply (proj1 (Forall_forall _ _) E (te, r')).
Qed.

Lemma keys_insert_tes c pos len d :
  c + 1 ∉ keys d → keys (insert_tes c pos len d) = keys d ++ [c + 1].
Proof.
  intros. unfold insert_tes.
  rewrite keys_set_fresh; rewrite keys_shift, keys_scan; done.
Qed.

Lemma insert_tes_get_new c pos len d :
  dict_get (insert_tes c pos len d) (c + 1) = Some (mkTE pos len Active).
Proof. unfold insert_tes. rewrite dict_get_set. by rewrite decide_True. Qed.

Lemma insert_tes_get_old c pos len d te :
  te ≠ c + 1 →
  dict_get (insert_tes c pos len d) te
  = shift_te pos len <$> dict_get (scan_tes pos d) te.
Proof.
  intros. unfold insert_tes. rewrite dict_get_set, decide_False by done.
  apply dict_get_shift.
Qed.

Lemma shift_te_status pos len r : te_status (shift_te pos len r) = te_status r.
Proof. unfold shift_te. by case_bool_decide. Qed.

Lemma shift_te_length pos len r : te_length (shift_te pos len r) = te_length r.
Proof. unfold shift_te. by case_bool_decide. Qed.

Lemma shift_te_pos pos len r :
  te_pos (shift_te pos len r) = if bool_decide (pos ≤ te_pos r) then te_pos r + len else te_pos r.
Proof. unfold shift_te. by case_bool_decide. Qed.

Lemma not_collides pos r :
  collides pos r = false → te_status r = Active →
  pos ≤ te_pos r ∨ te_pos r + te_length r ≤ pos.
Proof.
  intros Hc Ha. destruct (decide (te_pos r < pos ∧ pos < te_pos r + te_length r)); [|lia].
  assert (collides pos r = true) by (apply collides_spec; tauto). congruence.
Qed.

Lemma registry_inv_empty : registry_inv 0 [].
Proof.
  split; simpl.
  - done.
  - constructor.
  - by intros k ?%elem_of_nil.
  - done.
  - by intros ? ? ? ? ? ?.
Qed.

Lemma registry_inv_disable c d te :
  registry_inv c d → registry_inv c (dict_alter (set_status Disabled) te d).
Proof.
  intros [Hc Hnd Hid Hlen Hdis]. split.
  - done.
  - by rewrite keys_alter.
  - by rewrite keys_alter.
  - intros k r. rewrite dict_get_alter. case_decide; [|eauto].
    destruct (dict_get d k) as [r0|] eqn:E; [|done]. intros [= <-]. simpl. eauto.
  - intros t1 t2 r1 r2 Hne. rewrite !dict_get_alter.
    repeat case_decide; simplify_eq.
    + destruct (dict_get d t1); [|done]. by intros [= <-].
    + destruct (dict_get d t2); [|done]. by intros ? [= <-].
    + by apply Hdis.
Qed.

Lemma registry_inv_insert c d pos len :
  0 < len → registry_inv c d → registry_inv (c + 1) (insert_tes c pos len d).
Proof.
  intros Hlen [Hc0 Hnd Hid Hl Hdis].
  assert (c + 1 ∉ keys d) as Hfresh by (intros ?%Hid; lia).
  split.
  - lia.
  - rewrite keys_insert_tes by done. apply NoDup_app. split_and!; [done| |apply NoDup_singleton].
    intros k Hk ?%list_elem_of_singleton. by subst.
  - rewrite keys_insert_tes by done.
    intros k [?%Hid|?%list_elem_of_singleton]%elem_of_app; lia.
  - intros k r. destruct (decide (k = c + 1)) as [->|Hk].
    + rewrite insert_tes_get_new. by intros [= <-].
    + rewrite insert_tes_get_old by done.
      destruct (dict_get (scan_tes pos d) k) as [r'|] eqn:E; [|done].
      intros [= <-]. rewrite shift_te_length.
      apply scan_tes_get_inv in E as (r0 & ?%Hl & _ & -> & _). done.
  - intros t1 t2 r1 r2 Hne H1 H2 A1 A2.
    assert (∀ t r, t ≠ c + 1 → dict_get (insert_tes c pos len d) t = Some r →
              te_status r = Active →
              ∃ r0, dict_get d t = Some r0 ∧ te_status r0 = Active ∧ r = shift_te pos len r0 ∧
                    (pos ≤ te_pos r0 ∨ te_pos r0 + te_length r0 ≤ pos)) as Hold.
    { intros t r Ht. rewrite insert_tes_get_old by done.
      destruct (dict_get (scan_tes pos d) t) as [r'|] eqn:E; [|done].
      intros [= <-]. rewrite shift_te_status. intros Ha.
      pose proof (scan_tes_clear _ _ _ _ Hnd Hdis E) as Hc.
      apply scan_tes_get_inv in E as (r0 & ? & _ & _ & Heq).
      specialize (Heq Ha) as ->. exists r0. split_and!; [done..|].
      by apply not_collides. }
    destruct (decide (t1 = c + 1)) as [->|N1]; destruct (decide (t2 = c + 1)) as [->|N2];
      [done|..].
    + rewrite insert_tes_get_new in H1. injection H1 as <-.
      destruct (Hold _ _ N2 H2 A2) as (r0 & _ & _ & -> & ?).
      rewrite shift_te_pos, shift_te_length. simpl. case_bool_decide; lia.
    + rewrite insert_tes_get_new in H2. injection H2 as <-.
      destruct (Hold _ _ N1 H1 A1) as (r0 & _ & _ & -> & ?).
      rewrite shift_te_pos, shift_te_length. simpl. case_bool_decide; lia.
    + destruct (Hold _ _ N1 H1 A1) as (a & Ha & ? & -> & ?).
      destruct (Hold _ _ N2 H2 A2) as (b & Hb & ? & -> & ?).
      assert (te_pos a + te_length a ≤ te_pos b ∨ te_pos b + te_length b ≤ te_pos a)
        as Hab by (by apply (Hdis t1 t2)).
      pose proof (Hl _ _ Ha). pose proof (Hl _ _ Hb).
      rewrite !shift_te_pos, !shift_te_length. repeat case_bool_decide; lia.
Qed.

End registry_steps.

(** ** Slices *)

Section slices.
Context {X : Type}.
Implicit Types (a b : list X) (i j n : Z).

Lemma slice_bound_in_range a i :
  0 ≤ i ≤ Z.of_nat (length a) → slice_bound a i = Z.to_nat i.
Proof.
  intros. unfold slice_bound. rewrite bool_decide_eq_false_2 by lia.
  f_equal. lia.
Qed.

Lemma slice_bound_le a i : (slice_bound a i ≤ length a)%nat.
Proof. unfold slice_bound. case_bool_decide; lia. Qed.

(** [a[:i] + a[i:]] is [a], wherever [i] falls. *)
Lemma slice_to_from a i : slice_to a i ++ slice_from a i = a.
Proof. apply take_drop. Qed.

Lemma length_times (c : X) n : Z.of_nat (length (times c n)) = Z.max 0 n.
Proof. unfold times. rewrite length_replicate. lia. Qed.

Lemma length_splice a i b :
  length (slice_to a i ++ b ++ slice_from a i) = (length a + length b)%nat.
Proof.
  rewrite !length_app. unfold slice_to, slice_from.
  rewrite length_take, length_drop. pose proof (slice_bound_le a i). lia.
Qed.

Lemma slice_assign_in_range a i n (c : X) :
  0 ≤ i → 0 ≤ n → i + n ≤ Z.of_nat (length a) →
  slice_assign a i (i + n) (times c n)
  = take (Z.to_nat i) a ++ replicate (Z.to_nat n) c ++ drop (Z.to_nat (i + n)) a.
Proof.
  intros. unfold slice_assign, times.
  rewrite !slice_bound_in_range by lia.
  by rewrite Nat.max_r by lia.
Qed.

Lemma length_slice_assign_in_range a i n (c : X) :
  0 ≤ i → 0 ≤ n → i + n ≤ Z.of_nat (length a) →
  length (slice_assign a i (i + n) (times c n)) = length a.
Proof.
  intros. rewrite slice_assign_in_range by done.
  rewrite !length_app, length_take, length_drop, length_replicate. lia.
Qed.

(** Overwriting a run of [c] by itself changes nothing. *)
Lemma overwrite_twice a (lo k : nat) (c : X) :
  (lo + k ≤ length a)%nat →
  let a' := take lo a ++ replicate k c ++ drop (lo + k) a in
  take lo a' ++ replicate k c ++ drop (lo + k) a' = a'.
Proof.
  intros Hle a'. unfold a'.
  rewrite take_app_le by (rewrite length_take; lia).
  rewrite take_take, Nat.min_id.
  rewrite drop_app_ge by (rewrite length_take; lia).
  rewrite length_take, Nat.min_l by lia.
  rewrite drop_app_ge by (rewrite length_replicate; lia).
  rewrite length_replicate.
  replace (lo + k - lo - k)%nat with 0%nat by lia. done.
Qed.

End slices.

(** ** ListGenome: what each method computes *)

Section list_genome.
Import ListGenome.
Implicit Types (self s : t) (te pos len : Z).

Lemma list_disable_te_Ok self te r :
  dict_get (TEs self) te = Some r →
  disable_te self te
  = Ok {| genome := slice_assign (genome self) (te_pos r) (te_pos r + te_length r)
                      (times "x"%char (te_length r));
          TE_counter := TE_counter self;
          TEs := dict_alter (set_status Disabled) te (TEs self) |}.
Proof. intros E. unfold disable_te. by rewrite E. Qed.

Lemma list_scan_first self pos items :
  scan self pos items
  = match first_collision pos items with
    | Some te => disable_te self te
    | None => Ok self
    end.
Proof.
  induction items as [|[te r] items IH]; simpl; [done|].
  by destruct (collides pos r).
Qed.

(** The scan of the registry itself never raises: the id it disables
    comes from the registry. *)
Lemma list_scan_Ok self pos :
  ∃ s, scan self pos (TEs self) = Ok s ∧
       TEs s = scan_tes pos (TEs self) ∧ TE_counter s = TE_counter self ∧
       genome s = match first_collision pos (TEs self) with
                  | Some te =>
                      match dict_get (TEs self) te with
                      | Some r => slice_assign (genome self) (te_pos r)
                                    (te_pos r + te_length r) (times "x"%char (te_length r))
                      | None => genome self
                      end
                  | None => genome self
                  end.
Proof.
  rewrite list_scan_first. unfold scan_tes.
  destruct (first_collision pos (TEs self)) as [te|] eqn:E; [|by eexists].
  destruct (dict_get_key _ _ (first_collision_key _ _ _ E)) as [r Hr].
  rewrite (list_disable_te_Ok _ _ _ Hr), Hr. by eexists.
Qed.

Lemma list_insert_te_Ok self pos len :
  ∃ s s', scan self pos (TEs self) = Ok s ∧
    insert_te self pos len = Ok (s', TE_counter self + 1) ∧
    genome s' = slice_to (genome s) pos ++ times "A"%char len ++ slice_from (genome s) pos ∧
    TE_counter s' = TE_counter self + 1 ∧
    TEs s' = insert_tes (TE_counter self) pos len (TEs self).
Proof.
  destruct (list_scan_Ok self pos) as (s & Hs & HT & HC & HG).
  unfold insert_te. rewrite Hs. simpl.
  eexists s, _. split_and!; [done..|]. simpl. by rewrite HT.
Qed.

(** Nothing but an unknown id makes [disable_te] fail. *)
Lemma list_disable_te_unknown self te :
  dict_get (TEs self) te = None → disable_te self te = Raise KeyError.
Proof. intros E. unfold disable_te. by rewrite E. Qed.

Lemma list_copy_te_unknown self te offset :
  dict_get (TEs self) te = None → copy_te self te offset = Raise KeyError.
Proof. intros E. unfold copy_te. by rewrite E. Qed.

End list_genome.

(** ** LinkedListGenome: the ring of links *)

Section ring_walks.
Local Open Scope nat_scope.
Implicit Types (h : store) (l order : list nat) (a cur hd stop : nat).

Lemma lseg_app h cur l1 l2 stop :
  lseg h cur (l1 ++ l2) stop ↔ ∃ mid, lseg h cur l1 mid ∧ lseg h mid l2 stop.
Proof.
  revert cur. induction l1 as [|a l1 IH]; intros cur; simpl.
  - split; [by exists cur | by intros (mid & -> & ?)].
  - split.
    + intros (-> & lk & Hlk & (mid & ? & ?)%IH). exists mid. eauto.
    + intros (mid & (-> & lk & Hlk & ?) & ?). split; [done|].
      exists lk. split; [done|]. apply IH. eauto.
Qed.

Lemma lseg_bound h cur l stop a : lseg h cur l stop → a ∈ l → a < length h.
Proof.
  revert cur. induction l as [|b l IH]; intros cur; simpl; [by intros _ ?%elem_of_nil|].
  intros (-> & lk & Hlk & Hl) [->|?]%elem_of_cons; [by eapply lookup_lt_Some | eauto].
Qed.

(** A segment only depends on the [next] of its own links. *)
Lemma lseg_frame h h' cur l stop :
  (∀ a, a ∈ l → next <$> h' !! a = next <$> h !! a) →
  lseg h cur l stop → lseg h' cur l stop.
Proof.
  revert cur. induction l as [|b l IH]; intros cur Hf; simpl; [done|].
  intros (-> & lk & Hlk & Hl). split; [done|].
  pose proof (Hf b ltac:(left)) as Hb. rewrite Hlk in Hb. simpl in Hb.
  destruct (h' !! b) as [lk'|]; [|done]. injection Hb as Hb.
  exists lk'. split; [done|]. rewrite Hb. apply IH; [|done].
  intros a ?. apply Hf. by right.
Qed.

(** Walking on from a link of a segment stays in it, or leaves by its end. *)
Lemma lseg_next h cur l stop a :
  lseg h cur l stop → a ∈ l →
  ∃ lk, h !! a = Some lk ∧ (next lk ∈ l ∨ next lk = stop).
Proof.
  revert cur. induction l as [|b l IH]; intros cur; simpl; [by intros _ ?%elem_of_nil|].
  intros (-> & lk & Hlk & Hl) [->|Ha]%elem_of_cons.
  - exists lk. split; [done|]. destruct l as [|c l]; simpl in Hl.
    + by right.
    + destruct Hl as [-> _]. left. right. left.
  - destruct (IH _ Hl Ha) as (lk' & ? & [?|?]); exists lk'; (split; [done|]);
      [left; by right | by right].
Qed.

Lemma nodup_bounded_length l n : NoDup l → (∀ a, a ∈ l → a < n) → length l ≤ n.
Proof.
  intros Hnd Hb. assert (l ⊆+ seq 0 n) as Hsub.
  { apply NoDup_submseteq; [done|]. intros a ?%Hb. apply elem_of_seq. lia. }
  apply submseteq_length in Hsub. by rewrite length_seq in Hsub.
Qed.

Lemma ring_fuel h hd order : ring h hd order → length order < LinkedListGenome.fuel h.
Proof.
  intros [Hnd Hseg]. unfold LinkedListGenome.fuel.
  assert (length (hd :: order) ≤ length h); [|simpl in *; lia].
  apply nodup_bounded_length; [done|]. intros a. by apply (lseg_bound _ _ _ _ _ Hseg).
Qed.

(** The walk the methods start with: [self.head.next] is the first cell. *)
Lemma ring_first h hd order :
  ring h hd order → ∃ c, next_of h hd = Ok c ∧ lseg h c order hd ∧ hd ∉ order.
Proof.
  intros [[Hhd _]%NoDup_cons (_ & lk & Hlk & Hseg)].
  exists (next lk). unfold next_of. by rewrite Hlk.
Qed.

Lemma len_loop_lseg f h hd cur l (c : Z) :
  lseg h cur l hd → hd ∉ l → length l < f →
  LinkedListGenome.len_loop f h hd cur c = Ok (c + Z.of_nat (length l))%Z.
Proof.
  revert f cur c. induction l as [|a l IH]; intros f cur c; simpl.
  - intros -> _ ?. destruct f; [lia|]. simpl. rewrite decide_True by done.
    f_equal. lia.
  - intros (-> & lk & Hlk & Hl) [? ?]%not_elem_of_cons ?.
    destruct f; [lia|]. simpl. rewrite decide_False by done.
    unfold next_of. rewrite Hlk. simpl.
    rewrite IH by (done || lia). f_equal. lia.
Qed.

Lemma str_loop_lseg f h hd cur l cs elms :
  lseg h cur l hd → hd ∉ l → length l < f → vals h l = Some <$> cs →
  LinkedListGenome.str_loop f h hd cur elms
  = Ok (reverse elms ++ ((λ c, String c EmptyString) <$> cs)).
Proof.
  revert f cur cs elms. induction l as [|a l IH]; intros f cur cs elms; simpl.
  - intros -> _ ? Hv. destruct cs; [|done]. destruct f; [lia|]. simpl.
    rewrite decide_True by done. by rewrite app_nil_r.
  - intros (-> & lk & Hlk & Hl) [? ?]%not_elem_of_cons ? Hv.
    destruct cs as [|c cs]; [done|]. injection Hv as Hc Hv.
    destruct f; [lia|]. simpl. rewrite decide_False by done. rewrite Hlk.
    rewrite (IH _ _ cs) by (done || lia).
    unfold val_at in Hc. rewrite Hlk in Hc. simpl in Hc. rewrite Hc. simpl.
    rewrite reverse_cons, <- app_assoc. done.
Qed.

Lemma concat_chars cs :
  String.concat "" ((λ c, String c EmptyString) <$> cs) = string_of_list_ascii cs.
Proof.
  induction cs as [|c cs IH]; [done|].
  simpl. rewrite <- IH. by destruct cs.
Qed.

End ring_walks.

Section ring_updates.
Local Open Scope nat_scope.
Implicit Types (h : store) (l order : list nat) (a c cur hd stop : nat).

Lemma next_alter_val v i h a : next <$> alter (set_val v) i h !! a = next <$> h !! a.
Proof. rewrite list_lookup_alter. case_decide; [subst|done]. by destruct (h !! a). Qed.

Lemma next_alter_prev p i h a : next <$> alter (set_prev p) i h !! a = next <$> h !! a.
Proof. rewrite list_lookup_alter. case_decide; [subst|done]. by destruct (h !! a). Qed.

Lemma val_alter_prev p i h a : val_at (alter (set_prev p) i h) a = val_at h a.
Proof.
  unfold val_at. rewrite list_lookup_alter. case_decide; [subst|done].
  by destruct (h !! a).
Qed.

Lemma val_alter_next n i h a : val_at (alter (set_next n) i h) a = val_at h a.
Proof.
  unfold val_at. rewrite list_lookup_alter. case_decide; [subst|done].
  by destruct (h !! a).
Qed.

Lemma val_alter_val_eq v h a :
  a < length h → val_at (alter (set_val v) a h) a = v.
Proof.
  intros [lk Hlk]%lookup_lt_is_Some. unfold val_at.
  by rewrite list_lookup_alter_eq, Hlk.
Qed.

Lemma val_alter_val_ne v i h a : i ≠ a → val_at (alter (set_val v) i h) a = val_at h a.
Proof. intros. unfold val_at. by rewrite list_lookup_alter_ne. Qed.

Lemma insert_after_spec h c v :
  c < length h → ∃ h', insert_after h c v = Ok h' ∧ linked_after h c v h'.
Proof.
  intros Hc. destruct (lookup_lt_is_Some_2 _ _ Hc) as [lk Hlk].
  unfold insert_after. rewrite Hlk. eexists. split; [done|].
  set (new := {| val := Some v; prev := c; next := next lk |}).
  assert ((h ++ [new]) !! length h = Some new) as Hnew by by apply list_lookup_middle.
  unfold linked_after. split_and!.
  - rewrite !length_alter, length_app. simpl. lia.
  - rewrite next_alter_prev, list_lookup_alter_eq, lookup_app_l, Hlk by done. done.
  - rewrite next_alter_prev, list_lookup_alter_ne, Hnew, Hlk by lia. done.
  - intros a ? ?. by rewrite next_alter_prev, list_lookup_alter_ne, lookup_app_l.
  - intros a ?. rewrite val_alter_prev, val_alter_next. unfold val_at.
    by rewrite lookup_app_l.
  - rewrite val_alter_prev, val_alter_next. unfold val_at. by rewrite Hnew.
Qed.

(** The new link takes its place in the walk right after [c]. *)
Lemma lseg_linked_after h h' c v cur l1 l2 stop :
  linked_after h c v h' →
  lseg h cur (l1 ++ c :: l2) stop → NoDup (l1 ++ c :: l2) →
  lseg h' cur (l1 ++ c :: length h :: l2) stop ∧ NoDup (l1 ++ c :: length h :: l2).
Proof.
  intros (Hlen & Hc & Hnew & Hnext & _) Hseg Hnd.
  assert (∀ a, a ∈ l1 ++ c :: l2 → a < length h) as Hb
    by (intros a; by apply (lseg_bound _ _ _ _ _ Hseg)).
  apply NoDup_app in Hnd as (Hnd1 & Hdis & [Hc2 Hnd2]%NoDup_cons).
  split.
  - apply lseg_app in Hseg as (mid & Hseg1 & Hseg2).
    apply lseg_app. exists mid. split.
    + apply (lseg_frame h); [|done]. intros a Ha. apply Hnext.
      * intros ->. apply (Hdis _ Ha). left.
      * apply Hb. apply elem_of_app. by left.
    + destruct Hseg2 as (-> & lk & Hlk & Hseg2). split; [done|].
      rewrite Hlk in Hnew. simpl in Hnew.
      destruct (h' !! c) as [lk1|]; [|done]. injection Hc as Hc.
      exists lk1. split; [done|]. rewrite Hc. split; [done|].
      destruct (h' !! length h) as [lk2|]; [|done]. injection Hnew as Hnew.
      exists lk2. split; [done|]. rewrite Hnew.
      apply (lseg_frame h); [|done]. intros a Ha. apply Hnext.
      * by intros ->.
      * apply Hb. apply elem_of_app. right. by right.
  - assert (length h ∉ l1 ++ c :: l2) as Hfresh by (intros ?%Hb; lia).
    apply not_elem_of_app in Hfresh as [F1 [F2 F3]%not_elem_of_cons].
    apply NoDup_app. split_and!; [done| |].
    + intros a Ha [->|[->|?]%elem_of_cons]%elem_of_cons; [|done|].
      * apply (Hdis _ Ha). left.
      * apply (Hdis _ Ha). by right.
    + apply NoDup_cons. split.
      * intros [?|?]%elem_of_cons; [done|done].
      * by apply NoDup_cons.
Qed.

(** [k] insertions after [c] put [k] new cells holding [v] behind it. *)
Lemma insert_after_times_lseg k h c v cur l1 l2 stop :
  lseg h cur (l1 ++ c :: l2) stop → NoDup (l1 ++ c :: l2) →
  ∃ h' news,
    insert_after_times k h c v = Ok h' ∧ length news = k ∧
    lseg h' cur (l1 ++ c :: news ++ l2) stop ∧ NoDup (l1 ++ c :: news ++ l2) ∧
    length h ≤ length h' ∧
    (∀ a, a < length h → val_at h' a = val_at h a) ∧
    vals h' news = replicate k (Some v).
Proof.
  revert h l2. induction k as [|k IH]; intros h l2 Hseg Hnd; simpl.
  - exists h, []. by split_and!.
  - assert (c < length h) as Hc.
    { apply (lseg_bound _ _ _ _ _ Hseg). apply elem_of_app. right. left. }
    destruct (insert_after_spec h c v Hc) as (h1 & -> & Hla). simpl.
    destruct (lseg_linked_after _ _ _ _ _ _ _ _ Hla Hseg Hnd) as [Hseg1 Hnd1].
    destruct (IH h1 (length h :: l2) Hseg1 Hnd1)
      as (h' & news & -> & Hlen & Hseg' & Hnd' & Hle & Hval & Hnews).
    destruct Hla as (Hl1 & _ & _ & _ & Hv1 & Hvn).
    exists h', (news ++ [length h]).
    rewrite <- !app_assoc. simpl. split_and!; [done| |done|done|lia| |].
    + rewrite length_app. simpl. lia.
    + intros a ?. rewrite Hval by lia. by apply Hv1.
    + unfold vals in *. rewrite fmap_app, Hnews. simpl.
      rewrite Hval by lia. rewrite Hvn. by rewrite <- replicate_S_end.
Qed.

End ring_updates.

Section ring_marks.
Local Open Scope nat_scope.
Implicit Types (h : store) (l order : list nat) (a c cur hd stop : nat).


Lemma next_mark_all l h a : next <$> mark_all l h !! a = next <$> h !! a.
Proof.
  revert h. induction l as [|b l IH]; intros h; simpl; [done|].
  unfold mark_all in *. simpl. by rewrite IH, next_alter_val.
Qed.

Lemma val_mark_all_notin l h a : a ∉ l → val_at (mark_all l h) a = val_at h a.
Proof.
  revert h. induction l as [|b l IH]; intros h; simpl; [done|].
  intros [? ?]%not_elem_of_cons. unfold mark_all in *. simpl.
  rewrite IH by done. by apply val_alter_val_ne.
Qed.

Lemma val_mark_all_in l h a :
  a ∈ l → a < length h → val_at (mark_all l h) a = Some "x"%char.
Proof.
  revert h. induction l as [|b l IH]; intros h; [by intros ?%elem_of_nil|].
  intros Ha Hlt. unfold mark_all in *. simpl.
  destruct (decide (a ∈ l)) as [Hin|Hnin].
  - apply IH; [done|]. by rewrite length_alter.
  - apply elem_of_cons in Ha as [->|?]; [|done].
    fold (mark_all l (alter (set_val (Some "x"%char)) b h)).
    rewrite val_mark_all_notin by done. by apply val_alter_val_eq.
Qed.

(** Within a segment the inner loop of [disable_te] marks the links it
    walks over. *)
Lemma mark_lseg k h cur l stop :
  lseg h cur l stop → k ≤ length l →
  LinkedListGenome.mark k h cur = Ok (mark_all (take k l) h).
Proof.
  revert h cur l. induction k as [|k IH]; intros h cur l; simpl; [done|].
  destruct l as [|a l]; simpl; [lia|].
  intros (-> & lk & Hlk & Hseg) ?. rewrite Hlk.
  apply IH; [|lia]. apply (lseg_frame h); [|done].
  intros b _. apply next_alter_val.
Qed.

(** On a ring the inner loop never leaves the ring, however long it
    walks: it marks links of the ring, the head possibly among them. *)
Lemma mark_ring k h hd order cur :
  ring h hd order → cur ∈ hd :: order →
  ∃ l, LinkedListGenome.mark k h cur = Ok (mark_all l h) ∧
       (∀ a, a ∈ l → a ∈ hd :: order).
Proof.
  revert h cur. induction k as [|k IH]; intros h cur Hring Hcur; simpl.
  - exists []. split; [done|]. by intros a ?%elem_of_nil.
  - destruct Hring as [Hnd Hseg].
    destruct (lseg_next _ _ _ _ _ Hseg Hcur) as (lk & Hlk & Hn).
    rewrite Hlk.
    destruct (IH (alter (set_val (Some "x"%char)) cur h) (next lk)) as (l & -> & Hl).
    + split; [done|]. apply (lseg_frame h); [|done]. intros b _. apply next_alter_val.
    + destruct Hn as [?| ->]; [done | left].
    + exists (cur :: l). split; [done|].
      intros a [->|?]%elem_of_cons; auto.
Qed.

Lemma ring_mark_all l h hd order : ring h hd order → ring (mark_all l h) hd order.
Proof.
  intros [Hnd Hseg]. split; [done|]. apply (lseg_frame h); [|done].
  intros a _. apply next_mark_all.
Qed.

(** Marking keeps every cell a cell. *)
Lemma vals_mark_all l h order cs :
  (∀ a, a ∈ order → a < length h) → vals h order = Some <$> cs →
  ∃ cs', vals (mark_all l h) order = Some <$> cs' ∧ length cs' = length cs.
Proof.
  revert cs. induction order as [|a order IH]; intros cs Hb Hv.
  - destruct cs; [|done]. by exists [].
  - destruct cs as [|c cs]; [done|]. injection Hv as Hc Hv.
    destruct (IH cs) as (cs' & Hcs' & Hlen); [intros; apply Hb; by right | done |].
    destruct (decide (a ∈ l)).
    + exists ("x"%char :: cs'). simpl. rewrite Hlen. split; [|done].
      unfold vals in *. simpl. rewrite Hcs'.
      rewrite val_mark_all_in; [done..|]. apply Hb. left.
    + exists (c :: cs'). simpl. rewrite Hlen. split; [|done].
      unfold vals in *. simpl. rewrite Hcs'.
      rewrite val_mark_all_notin by done. by rewrite Hc.
Qed.

(** Marking [k] links from index [i] on, all of them cells. *)
Lemma vals_mark_all_range h order cs i k :
  NoDup order → (∀ a, a ∈ order → a < length h) →
  vals h order = Some <$> cs → i + k ≤ length order →
  vals (mark_all (take k (drop i order)) h) order
  = Some <$> (take i cs ++ replicate k "x"%char ++ drop (i + k) cs).
Proof.
  intros Hnd Hb Hv Hik.
  rewrite <- (take_drop i order) at 2. rewrite <- (take_drop k (drop i order)) at 2.
  rewrite <- (take_drop i order) in Hnd.
  rewrite <- (take_drop k (drop i order)) in Hnd.
  apply NoDup_app in Hnd as (_ & Hd1 & Hnd).
  apply NoDup_app in Hnd as (_ & Hd2 & _).
  unfold vals in *. rewrite !fmap_app.
  assert (∀ l, (∀ a, a ∈ l → a ∉ take k (drop i order)) →
            val_at (mark_all (take k (drop i order)) h) <$> l = val_at h <$> l) as Hout.
  { intros l Hl. apply list_fmap_ext. intros j a Ha.
    apply val_mark_all_notin, Hl. by eapply list_elem_of_lookup_2. }
  assert (val_at (mark_all (take k (drop i order)) h) <$> take k (drop i order)
          = replicate k (Some "x"%char)) as Hmid.
  { apply list_eq. intros j. rewrite list_lookup_fmap.
    destruct (decide (j < k)).
    + rewrite lookup_replicate_2 by done.
      destruct (lookup_lt_is_Some_2 (take k (drop i order)) j) as [a Ha].
      { rewrite length_take, length_drop. lia. }
      rewrite Ha. simpl. f_equal. apply val_mark_all_in.
      * by eapply list_elem_of_lookup_2.
      * apply Hb. apply list_elem_of_lookup_2 in Ha.
        apply elem_of_take in Ha as (j' & Ha & _).
        rewrite lookup_drop in Ha. by eapply list_elem_of_lookup_2.
    + rewrite (proj2 (lookup_ge_None _ _)) by (rewrite length_take; lia).
      symmetry. apply lookup_replicate_None. lia. }
  rewrite Hmid, (Hout (take i order)), (Hout (drop k (drop i order))).
  - by rewrite drop_drop, !fmap_take, !fmap_drop, Hv, fmap_replicate.
  - intros a Ha Ha'. by apply (Hd2 _ Ha').
  - intros a Ha Ha'. apply (Hd1 _ Ha). apply elem_of_app. by left.
Qed.

End ring_marks.

Section ring_loops.
Import LinkedListGenome.
Implicit Types (h : store) (l order : list nat) (a c cur hd stop : nat).

Lemma insert_loop_lseg f h hd cur l count pos len :
  lseg h cur l hd → hd ∉ l → (length l < f)%nat →
  insert_loop f h hd cur count pos len
  = if decide (count ≤ pos) then
      match l !! Z.to_nat (pos - count) with
      | Some c => insert_after_times (Z.to_nat len) h c "A"%char
      | None => Ok h
      end
    else Ok h.
Proof.
  revert f cur count. induction l as [|a l IH]; intros f cur count; simpl.
  - intros -> _ ?. destruct f; [lia|]. simpl. rewrite decide_True by done.
    by case_decide.
  - intros (-> & lk & Hlk & Hl) [? ?]%not_elem_of_cons ?.
    destruct f; [lia|]. simpl. rewrite decide_False by done.
    destruct (decide (count = pos)) as [->|Hne].
    + rewrite decide_True by lia. by replace (pos - pos) with 0 by lia.
    + unfold next_of. rewrite Hlk. simpl. rewrite IH by (done || lia).
      destruct (decide (count ≤ pos)).
      * rewrite decide_True by lia.
        replace (Z.to_nat (pos - count)) with (S (Z.to_nat (pos - (count + 1)))) by lia.
        done.
      * by rewrite decide_False by lia.
Qed.

Lemma disable_loop_lseg f h hd cur l count pos len :
  lseg h cur l hd → hd ∉ l → (length l < f)%nat →
  disable_loop f h hd cur count pos len
  = if decide (count ≤ pos) then
      match l !! Z.to_nat (pos - count) with
      | Some c => mark (Z.to_nat len) h c
      | None => Ok h
      end
    else Ok h.
Proof.
  revert f cur count. induction l as [|a l IH]; intros f cur count; simpl.
  - intros -> _ ?. destruct f; [lia|]. simpl. rewrite decide_True by done.
    by case_decide.
  - intros (-> & lk & Hlk & Hl) [? ?]%not_elem_of_cons ?.
    destruct f; [lia|]. simpl. rewrite decide_False by done.
    destruct (decide (count = pos)) as [->|Hne].
    + rewrite decide_True by lia. by replace (pos - pos) with 0 by lia.
    + unfold next_of. rewrite Hlk. simpl. rewrite IH by (done || lia).
      destruct (decide (count ≤ pos)).
      * rewrite decide_True by lia.
        replace (Z.to_nat (pos - count)) with (S (Z.to_nat (pos - (count + 1)))) by lia.
        done.
      * by rewrite decide_False by lia.
Qed.

Lemma rep_len h hd cs tes n :
  rep h hd cs →
  __len__ {| links := h; head := hd; TEs := tes; TE_counter := n |}
  = Ok (Z.of_nat (length cs)).
Proof.
  intros (order & Hring & Hv). unfold __len__. cbn [links head].
  destruct (ring_first _ _ _ Hring) as (c & -> & Hseg & Hhd). rewrite bind_Ok.
  rewrite (len_loop_lseg _ _ _ _ order) by (done || by eapply ring_fuel).
  f_equal. apply (f_equal length) in Hv. unfold vals in Hv.
  rewrite !length_fmap in Hv. lia.
Qed.

Lemma rep_str h hd cs tes n :
  rep h hd cs →
  __str__ {| links := h; head := hd; TEs := tes; TE_counter := n |}
  = Ok (string_of_list_ascii cs).
Proof.
  intros (order & Hring & Hv). unfold __str__. cbn [links head].
  destruct (ring_first _ _ _ Hring) as (c & -> & Hseg & Hhd). rewrite bind_Ok.
  rewrite (str_loop_lseg _ _ _ _ order cs) by (done || by eapply ring_fuel).
  rewrite bind_Ok. simpl. by rewrite concat_chars.
Qed.

Lemma rep_insert_loop h hd cs pos len :
  rep h hd cs →
  ∃ c h', next_of h hd = Ok c ∧
          insert_loop (fuel h) h hd c 1 pos len = Ok h' ∧
          rep h' hd (ring_insert cs pos len).
Proof.
  intros (order & Hring & Hv).
  destruct (ring_first _ _ _ Hring) as (c & Hc & Hseg & Hhd).
  exists c. rewrite (insert_loop_lseg _ _ _ _ order) by (done || by eapply ring_fuel).
  assert (length order = length cs) as Hlen.
  { apply (f_equal length) in Hv. unfold vals in Hv. by rewrite !length_fmap in Hv. }
  unfold ring_insert. destruct (decide (1 ≤ pos)) as [H1|H1].
  - destruct (order !! Z.to_nat (pos - 1)) as [a|] eqn:Ha.
    + pose proof (lookup_lt_Some _ _ _ Ha) as Hlt.
      rewrite decide_True by lia.
      pose proof (take_drop_middle _ _ _ Ha) as Hmid.
      destruct Hring as [Hnd Hcyc]. rewrite <- Hmid in Hnd, Hcyc.
      destruct (insert_after_times_lseg (Z.to_nat len) h a "A"%char hd
                  (hd :: take (Z.to_nat (pos - 1)) order)
                  (drop (S (Z.to_nat (pos - 1))) order) hd Hcyc Hnd)
        as (h' & news & -> & Hk & Hseg' & Hnd' & Hle & Hval & Hnews).
      exists h'. split_and!; [done..|].
      exists (take (Z.to_nat (pos - 1)) order ++ a :: news
                ++ drop (S (Z.to_nat (pos - 1))) order).
      split; [by split|].
      assert (∀ l, (∀ b, b ∈ l → b ∈ order) → vals h' l = vals h l) as Hold.
      { intros l Hl. apply list_fmap_ext. intros j b Hb. apply Hval.
        apply (lseg_bound _ _ _ _ _ Hseg), Hl. by eapply list_elem_of_lookup_2. }
      replace (Z.to_nat pos) with (S (Z.to_nat (pos - 1))) by lia.
      unfold vals in *. rewrite fmap_app. csimpl. rewrite fmap_app, Hnews.
      rewrite (Hold (take (Z.to_nat (pos - 1)) order)),
        (Hold (drop (S (Z.to_nat (pos - 1))) order)), (Hval a).
      * unfold times. rewrite !fmap_app, fmap_replicate.
        rewrite (fmap_take Some), (fmap_drop Some), <- Hv, <- fmap_take, <- fmap_drop.
        rewrite (take_S_r _ _ _ Ha), fmap_app, <- app_assoc. done.
      * apply (lseg_bound _ _ _ _ _ Hseg). by eapply list_elem_of_lookup_2.
      * intros b (j & Hb)%list_elem_of_lookup_1. rewrite lookup_drop in Hb.
        by eapply list_elem_of_lookup_2.
      * intros b (j & Hb & _)%elem_of_take. by eapply list_elem_of_lookup_2.
    + apply lookup_ge_None in Ha. rewrite decide_False by lia.
      exists h. split_and!; [done..|]. by exists order.
  - rewrite decide_False by lia. exists h. split_and!; [done..|]. by exists order.
Qed.

End ring_loops.

Section ring_methods.
Import LinkedListGenome.
Implicit Types (h : store) (l order : list nat) (a c cur hd stop : nat).

Lemma rep_length h hd order cs :
  vals h order = Some <$> cs → length order = length cs.
Proof.
  intros Hv. apply (f_equal length) in Hv. unfold vals in Hv.
  by rewrite !length_fmap in Hv.
Qed.

Lemma rep_disable_loop h hd cs pos len :
  rep h hd cs →
  ∃ c h' cs',
    next_of h hd = Ok c ∧
    disable_loop (fuel h) h hd c 0 pos len = Ok h' ∧
    rep h' hd cs' ∧ length cs' = length cs ∧
    (0 ≤ pos → 0 ≤ len → pos + len ≤ Z.of_nat (length cs) →
     cs' = take (Z.to_nat pos) cs ++ replicate (Z.to_nat len) "x"%char
             ++ drop (Z.to_nat (pos + len)) cs).
Proof.
  intros (order & Hring & Hv).
  destruct (ring_first _ _ _ Hring) as (c & Hc & Hseg & Hhd).
  pose proof (rep_length _ hd _ _ Hv) as Hlen.
  exists c. rewrite (disable_loop_lseg _ _ _ _ order) by (done || by eapply ring_fuel).
  replace (pos - 0) with pos by lia.
  assert (∃ h' cs', (if decide (0 ≤ pos) then
                       match order !! Z.to_nat pos with
                       | Some a => mark (Z.to_nat len) h a
                       | None => Ok h
                       end
                     else Ok h) = Ok h' ∧
            ring h' hd order ∧ vals h' order = Some <$> cs' ∧ length cs' = length cs ∧
            (0 ≤ pos → 0 ≤ len → pos + len ≤ Z.of_nat (length cs) →
             vals h' order
             = Some <$> (take (Z.to_nat pos) cs ++ replicate (Z.to_nat len) "x"%char
                           ++ drop (Z.to_nat (pos + len)) cs)))
    as (h' & cs' & -> & Hring' & Hv' & Hlen' & Hin).
  { assert (0 ≤ pos → 0 ≤ len → pos + len ≤ Z.of_nat (length cs) →
            (length order ≤ Z.to_nat pos)%nat →
            vals h order
            = Some <$> (take (Z.to_nat pos) cs ++ replicate (Z.to_nat len) "x"%char
                          ++ drop (Z.to_nat (pos + len)) cs)) as Hnone.
    { intros. replace (Z.to_nat len) with 0%nat by lia.
      replace (Z.to_nat (pos + len)) with (Z.to_nat pos) by lia.
      simpl. by rewrite take_drop. }
    destruct (decide (0 ≤ pos)); [|exists h, cs; split_and!; [done..|lia]].
    destruct (order !! Z.to_nat pos) as [a|] eqn:Ha.
    - assert (a ∈ hd :: order) as Hin by (right; by eapply list_elem_of_lookup_2).
      destruct (mark_ring (Z.to_nat len) _ _ _ _ Hring Hin) as (lm & Hmark & Hl).
      assert (∀ b, b ∈ order → (b < length h)%nat) as Hb
        by (intros b; apply (lseg_bound _ _ _ _ _ Hseg)).
      destruct (vals_mark_all lm h order cs Hb Hv) as (cs' & Hv' & Hlen').
      exists (mark_all lm h), cs'. split_and!; [done|by apply ring_mark_all|done..|].
      intros ? ? ?. rewrite <- (take_drop (Z.to_nat pos) order) in Hseg.
      apply lseg_app in Hseg as (mid & _ & Hseg2).
      rewrite (drop_S _ _ _ Ha) in Hseg2. pose proof Hseg2 as [-> _].
      rewrite <- (drop_S _ _ _ Ha) in Hseg2.
      rewrite (mark_lseg _ _ _ _ _ Hseg2) in Hmark by (rewrite length_drop; lia).
      injection Hmark as <-.
      destruct Hring as [[_ Hnd]%NoDup_cons _].
      rewrite (vals_mark_all_range h order cs (Z.to_nat pos) (Z.to_nat len)) by (done || lia).
      by replace (Z.to_nat (pos + len)) with (Z.to_nat pos + Z.to_nat len)%nat by lia.
    - apply lookup_ge_None in Ha. exists h, cs. split_and!; [done..|]. auto. }
  exists h', cs'. split_and!; [done|done|by exists order|done|].
  intros H1 H2 H3. specialize (Hin H1 H2 H3). rewrite Hv' in Hin.
  by apply (inj (fmap Some)) in Hin.
Qed.

Lemma rep_init (n : Z) :
  ∃ h, insert_after_times (Z.to_nat n) [ {| val := None; prev := O; next := O |} ] O
         "-"%char = Ok h ∧
       rep h O (times "-"%char n).
Proof.
  set (h0 := [ {| val := None; prev := O; next := O |} ]).
  assert (lseg h0 O ([] ++ O :: []) O) as Hseg.
  { simpl. split; [done|]. by exists {| val := None; prev := O; next := O |}. }
  assert (NoDup ([] ++ O :: @nil nat)) as Hnd by apply NoDup_singleton.
  destruct (insert_after_times_lseg (Z.to_nat n) h0 O "-"%char O [] [] O Hseg Hnd)
    as (h & news & -> & Hk & Hseg' & Hnd' & _ & _ & Hnews).
  exists h. split; [done|]. exists news. simpl in *.
  rewrite app_nil_r in Hseg', Hnd'. split; [by split|].
  unfold times. by rewrite fmap_replicate.
Qed.

End ring_methods.

(** ** LinkedListGenome: what each method computes *)

Section linked_genome.
Import LinkedListGenome.
Implicit Types (self s : t) (te pos len : Z) (cs : list ascii).

Lemma cells_len self cs : cells self cs → __len__ self = Ok (Z.of_nat (length cs)).
Proof. destruct self. apply rep_len. Qed.

Lemma cells_str self cs : cells self cs → __str__ self = Ok (string_of_list_ascii cs).
Proof. destruct self. apply rep_str. Qed.

(** The cells are a function of the store: two lists the same genome
    holds are the same list. *)
Lemma cells_unique self cs cs' : cells self cs → cells self cs' → cs = cs'.
Proof.
  intros H1%cells_str H2%cells_str. rewrite H1 in H2. injection H2 as H2.
  apply (f_equal list_ascii_of_string) in H2.
  by rewrite !list_ascii_of_string_of_list_ascii in H2.
Qed.

Lemma linked_init_Ok (n : Z) :
  ∃ g, __init__ n = Ok g ∧ cells g (times "-"%char n) ∧
       TEs g = [] ∧ TE_counter g = 0.
Proof.
  destruct (rep_init n) as (h & Hh & Hrep). unfold __init__. rewrite Hh, bind_Ok.
  by eexists.
Qed.

Lemma linked_disable_te_Ok self cs te r :
  cells self cs → dict_get (TEs self) te = Some r →
  ∃ s cs', disable_te self te = Ok s ∧ cells s cs' ∧ length cs' = length cs ∧
    TEs s = dict_alter (set_status Disabled) te (TEs self) ∧
    TE_counter s = TE_counter self ∧
    (0 ≤ te_pos r → 0 ≤ te_length r →
     te_pos r + te_length r ≤ Z.of_nat (length cs) →
     cs' = take (Z.to_nat (te_pos r)) cs ++ replicate (Z.to_nat (te_length r)) "x"%char
             ++ drop (Z.to_nat (te_pos r + te_length r)) cs).
Proof.
  intros Hrep Hr. unfold disable_te. rewrite Hr.
  destruct (rep_disable_loop _ _ _ (te_pos r) (te_length r) Hrep)
    as (c & h' & cs' & -> & Hloop & Hrep' & Hlen & Hin).
  rewrite bind_Ok, Hloop, bind_Ok. by eexists _, cs'.
Qed.

Lemma linked_scan_first self pos items :
  scan self pos items
  = match first_collision pos items with
    | Some te => disable_te self te
    | None => Ok self
    end.
Proof.
  induction items as [|[te r] items IH]; simpl; [done|].
  by destruct (collides pos r).
Qed.

Lemma linked_scan_Ok self cs pos :
  cells self cs →
  ∃ s cs', scan self pos (TEs self) = Ok s ∧ cells s cs' ∧ length cs' = length cs ∧
           TEs s = scan_tes pos (TEs self) ∧ TE_counter s = TE_counter self.
Proof.
  intros Hrep. rewrite linked_scan_first. unfold scan_tes.
  destruct (first_collision pos (TEs self)) as [te|] eqn:E; [|by exists self, cs].
  destruct (dict_get_key _ _ (first_collision_key _ _ _ E)) as [r Hr].
  destruct (linked_disable_te_Ok _ _ _ _ Hrep Hr) as (s & cs' & ? & ? & ? & ? & ? & _).
  by exists s, cs'.
Qed.

Lemma linked_insert_te_Ok self cs pos len :
  cells self cs →
  ∃ s cs1 s',
    scan self pos (TEs self) = Ok s ∧ cells s cs1 ∧ length cs1 = length cs ∧
    insert_te self pos len = Ok (s', TE_counter self + 1) ∧
    cells s' (ring_insert cs1 pos len) ∧
    TE_counter s' = TE_counter self + 1 ∧
    TEs s' = insert_tes (TE_counter self) pos len (TEs self).
Proof.
  intros Hrep.
  destruct (linked_scan_Ok _ _ pos Hrep) as (s & cs1 & Hs & Hrep1 & Hlen & HT & HC).
  destruct (rep_insert_loop _ _ _ pos len Hrep1) as (c & h' & Hc & Hloop & Hrep').
  unfold insert_te. rewrite Hs, bind_Ok, Hc, bind_Ok, Hloop, bind_Ok.
  eexists s, cs1, _. split_and!; [done..|]. simpl. by rewrite HT.
Qed.

Lemma linked_disable_te_unknown self te :
  dict_get (TEs self) te = None → disable_te self te = Raise KeyError.
Proof. intros E. unfold disable_te. by rewrite E. Qed.

Lemma linked_copy_te_unknown self te offset :
  dict_get (TEs self) te = None → copy_te self te offset = Raise KeyError.
Proof. intros E. unfold copy_te. by rewrite E. Qed.

End linked_genome.

(** * The claims of the specification *)

(** ** Fresh genomes and the first insertion *)

(** C9, as the code has it: for every [n >= 0] a fresh genome of size [n],
    list-backed or linked, has length [n] and renders as [n] dashes; and
    on a fresh genome of size 10, [insert_te(3, 2)] returns id 1, after
    which the length is 12 and the rendering is the twelve characters
    ["---AA-------"] (three dashes, the two [A], seven dashes). *)
Theorem C9_fresh_genome_and_first_insert (n : Z) :
  0 ≤ n →
  (ListGenome.__len__ (ListGenome.__init__ n) = n ∧
   ListGenome.__str__ (ListGenome.__init__ n)
   = string_of_list_ascii (replicate (Z.to_nat n) "-"%char)) ∧
  (∃ g, LinkedListGenome.__init__ n = Ok g ∧
        LinkedListGenome.__len__ g = Ok n ∧
        LinkedListGenome.__str__ g
        = Ok (string_of_list_ascii (replicate (Z.to_nat n) "-"%char))) ∧
  (∃ s, ListGenome.insert_te (ListGenome.__init__ 10) 3 2 = Ok (s, 1) ∧
        ListGenome.__len__ s = 12 ∧
        ListGenome.__str__ s = "---AA-------"%string) ∧
  (∃ g s, LinkedListGenome.__init__ 10 = Ok g ∧
          LinkedListGenome.insert_te g 3 2 = Ok (s, 1) ∧
          LinkedListGenome.__len__ s = Ok 12 ∧
          LinkedListGenome.__str__ s = Ok "---AA-------"%string).
Proof.
  intros Hn. split_and!.
  - unfold ListGenome.__len__, ListGenome.__init__. simpl.
    pose proof (length_times "-"%char n). lia.
  - done.
  - destruct (linked_init_Ok n) as (g & Hg & Hcells & _). exists g.
    split_and!; [done| |].
    + rewrite (cells_len _ _ Hcells). f_equal.
      pose proof (length_times "-"%char n). lia.
    + by rewrite (cells_str _ _ Hcells).
  - eexists. split_and!; [vm_compute; reflexivity|done|done].
  - eexists _, _. split_and!; [vm_compute; reflexivity..].
Qed.

Lemma C9_fresh_genome_and_first_insert_witness :
  0 ≤ 4 ∧
  ListGenome.__str__ (ListGenome.__init__ 4) = "----"%string ∧
  ∃ g, LinkedListGenome.__init__ 4 = Ok g ∧
       LinkedListGenome.__str__ g = Ok "----"%string.
Proof.
  assert (0 ≤ 4) as H by lia.
  destruct (C9_fresh_genome_and_first_insert 4 H) as ((_ & Hl) & (g & Hg & _ & Hs) & _).
  split; [exact H|]. split; [exact Hl|]. exists g. split; [exact Hg | exact Hs].
Defined.

(** C9 as the specification words it fails: the literal it gives,
    ["---AA------"], has eleven characters, while the rendering has
    twelve, like the length. *)
Lemma C9_counterexample :
  ∃ s, ListGenome.insert_te (ListGenome.__init__ 10) 3 2 = Ok (s, 1) ∧
       ListGenome.__len__ s = 12 ∧
       ListGenome.__str__ s ≠ "---AA------"%string.
Proof. eexists. split_and!; [vm_compute; reflexivity|done|done]. Qed.

(** ** The two structures side by side *)

(** C1 at [insert_te(0, 2)] on a fresh genome of size 10: the list-backed
    genome puts the two cells in front, the linked genome inserts no cell
    at all (its count starts at 1, so no cell is ever counted 0); both
    return id 1 and hold TE 1 active, and the renderings differ. *)
Theorem C1_structures_differ_at_pos_0 :
  trace ListGenome.t 10 [InsertTe 0 2] = Ok [(Some 1, "AA----------"%string, [1])] ∧
  trace LinkedListGenome.t 10 [InsertTe 0 2] = Ok [(Some 1, "----------"%string, [1])] ∧
  trace ListGenome.t 10 [InsertTe 0 2] ≠ trace LinkedListGenome.t 10 [InsertTe 0 2].
Proof. split_and!; [vm_compute; reflexivity..|vm_compute; discriminate]. Qed.

(** Away from position 0 the two structures go together; here through a
    collision, a copy that wraps around, a copy of a disabled TE and an
    insertion at the very end. *)
Example traces_agree :
  let calls := [InsertTe 3 4; InsertTe 5 2; CopyTe 2 (-7); CopyTe 1 3;
                DisableTe 3; InsertTe 18 1] in
  trace ListGenome.t 10 calls = trace LinkedListGenome.t 10 calls ∧
  trace ListGenome.t 10 calls
  = Ok [(Some 1, "---AAAA-------"%string, [1]);
        (Some 2, "---xxAAxx-------"%string, [2]);
        (Some 3, "---xxAAxx-----AA--"%string, [2; 3]);
        (None, "---xxAAxx-----AA--"%string, [2; 3]);
        (None, "---xxAAxx-----xx--"%string, [2]);
        (Some 4, "---xxAAxx-----xx--A"%string, [2; 4])].
Proof. vm_compute. split; reflexivity. Qed.

(** C2 at the same call: the length of the list-backed genome goes from 10
    to 12, the length of the linked genome stays 10. *)
Theorem C2_linked_length_unchanged_at_pos_0 :
  (∃ s, ListGenome.insert_te (ListGenome.__init__ 10) 0 2 = Ok (s, 1) ∧
        ListGenome.__len__ (ListGenome.__init__ 10) = 10 ∧
        ListGenome.__len__ s = 12) ∧
  (∃ g s, LinkedListGenome.__init__ 10 = Ok g ∧
          LinkedListGenome.insert_te g 0 2 = Ok (s, 1) ∧
          LinkedListGenome.__len__ g = Ok 10 ∧
          LinkedListGenome.__len__ s = Ok 10).
Proof.
  split.
  - eexists. split_and!; [vm_compute; reflexivity|done|done].
  - eexists _, _. split_and!; [vm_compute; reflexivity..].
Qed.

(** ** The scan of [insert_te] *)

Lemma strictly_inside_collides pos r : strictly_inside pos r ↔ collides pos r = true.
Proof. symmetry. apply collides_spec. Qed.

Lemma insert_tes_get_before c pos len d te r :
  c + 1 ∉ keys d → dict_get d te = Some r →
  dict_get (insert_tes c pos len d) te
  = Some (shift_te pos len
            (if decide (first_collision pos d = Some te)
             then set_status Disabled r else r)).
Proof.
  intros Hc Hr. assert (te ≠ c + 1) by (intros ->; by apply dict_get_Some_key in Hr).
  rewrite insert_tes_get_old, scan_tes_get, Hr by done. by case_decide.
Qed.

Lemma insert_tes_disables_first c pos len d :
  NoDup (keys d) → c + 1 ∉ keys d → disables_first pos d (insert_tes c pos len d).
Proof.
  intros Hnd Hc.
  assert (∀ te r r', dict_get d te = Some r →
            dict_get (insert_tes c pos len d) te = Some r' →
            te_status r' ≠ te_status r →
            first_collision pos d = Some te ∧ te_status r' = Disabled) as Hchg.
  { intros te r r' Hr. rewrite (insert_tes_get_before _ _ _ _ _ _ Hc Hr).
    intros [= <-]. rewrite shift_te_status. by case_decide. }
  assert (∀ te r, dict_get d te = Some r → first_collision pos d = Some te →
            ∃ d1 d2, d = d1 ++ (te, r) :: d2 ∧ strictly_inside pos r ∧
                     Forall (λ kv, ¬ strictly_inside pos kv.2) d1) as Hfirst.
  { intros te r Hr (d1 & r0 & d2 & -> & Hc0 & Hd1)%first_collision_Some.
    assert (r0 = r) as ->.
    { assert (dict_get (d1 ++ (te, r0) :: d2) te = Some r0) as Hr0; [|congruence].
      apply dict_elem_get; [done|]. apply elem_of_app; right; left. }
    exists d1, d2. split_and!; [done|by apply strictly_inside_collides|].
    eapply Forall_impl; [exact Hd1|]. intros kv Hkv. rewrite strictly_inside_collides.
    by rewrite Hkv. }
  split.
  - intros te r Hr. rewrite (insert_tes_get_before _ _ _ _ _ _ Hc Hr). eauto.
  - intros t1 t2 r1 r2 r1' r2' H1 H1' H2 H2' C1 C2.
    destruct (Hchg _ _ _ H1 H1' C1) as [E1 _].
    destruct (Hchg _ _ _ H2 H2' C2) as [E2 _]. congruence.
  - intros te r r' Hr Hr' Hne.
    destruct (Hchg _ _ _ Hr Hr' Hne) as [E ?]. split; [done|]. by apply Hfirst.
  - intros te r Hr Hin.
    destruct (first_collision pos d) as [t0|] eqn:E.
    + destruct (dict_get_key _ _ (first_collision_key _ _ _ E)) as [r0 Hr0].
      destruct (Hfirst _ _ Hr0 eq_refl) as (_ & _ & _ & [Ha _] & _).
      exists t0, r0. eexists. split_and!; [done| |done|].
      * rewrite (insert_tes_get_before _ _ _ _ _ _ Hc Hr0). by rewrite E, decide_True.
      * by rewrite shift_te_status.
    + apply first_collision_None in E. apply dict_get_elem in Hr.
      pose proof (proj1 (Forall_forall _ _) E _ Hr) as Hn. simpl in Hn.
      apply strictly_inside_collides in Hin. congruence.
  - intros te r r' Hr Hr' Hb.
    destruct (decide (te_status r' = te_status r)) as [|Hne]; [done|].
    destruct (Hchg _ _ _ Hr Hr' Hne) as [E _].
    destruct (Hfirst _ _ Hr E) as (_ & _ & _ & (_ & ? & ?) & _). lia.
Qed.

(** C3: [insert_te(pos, length)] disables at most one existing TE per call:
    the first active record, in iteration order, with [pos] strictly inside
    its interval ([start < pos < start + length], so not one that starts or
    ends at [pos]); the status of every other record is unchanged.  In
    both structures, on a registry whose ids are distinct and below the
    next id. *)
Theorem C3_insert_disables_first_collision
  (gl : ListGenome.t) (gk : LinkedListGenome.t) (pos len : Z) :
  NoDup (keys (ListGenome.TEs gl)) →
  ListGenome.TE_counter gl + 1 ∉ keys (ListGenome.TEs gl) →
  NoDup (keys (LinkedListGenome.TEs gk)) →
  LinkedListGenome.TE_counter gk + 1 ∉ keys (LinkedListGenome.TEs gk) →
  wf gk →
  (∃ s i, ListGenome.insert_te gl pos len = Ok (s, i) ∧
          disables_first pos (ListGenome.TEs gl) (ListGenome.TEs s)) ∧
  (∃ s i, LinkedListGenome.insert_te gk pos len = Ok (s, i) ∧
          disables_first pos (LinkedListGenome.TEs gk) (LinkedListGenome.TEs s)).
Proof.
  intros Hnd1 Hc1 Hnd2 Hc2 [cs Hcs]. split.
  - destruct (list_insert_te_Ok gl pos len) as (s0 & s & _ & Hs & _ & _ & HT).
    exists s, (ListGenome.TE_counter gl + 1). split; [done|].
    rewrite HT. by apply insert_tes_disables_first.
  - destruct (linked_insert_te_Ok gk cs pos len Hcs)
      as (s0 & cs1 & s & _ & _ & _ & Hs & _ & _ & HT).
    exists s, (LinkedListGenome.TE_counter gk + 1). split; [done|].
    rewrite HT. by apply insert_tes_disables_first.
Qed.

(** ** Well-formed linked genomes stay well-formed *)

Lemma linked_init_cells n g :
  LinkedListGenome.__init__ n = Ok g → cells g (times "-"%char n).
Proof.
  destruct (linked_init_Ok n) as (g' & -> & Hcells & _). by intros [= <-].
Qed.

Lemma linked_insert_te_wf g pos len s i :
  wf g → LinkedListGenome.insert_te g pos len = Ok (s, i) → wf s.
Proof.
  intros [cs Hcs].
  destruct (linked_insert_te_Ok g cs pos len Hcs)
    as (s0 & cs1 & s' & _ & _ & _ & -> & Hcells & _).
  intros [= <- _]. by eexists.
Qed.

Lemma linked_disable_te_wf g te s :
  wf g → LinkedListGenome.disable_te g te = Ok s → wf s.
Proof.
  intros [cs Hcs]. destruct (dict_get (LinkedListGenome.TEs g) te) as [r|] eqn:Hr.
  - destruct (linked_disable_te_Ok g cs te r Hcs Hr) as (s' & cs' & -> & Hcells & _).
    intros [= <-]. by eexists.
  - by rewrite linked_disable_te_unknown.
Qed.

Lemma linked_copy_te_wf g te offset s i :
  wf g → LinkedListGenome.copy_te g te offset = Ok (s, i) → wf s.
Proof.
  intros Hwf. pose proof Hwf as [cs Hcs]. unfold LinkedListGenome.copy_te.
  destruct (dict_get (LinkedListGenome.TEs g) te) as [r|]; [|done].
  destruct (is_active r); [|by intros [= <- _]].
  rewrite (cells_len _ _ Hcs), bind_Ok. case_decide; [done|].
  destruct (LinkedListGenome.insert_te g _ (te_length r)) as [[s' i']| |] eqn:E; [|done..].
  rewrite bind_Ok. intros [= <- _]. by eapply linked_insert_te_wf.
Qed.

(** ** The demo genomes are well-formed *)

Lemma demo_linked_cells : cells demo_linked (list_ascii_of_string "---AAAA-------").
Proof.
  destruct (linked_init_Ok 10) as (g & Hg & Hcells & _).
  destruct (linked_insert_te_Ok g _ 3 4 Hcells)
    as (s0 & cs1 & s & Hscan & Hcs1 & _ & Hs & Hcells' & _).
  vm_compute in Hg. injection Hg as <-.
  vm_compute in Hscan. injection Hscan as <-.
  pose proof (cells_unique _ _ _ Hcells Hcs1) as <-.
  vm_compute in Hs. injection Hs as <-.
  exact Hcells'.
Qed.

Lemma demo_linked_wf : wf demo_linked.
Proof. eexists. apply demo_linked_cells. Qed.

Lemma C3_insert_disables_first_collision_witness :
  (∃ s i, ListGenome.insert_te demo_list 5 2 = Ok (s, i) ∧
          disables_first 5 (ListGenome.TEs demo_list) (ListGenome.TEs s)) ∧
  (∃ s i, LinkedListGenome.insert_te demo_linked 5 2 = Ok (s, i) ∧
          disables_first 5 (LinkedListGenome.TEs demo_linked) (LinkedListGenome.TEs s)).
Proof.
  apply C3_insert_disables_first_collision.
  - apply (bool_decide_unpack _). vm_compute. exact I.
  - apply (bool_decide_unpack _). vm_compute. exact I.
  - apply (bool_decide_unpack _). vm_compute. exact I.
  - apply (bool_decide_unpack _). vm_compute. exact I.
  - exact demo_linked_wf.
Defined.

(** On the demo genomes [insert_te(5, 2)] does disable TE 1, which holds
    position 5 strictly inside [3, 7), while [insert_te(3, 2)] and
    [insert_te(7, 2)], at its two ends, do not. *)
Example scan_demo :
  (λ pos, match ListGenome.insert_te demo_list pos 2 with
          | Ok (s, _) => ListGenome.active_tes s
          | _ => []
          end) <$> [3; 5; 7]
  = [[1; 2]; [2]; [1; 2]].
Proof. vm_compute. reflexivity. Qed.

(** ** The shift of the recorded positions *)

(** C4: after [insert_te(pos, length)] every record that was in the
    registry with a start [>= pos] has its start increased by [length]
    (also the one that starts exactly at [pos]), and every record with a
    start [< pos] keeps its start; no length changes.  In both
    structures, on a registry that does not hold the next id yet. *)
Theorem C4_insert_shifts_starts
  (gl : ListGenome.t) (gk : LinkedListGenome.t) (pos len : Z) :
  ListGenome.TE_counter gl + 1 ∉ keys (ListGenome.TEs gl) →
  LinkedListGenome.TE_counter gk + 1 ∉ keys (LinkedListGenome.TEs gk) →
  wf gk →
  (∃ s i, ListGenome.insert_te gl pos len = Ok (s, i) ∧
     ∀ te r, dict_get (ListGenome.TEs gl) te = Some r →
       ∃ r', dict_get (ListGenome.TEs s) te = Some r' ∧
             te_length r' = te_length r ∧
             (pos ≤ te_pos r → te_pos r' = te_pos r + len) ∧
             (te_pos r < pos → te_pos r' = te_pos r)) ∧
  (∃ s i, LinkedListGenome.insert_te gk pos len = Ok (s, i) ∧
     ∀ te r, dict_get (LinkedListGenome.TEs gk) te = Some r →
       ∃ r', dict_get (LinkedListGenome.TEs s) te = Some r' ∧
             te_length r' = te_length r ∧
             (pos ≤ te_pos r → te_pos r' = te_pos r + len) ∧
             (te_pos r < pos → te_pos r' = te_pos r)).
Proof.
  intros Hc1 Hc2 [cs Hcs].
  assert (∀ c d, c + 1 ∉ keys d → ∀ te r, dict_get d te = Some r →
            ∃ r', dict_get (insert_tes c pos len d) te = Some r' ∧
                  te_length r' = te_length r ∧
                  (pos ≤ te_pos r → te_pos r' = te_pos r + len) ∧
                  (te_pos r < pos → te_pos r' = te_pos r)) as Hshift.
  { intros c d Hc te r Hr. eexists. split; [by apply insert_tes_get_before|].
    rewrite shift_te_length, shift_te_pos.
    split_and!; case_decide; simpl; try done; case_bool_decide; lia. }
  split.
  - destruct (list_insert_te_Ok gl pos len) as (s0 & s & _ & Hs & _ & _ & HT).
    exists s, (ListGenome.TE_counter gl + 1). split; [done|].
    rewrite HT. by apply Hshift.
  - destruct (linked_insert_te_Ok gk cs pos len Hcs)
      as (s0 & cs1 & s & _ & _ & _ & Hs & _ & _ & HT).
    exists s, (LinkedListGenome.TE_counter gk + 1). split; [done|].
    rewrite HT. by apply Hshift.
Qed.

Lemma C4_insert_shifts_starts_witness :
  (∃ s i, ListGenome.insert_te demo_list 3 2 = Ok (s, i) ∧
     ∀ te r, dict_get (ListGenome.TEs demo_list) te = Some r →
       ∃ r', dict_get (ListGenome.TEs s) te = Some r' ∧
             te_length r' = te_length r ∧
             (3 ≤ te_pos r → te_pos r' = te_pos r + 2) ∧
             (te_pos r < 3 → te_pos r' = te_pos r)) ∧
  (∃ s i, LinkedListGenome.insert_te demo_linked 3 2 = Ok (s, i) ∧
     ∀ te r, dict_get (LinkedListGenome.TEs demo_linked) te = Some r →
       ∃ r', dict_get (LinkedListGenome.TEs s) te = Some r' ∧
             te_length r' = te_length r ∧
             (3 ≤ te_pos r → te_pos r' = te_pos r + 2) ∧
             (te_pos r < 3 → te_pos r' = te_pos r)).
Proof.
  apply C4_insert_shifts_starts.
  - apply (bool_decide_unpack _). vm_compute. exact I.
  - apply (bool_decide_unpack _). vm_compute. exact I.
  - exact demo_linked_wf.
Defined.

(** ** Copying *)

Lemma demo_linked_disabled_wf : wf demo_linked_disabled.
Proof. by apply (linked_insert_te_wf demo_linked 5 2 _ 2 demo_linked_wf). Qed.

(** C5, as the code has it: [copy_te] of a disabled TE returns [None] and
    leaves the genome as it is (so its length, its rendering and its
    active TEs); for an id [tu] the registry does not hold, [copy_te] and
    [disable_te] both raise [KeyError]. *)
Theorem C5_copy_of_disabled_and_unknown_id
  (gl : ListGenome.t) (gk : LinkedListGenome.t) (td tu offset : Z) (rl rk : TE) :
  dict_get (ListGenome.TEs gl) td = Some rl → te_status rl = Disabled →
  dict_get (LinkedListGenome.TEs gk) td = Some rk → te_status rk = Disabled →
  dict_get (ListGenome.TEs gl) tu = None →
  dict_get (LinkedListGenome.TEs gk) tu = None →
  ListGenome.copy_te gl td offset = Ok (gl, None) ∧
  LinkedListGenome.copy_te gk td offset = Ok (gk, None) ∧
  ListGenome.copy_te gl tu offset = Raise KeyError ∧
  ListGenome.disable_te gl tu = Raise KeyError ∧
  LinkedListGenome.copy_te gk tu offset = Raise KeyError ∧
  LinkedListGenome.disable_te gk tu = Raise KeyError.
Proof.
  intros Hl Dl Hk Dk Ul Uk. split_and!.
  - unfold ListGenome.copy_te, is_active. rewrite Hl, Dl. done.
  - unfold LinkedListGenome.copy_te, is_active. rewrite Hk, Dk. done.
  - by apply list_copy_te_unknown.
  - by apply list_disable_te_unknown.
  - by apply linked_copy_te_unknown.
  - by apply linked_disable_te_unknown.
Qed.

Lemma C5_copy_of_disabled_and_unknown_id_witness :
  ListGenome.copy_te demo_list_disabled 1 4 = Ok (demo_list_disabled, None) ∧
  LinkedListGenome.copy_te demo_linked_disabled 1 4 = Ok (demo_linked_disabled, None) ∧
  ListGenome.copy_te demo_list_disabled 7 4 = Raise KeyError ∧
  ListGenome.disable_te demo_list_disabled 7 = Raise KeyError ∧
  LinkedListGenome.copy_te demo_linked_disabled 7 4 = Raise KeyError ∧
  LinkedListGenome.disable_te demo_linked_disabled 7 = Raise KeyError.
Proof.
  apply (C5_copy_of_disabled_and_unknown_id demo_list_disabled demo_linked_disabled
           1 7 4 (mkTE 3 4 Disabled) (mkTE 3 4 Disabled)); reflexivity.
Defined.

(** C5 as the specification words it fails on an unknown id: neither call
    takes the path of a disabled TE, both raise. *)
Lemma C5_counterexample :
  dict_get (ListGenome.TEs (ListGenome.__init__ 10)) 7 = None ∧
  ListGenome.copy_te (ListGenome.__init__ 10) 7 0 = Raise KeyError ∧
  ListGenome.copy_te (ListGenome.__init__ 10) 7 0 ≠ Ok (ListGenome.__init__ 10, None) ∧
  ListGenome.disable_te (ListGenome.__init__ 10) 7 = Raise KeyError ∧
  ListGenome.disable_te (ListGenome.__init__ 10) 7 ≠ Ok (ListGenome.__init__ 10) ∧
  ∃ g, LinkedListGenome.__init__ 10 = Ok g ∧
       LinkedListGenome.copy_te g 7 0 = Raise KeyError ∧
       LinkedListGenome.disable_te g 7 = Raise KeyError.
Proof.
  split_and!; [done..|]. eexists. split_and!; [vm_compute; reflexivity|done|done].
Qed.

(** C6: for an active [te] with recorded start [s] and length [L], on a
    genome that is not empty, [copy_te(te, offset)] returns what
    [insert_te((s + offset) mod len, L)] returns on the same genome, [len]
    being its length before the copy; the position lies in [[0, len)]
    whatever the sign of the offset.  The insertion runs on the registry
    as it is, the source TE included. *)
Theorem C6_copy_is_insert_at_wrapped_position
  (gl : ListGenome.t) (gk : LinkedListGenome.t) (te offset n : Z) (rl rk : TE) :
  dict_get (ListGenome.TEs gl) te = Some rl → te_status rl = Active →
  0 < ListGenome.__len__ gl →
  dict_get (LinkedListGenome.TEs gk) te = Some rk → te_status rk = Active →
  wf gk → LinkedListGenome.__len__ gk = Ok n → 0 < n →
  (let p := (te_pos rl + offset) `mod` ListGenome.__len__ gl in
   0 ≤ p < ListGenome.__len__ gl ∧
   ∃ s i, ListGenome.insert_te gl p (te_length rl) = Ok (s, i) ∧
          ListGenome.copy_te gl te offset = Ok (s, Some i)) ∧
  (let p := (te_pos rk + offset) `mod` n in
   0 ≤ p < n ∧
   ∃ s i, LinkedListGenome.insert_te gk p (te_length rk) = Ok (s, i) ∧
          LinkedListGenome.copy_te gk te offset = Ok (s, Some i)).
Proof.
  intros Hl Al Nl Hk Ak [cs Hcs] Hn Nk. split; intros p.
  - split; [by apply Z.mod_pos_bound|].
    destruct (list_insert_te_Ok gl p (te_length rl)) as (s0 & s & _ & Hs & _).
    exists s, (ListGenome.TE_counter gl + 1). split; [done|].
    unfold ListGenome.copy_te, is_active. rewrite Hl, Al. simpl.
    rewrite decide_False by lia. fold p. by rewrite Hs.
  - split; [by apply Z.mod_pos_bound|].
    destruct (linked_insert_te_Ok gk cs p (te_length rk) Hcs)
      as (s0 & cs1 & s & _ & _ & _ & Hs & _).
    exists s, (LinkedListGenome.TE_counter gk + 1). split; [done|].
    unfold LinkedListGenome.copy_te, is_active. rewrite Hk, Ak. simpl.
    rewrite Hn, bind_Ok, decide_False by lia. fold p. by rewrite Hs.
Qed.

Lemma C6_copy_is_insert_at_wrapped_position_witness :
  (0 ≤ (3 + -5) `mod` 14 < 14 ∧
   ∃ s i, ListGenome.insert_te demo_list ((3 + -5) `mod` 14) 4 = Ok (s, i) ∧
          ListGenome.copy_te demo_list 1 (-5) = Ok (s, Some i)) ∧
  (0 ≤ (3 + -5) `mod` 14 < 14 ∧
   ∃ s i, LinkedListGenome.insert_te demo_linked ((3 + -5) `mod` 14) 4 = Ok (s, i) ∧
          LinkedListGenome.copy_te demo_linked 1 (-5) = Ok (s, Some i)).
Proof.
  apply (C6_copy_is_insert_at_wrapped_position demo_list demo_linked 1 (-5) 14
           (mkTE 3 4 Active) (mkTE 3 4 Active)).
  - reflexivity.
  - reflexivity.
  - reflexivity.
  - reflexivity.
  - reflexivity.
  - exact demo_linked_wf.
  - vm_compute. reflexivity.
  - reflexivity.
Defined.

(** A copy that lands strictly inside its own source disables the source:
    TE 1 lies on [3, 7), and [copy_te(1, 1)] inserts at 4. *)
Example copy_into_source :
  (match ListGenome.copy_te demo_list 1 1 with
   | Ok (s, i) => Some (ListGenome.__str__ s, i, ListGenome.active_tes s)
   | _ => None
   end,
   match LinkedListGenome.copy_te demo_linked 1 1 with
   | Ok (s, i) => Some (LinkedListGenome.__str__ s, i, LinkedListGenome.active_tes s)
   | _ => None
   end)
  = (Some ("---xAAAAxxx-------"%string, Some 2, [2]),
     Some (Ok "---xAAAAxxx-------"%string, Some 2, [2])).
Proof. vm_compute. reflexivity. Qed.

(** ** Positions out of range *)




(** ** Disabling *)

Section disabling.
Implicit Types (d : dict) (k te : Z) (r : TE).

Lemma dict_alter_idemp (f : TE → TE) k d :
  (∀ r, f (f r) = f r) → dict_alter f k (dict_alter f k d) = dict_alter f k d.
Proof.
  intros Hf. induction d as [|[k' v] d IH]; simpl; [done|].
  case_decide; simpl.
  - by rewrite decide_True, Hf by done.
  - by rewrite decide_False, IH by done.
Qed.


Lemma get_active_ids d k r :
  dict_get d k = Some r → te_status r = Active → k ∈ active_ids d.
Proof.
  intros Hr Ha. apply (list_elem_of_fmap_2' fst _ (k, r)); [|done].
  apply list_elem_of_filter. split; [|by apply dict_get_elem].
  unfold is_active. simpl. by apply bool_decide_eq_true.
Qed.


(** Disabling touches the status of [te] and nothing else in the registry. *)
Lemma disable_keeps_bookkeeping d te k r :
  dict_get d k = Some r →
  ∃ r', dict_get (dict_alter (set_status Disabled) te d) k = Some r' ∧
        te_pos r' = te_pos r ∧ te_length r' = te_length r ∧
        (k ≠ te → r' = r).
Proof.
  intros Hr. rewrite dict_get_alter, Hr.
  case_decide; eexists; split_and!; done || congruence.
Qed.

Lemma lookup_overwritten {X} (a : list X) (lo n i : nat) (c : X) :
  (lo ≤ length a)%nat → (lo ≤ i < lo + n)%nat →
  (take lo a ++ replicate n c ++ drop (lo + n) a) !! i = Some c.
Proof.
  intros Hlo Hi. rewrite lookup_app_r by (rewrite length_take; lia).
  rewrite length_take, Nat.min_l by lia.
  rewrite lookup_app_l by (rewrite length_replicate; lia).
  apply lookup_replicate_2. lia.
Qed.

End disabling.

Section marks_twice.
Local Open Scope nat_scope.
Implicit Types (h : store) (l order : list nat) (a c cur hd stop : nat).





End marks_twice.



Lemma list_disable_te_in_range (self : ListGenome.t) te r :
  dict_get (ListGenome.TEs self) te = Some r → in_range r (ListGenome.__len__ self) →
  ∃ s, ListGenome.disable_te self te = Ok s ∧
       ListGenome.genome s
       = take (Z.to_nat (te_pos r)) (ListGenome.genome self)
           ++ replicate (Z.to_nat (te_length r)) "x"%char
           ++ drop (Z.to_nat (te_pos r) + Z.to_nat (te_length r)) (ListGenome.genome self) ∧
       ListGenome.TEs s = dict_alter (set_status Disabled) te (ListGenome.TEs self) ∧
       ListGenome.TE_counter s = ListGenome.TE_counter self ∧
       ListGenome.__len__ s = ListGenome.__len__ self ∧
       ListGenome.disable_te s te = Ok s.
Proof.
  intros Hr (Hp & Hl & Hle). unfold ListGenome.__len__ in *.
  rewrite (list_disable_te_Ok _ _ _ Hr). eexists. split; [done|]. simpl.
  rewrite slice_assign_in_range by done.
  replace (Z.to_nat (te_pos r + te_length r))
    with (Z.to_nat (te_pos r) + Z.to_nat (te_length r))%nat by lia.
  set (g' := take _ _ ++ _ ++ drop _ _).
  assert (length g' = length (ListGenome.genome self)) as Hlen.
  { unfold g'. rewrite !length_app, length_take, length_drop, length_replicate. lia. }
  split_and!; [done..|by rewrite Hlen|].
  unfold ListGenome.disable_te. simpl.
  rewrite dict_get_alter, decide_True, Hr by done. simpl.
  rewrite slice_assign_in_range by (done || lia).
  replace (Z.to_nat (te_pos r + te_length r))
    with (Z.to_nat (te_pos r) + Z.to_nat (te_length r))%nat by lia.
  rewrite dict_alter_idemp by done.
  unfold g'. rewrite overwrite_twice by lia. done.
Qed.




(** On a linked genome an interval may reach beyond the cells: after
    [insert_te(0, 5)] on a genome of size 2 (which inserts no cell) TE 1
    is recorded on [0, 5), and disabling it marks the two cells there
    are. *)
Example disable_beyond_the_cells :
  (g ← LinkedListGenome.__init__ 2;
   '(s, _) ← LinkedListGenome.insert_te g 0 5;
   s ← LinkedListGenome.disable_te s 1;
   str ← LinkedListGenome.__str__ s;
   Ok (str, LinkedListGenome.TEs s))
  = Ok ("xx"%string, [(1, mkTE 0 5 Disabled)]).
Proof. vm_compute. reflexivity. Qed.

(** Disabling again after other insertions is not a no-op: the record of
    a disabled TE keeps its interval, and the cells a later insertion put
    there are overwritten. *)
Example disable_again_after_insert :
  (ListGenome.__str__ demo_list_disabled,
   match ListGenome.disable_te demo_list_disabled 1 with
   | Ok s => Some (ListGenome.__str__ s, ListGenome.active_tes s)
   | _ => None
   end)
  = ("---xxAAxx-------"%string, Some ("---xxxxxx-------"%string, [2])).
Proof. vm_compute. reflexivity. Qed.

(** ** Reachable genomes *)

Lemma list_reachable_inv g :
  list_reachable g → registry_inv (ListGenome.TE_counter g) (ListGenome.TEs g).
Proof.
  induction 1 as [n Hn|g pos len s i _ IH Hpos Hlen Hs|g te offset s i _ IH Hs
                 |g te s _ IH Hs].
  - apply registry_inv_empty.
  - destruct (list_insert_te_Ok g pos len) as (s0 & s' & _ & Hs' & _ & HC & HT).
    rewrite Hs' in Hs. injection Hs as <- _. rewrite HC, HT.
    apply registry_inv_insert; [lia | done].
  - unfold ListGenome.copy_te in Hs.
    destruct (dict_get (ListGenome.TEs g) te) as [r|] eqn:Hr; [|done].
    destruct (is_active r); [|by injection Hs as <- _].
    case_decide; [done|].
    destruct (list_insert_te_Ok g ((te_pos r + offset) `mod` ListGenome.__len__ g)
                (te_length r)) as (s0 & s' & _ & Hs' & _ & HC & HT).
    rewrite Hs', bind_Ok in Hs. injection Hs as <- _. rewrite HC, HT.
    apply registry_inv_insert; [|done]. by eapply inv_length.
  - destruct (dict_get (ListGenome.TEs g) te) as [r|] eqn:Hr.
    + rewrite (list_disable_te_Ok _ _ _ Hr) in Hs. injection Hs as <-. simpl.
      by apply registry_inv_disable.
    + by rewrite list_disable_te_unknown in Hs.
Qed.

Lemma linked_reachable_inv g :
  linked_reachable g →
  wf g ∧ registry_inv (LinkedListGenome.TE_counter g) (LinkedListGenome.TEs g).
Proof.
  induction 1 as [n g Hn Hg|g m pos len s i _ [Hwf IH] Hm Hpos Hlen Hs
                 |g te offset s i _ [Hwf IH] Hs|g te s _ [Hwf IH] Hs].
  - destruct (linked_init_Ok n) as (g' & Hg' & Hcells & HT & HC).
    assert (g' = g) as <- by congruence.
    split; [by eexists | rewrite HT, HC; apply registry_inv_empty].
  - split; [by eapply linked_insert_te_wf|]. destruct Hwf as [cs Hcs].
    destruct (linked_insert_te_Ok g cs pos len Hcs)
      as (s0 & cs1 & s' & _ & _ & _ & Hs' & _ & HC & HT).
    rewrite Hs' in Hs. injection Hs as <- _. rewrite HC, HT.
    apply registry_inv_insert; [lia | done].
  - split; [by eapply linked_copy_te_wf|]. destruct Hwf as [cs Hcs].
    unfold LinkedListGenome.copy_te in Hs.
    destruct (dict_get (LinkedListGenome.TEs g) te) as [r|] eqn:Hr; [|done].
    destruct (is_active r); [|by injection Hs as <- _].
    rewrite (cells_len _ _ Hcs), bind_Ok in Hs. case_decide; [done|].
    destruct (linked_insert_te_Ok g cs
                ((te_pos r + offset) `mod` Z.of_nat (length cs)) (te_length r) Hcs)
      as (s0 & cs1 & s' & _ & _ & _ & Hs' & _ & HC & HT).
    rewrite Hs', bind_Ok in Hs. injection Hs as <- _. rewrite HC, HT.
    apply registry_inv_insert; [|done]. by eapply inv_length.
  - split; [by eapply linked_disable_te_wf|]. destruct Hwf as [cs Hcs].
    destruct (dict_get (LinkedListGenome.TEs g) te) as [r|] eqn:Hr.
    + destruct (linked_disable_te_Ok g cs te r Hcs Hr) as (s' & cs' & Hs' & _ & _ & HT & HC & _).
      rewrite Hs' in Hs. injection Hs as <-. rewrite HT, HC.
      by apply registry_inv_disable.
    + by rewrite linked_disable_te_unknown in Hs.
Qed.

Lemma disjoint_one_inside d pos t1 t2 r1 r2 :
  disjoint_active d →
  dict_get d t1 = Some r1 → dict_get d t2 = Some r2 →
  strictly_inside pos r1 → strictly_inside pos r2 → t1 = t2.
Proof.
  intros Hdis H1 H2 (A1 & ? & ?) (A2 & ? & ?).
  destruct (decide (t1 = t2)) as [|Hne]; [done|].
  destruct (Hdis t1 t2 r1 r2 Hne H1 H2 A1 A2); lia.
Qed.

(** C10: in every reachable genome, of either structure, the intervals of
    two distinct active records do not meet; so at most one active record
    has a given position strictly inside, and once the scan of
    [insert_te] has disabled the first one it finds, no active record has
    the position strictly inside any more. *)
Theorem C10_active_intervals_disjoint
  (gl : ListGenome.t) (gk : LinkedListGenome.t) :
  list_reachable gl → linked_reachable gk →
  (disjoint_active (ListGenome.TEs gl) ∧
   (∀ pos t1 t2 r1 r2,
      dict_get (ListGenome.TEs gl) t1 = Some r1 →
      dict_get (ListGenome.TEs gl) t2 = Some r2 →
      strictly_inside pos r1 → strictly_inside pos r2 → t1 = t2) ∧
   (∀ pos, ∃ s, ListGenome.scan gl pos (ListGenome.TEs gl) = Ok s ∧
      ∀ te r, dict_get (ListGenome.TEs s) te = Some r → ¬ strictly_inside pos r)) ∧
  (disjoint_active (LinkedListGenome.TEs gk) ∧
   (∀ pos t1 t2 r1 r2,
      dict_get (LinkedListGenome.TEs gk) t1 = Some r1 →
      dict_get (LinkedListGenome.TEs gk) t2 = Some r2 →
      strictly_inside pos r1 → strictly_inside pos r2 → t1 = t2) ∧
   (∀ pos, ∃ s, LinkedListGenome.scan gk pos (LinkedListGenome.TEs gk) = Ok s ∧
      ∀ te r, dict_get (LinkedListGenome.TEs s) te = Some r → ¬ strictly_inside pos r)).
Proof.
  intros [_ Hnd1 _ _ Hdis1]%list_reachable_inv
         [[cs Hcs] [_ Hnd2 _ _ Hdis2]]%linked_reachable_inv.
  split; (split_and!; [done|intros *; by apply disjoint_one_inside|]); intros pos.
  - destruct (list_scan_Ok gl pos) as (s & Hs & HT & _). exists s. split; [done|].
    intros te r Hr Hin%strictly_inside_collides.
    rewrite HT in Hr. rewrite (scan_tes_clear _ _ _ _ Hnd1 Hdis1 Hr) in Hin. done.
  - destruct (linked_scan_Ok gk cs pos Hcs) as (s & cs' & Hs & _ & _ & HT & _).
    exists s. split; [done|].
    intros te r Hr Hin%strictly_inside_collides.
    rewrite HT in Hr. rewrite (scan_tes_clear _ _ _ _ Hnd2 Hdis2 Hr) in Hin. done.
Qed.

Lemma demo_list_two_reachable : list_reachable demo_list_two.
Proof.
  apply (lr_insert demo_list 9 3 _ 2); [|split; [lia|vm_compute; discriminate]|lia|reflexivity].
  apply (lr_insert (ListGenome.__init__ 10) 3 4 _ 1);
    [|split; [lia|vm_compute; discriminate]|lia|reflexivity].
  apply lr_init. lia.
Defined.

Lemma demo_linked_two_reachable : linked_reachable demo_linked_two.
Proof.
  apply (kr_insert demo_linked 14 9 3 _ 2); [|vm_compute; reflexivity|lia|lia|reflexivity].
  eapply (kr_insert _ 10 3 4 _ 1);
    [eapply (kr_init 10); [lia|vm_compute; reflexivity]
    |vm_compute; reflexivity|lia|lia|vm_compute; reflexivity].
Defined.

Lemma C10_active_intervals_disjoint_witness :
  disjoint_active (ListGenome.TEs demo_list_two) ∧
  disjoint_active (LinkedListGenome.TEs demo_linked_two).
Proof.
  destruct (C10_active_intervals_disjoint demo_list_two demo_linked_two
              demo_list_two_reachable demo_linked_two_reachable)
    as [[Hl _] [Hk _]].
  split; [exact Hl | exact Hk].
Defined.

(** ** Lengths and ids along the calls

    What holds of the length and of the ids around the claims above: on
    the list-backed genome every record of a reachable genome lies on its
    cells, an insertion in range makes it longer by [length], and the new
    id is above all ids in the registry; the linked genome does the same
    from position 1 on, and at position 0 it keeps its cells. *)

Lemma list_insert_te_in_range (g s : ListGenome.t) pos len i :
  (∀ k r, dict_get (ListGenome.TEs g) k = Some r → in_range r (ListGenome.__len__ g)) →
  0 ≤ len → ListGenome.insert_te g pos len = Ok (s, i) →
  ListGenome.__len__ s = ListGenome.__len__ g + len ∧
  (0 ≤ pos ≤ ListGenome.__len__ g →
   ∀ k r, dict_get (ListGenome.TEs s) k = Some r → in_range r (ListGenome.__len__ s)).
Proof.
  intros Hin Hlen Hs.
  destruct (list_insert_te_Ok g pos len) as (s0 & s' & Hs0 & Hs' & HG & HC & HT).
  rewrite Hs' in Hs. injection Hs as <- _.
  destruct (list_scan_Ok g pos) as (s0' & Hs0' & _ & _ & HG0).
  rewrite Hs0 in Hs0'. injection Hs0' as <-.
  assert (length (ListGenome.genome s0) = length (ListGenome.genome g)) as Hlen0.
  { rewrite HG0. destruct (first_collision pos (ListGenome.TEs g)) as [te|]; [|done].
    destruct (dict_get (ListGenome.TEs g) te) as [r|] eqn:Hr; [|done].
    destruct (Hin _ _ Hr) as (? & ? & ?). by apply length_slice_assign_in_range. }
  assert (ListGenome.__len__ s' = ListGenome.__len__ g + len) as Hgrow.
  { unfold ListGenome.__len__. rewrite HG, length_splice, Hlen0.
    pose proof (length_times "A"%char len). lia. }
  split; [done|]. intros Hpos k r. rewrite HT, Hgrow.
  destruct (decide (k = ListGenome.TE_counter g + 1)) as [->|Hk].
  - rewrite insert_tes_get_new. intros [= <-].
    unfold in_range, ListGenome.__len__ in *. simpl. lia.
  - rewrite insert_tes_get_old by done.
    destruct (dict_get (scan_tes pos (ListGenome.TEs g)) k) as [r1|] eqn:E; [|done].
    intros [= <-].
    apply scan_tes_get_inv in E as (r0 & (? & ? & ?)%Hin & Hp & Hl & _).
    unfold in_range. rewrite shift_te_pos, shift_te_length, Hp, Hl.
    case_bool_decide; lia.
Qed.

Lemma list_reachable_in_range g :
  list_reachable g →
  ∀ k r, dict_get (ListGenome.TEs g) k = Some r → in_range r (ListGenome.__len__ g).
Proof.
  induction 1 as [n Hn|g pos len s i Hg IH Hpos Hlen Hs|g te offset s i Hg IH Hs
                 |g te s Hg IH Hs].
  - done.
  - assert (0 ≤ len) as Hlen0 by lia.
    exact (proj2 (list_insert_te_in_range g s pos len i IH Hlen0 Hs) Hpos).
  - unfold ListGenome.copy_te in Hs.
    destruct (dict_get (ListGenome.TEs g) te) as [r|] eqn:Hr; [|done].
    destruct (is_active r); [|by injection Hs as <- _].
    case_decide; [done|].
    destruct (ListGenome.insert_te g _ (te_length r)) as [[s' i']| |] eqn:E; [|done..].
    rewrite bind_Ok in Hs. injection Hs as <- _.
    destruct (IH _ _ Hr) as (? & Hlen0 & ?).
    apply (proj2 (list_insert_te_in_range g s' _ _ _ IH Hlen0 E)).
    pose proof (Z.mod_pos_bound (te_pos r + offset) (ListGenome.__len__ g)).
    unfold ListGenome.__len__ in *. lia.
  - destruct (dict_get (ListGenome.TEs g) te) as [r|] eqn:Hr.
    + destruct (list_disable_te_in_range g te r Hr (IH _ _ Hr))
        as (s' & Hs' & _ & HT & _ & Hlen & _).
      rewrite Hs' in Hs. injection Hs as <-. rewrite HT, Hlen.
      intros k r0. rewrite dict_get_alter. case_decide; [|apply IH].
      destruct (dict_get (ListGenome.TEs g) k) as [r1|] eqn:E; [|done].
      intros [= <-]. exact (IH _ _ E).
    + by rewrite list_disable_te_unknown in Hs.
Qed.

(** What C2 says, on the list-backed genome. *)
Lemma list_insert_te_grows (g s : ListGenome.t) pos len i :
  list_reachable g → 0 ≤ pos ≤ ListGenome.__len__ g → 1 ≤ len →
  ListGenome.insert_te g pos len = Ok (s, i) →
  ListGenome.__len__ s = ListGenome.__len__ g + len ∧
  i = ListGenome.TE_counter g + 1 ∧
  ∀ k, k ∈ keys (ListGenome.TEs g) → k < i.
Proof.
  intros Hg Hpos Hlen Hs. split_and!.
  - assert (0 ≤ len) as Hlen0 by lia.
    exact (proj1 (list_insert_te_in_range g s pos len i
                    (list_reachable_in_range g Hg) Hlen0 Hs)).
  - destruct (list_insert_te_Ok g pos len) as (_ & s' & _ & Hs' & _). congruence.
  - destruct (list_insert_te_Ok g pos len) as (_ & s' & _ & Hs' & _).
    assert (i = ListGenome.TE_counter g + 1) as -> by congruence.
    intros k Hk. apply (inv_ids _ _ (list_reachable_inv g Hg)) in Hk. lia.
Qed.

(** What C2 says, on the linked genome, from position 1 on; and what the
    linked genome does at position 0, whatever it holds. *)
Lemma linked_insert_te_grows (g : LinkedListGenome.t) cs pos len :
  cells g cs → 0 ≤ len →
  ∃ s cs', LinkedListGenome.insert_te g pos len = Ok (s, LinkedListGenome.TE_counter g + 1) ∧
           cells s cs' ∧
           Z.of_nat (length cs')
           = if decide (1 ≤ pos ≤ Z.of_nat (length cs))
             then Z.of_nat (length cs) + len else Z.of_nat (length cs).
Proof.
  intros Hcs Hlen.
  destruct (linked_insert_te_Ok g cs pos len Hcs)
    as (s0 & cs1 & s & _ & _ & Hlen1 & Hs & Hcells & _).
  exists s, (ring_insert cs1 pos len). split_and!; [done..|].
  unfold ring_insert. rewrite Hlen1. case_decide; [|by rewrite Hlen1].
  rewrite !length_app, length_take, length_drop.
  pose proof (length_times "A"%char len). lia.
Qed.

(** No record of a reachable linked genome starts at a negative position,
    so C8 applies to all of them, also to those whose intervals the
    insertions at position 0 left without cells. *)
Lemma insert_tes_nonneg c pos len d :
  0 ≤ pos → 0 ≤ len →
  (∀ k r, dict_get d k = Some r → 0 ≤ te_pos r) →
  ∀ k r, dict_get (insert_tes c pos len d) k = Some r → 0 ≤ te_pos r.
Proof.
  intros Hpos Hlen Hd k r. destruct (decide (k = c + 1)) as [->|Hk].
  - rewrite insert_tes_get_new. by intros [= <-].
  - rewrite insert_tes_get_old by done.
    destruct (dict_get (scan_tes pos d) k) as [r1|] eqn:E; [|done]. intros [= <-].
    apply scan_tes_get_inv in E as (r0 & ?%Hd & Hp & _).
    rewrite shift_te_pos, Hp. case_bool_decide; lia.
Qed.

Lemma linked_reachable_nonneg g :
  linked_reachable g →
  ∀ k r, dict_get (LinkedListGenome.TEs g) k = Some r → 0 ≤ te_pos r.
Proof.
  induction 1 as [n g Hn Hg|g m pos len s i Hg IH Hm Hpos Hlen Hs
                 |g te offset s i Hg IH Hs|g te s Hg IH Hs].
  - destruct (linked_init_Ok n) as (g' & Hg' & _ & HT & _).
    assert (g' = g) as <- by congruence. by rewrite HT.
  - destruct (linked_reachable_inv g Hg) as [[cs Hcs] _].
    destruct (linked_insert_te_Ok g cs pos len Hcs)
      as (s0 & cs1 & s' & _ & _ & _ & Hs' & _ & _ & HT).
    rewrite Hs' in Hs. injection Hs as <- _. rewrite HT.
    apply insert_tes_nonneg; [lia|lia|done].
  - destruct (linked_reachable_inv g Hg) as [[cs Hcs] Hinv].
    unfold LinkedListGenome.copy_te in Hs.
    destruct (dict_get (LinkedListGenome.TEs g) te) as [r|] eqn:Hr; [|done].
    destruct (is_active r); [|by injection Hs as <- _].
    rewrite (cells_len _ _ Hcs), bind_Ok in Hs. case_decide; [done|].
    destruct (linked_insert_te_Ok g cs
                ((te_pos r + offset) `mod` Z.of_nat (length cs)) (te_length r) Hcs)
      as (s0 & cs1 & s' & _ & _ & _ & Hs' & _ & _ & HT).
    rewrite Hs', bind_Ok in Hs. injection Hs as <- _. rewrite HT.
    pose proof (inv_length _ _ Hinv _ _ Hr).
    pose proof (Z.mod_pos_bound (te_pos r + offset) (Z.of_nat (length cs))).
    apply insert_tes_nonneg; [lia|lia|done].
  - destruct (linked_reachable_inv g Hg) as [[cs Hcs] _].
    destruct (dict_get (LinkedListGenome.TEs g) te) as [r|] eqn:Hr.
    + destruct (linked_disable_te_Ok g cs te r Hcs Hr) as (s' & cs' & Hs' & _ & _ & HT & _).
      rewrite Hs' in Hs. injection Hs as <-. rewrite HT.
      intros k r0 Hr0.
      destruct (dict_get (LinkedListGenome.TEs g) k) as [r1|] eqn:E.
      * destruct (disable_keeps_bookkeeping _ te _ _ E) as (r' & Hr' & Hp & _).
        rewrite Hr' in Hr0. injection Hr0 as <-. rewrite Hp. by eapply IH.
      * rewrite dict_get_alter, E in Hr0. by case_decide.
    + by rewrite linked_disable_te_unknown in Hs.
Qed.


(** * Further properties of the code *)

(** ** The two structures, away from position 0 *)

Lemma same_genome_disable gl gk te r :
  same_genome gl gk → dict_get (ListGenome.TEs gl) te = Some r →
  in_range r (ListGenome.__len__ gl) →
  ∃ sl sk, ListGenome.disable_te gl te = Ok sl ∧
           LinkedListGenome.disable_te gk te = Ok sk ∧
           same_genome sl sk ∧
           ListGenome.__len__ sl = ListGenome.__len__ gl ∧
           ListGenome.TEs sl = dict_alter (set_status Disabled) te (ListGenome.TEs gl).
Proof.
  intros (Hcs & HT & HC) Hr Hin.
  destruct (list_disable_te_in_range gl te r Hr Hin) as (sl & Hsl & HG & HTl & HCl & Hlen & _).
  rewrite <- HT in Hr.
  destruct (linked_disable_te_Ok gk _ te r Hcs Hr) as (sk & cs' & Hsk & Hcs' & _ & HTk & HCk & Hcells).
  destruct Hin as (? & ? & ?). unfold ListGenome.__len__ in *.
  exists sl, sk. split_and!; [done..| |done|done].
  split_and!; [|congruence|congruence].
  rewrite HG, Hcells in * by done.
  by replace (Z.to_nat (te_pos r + te_length r))
    with (Z.to_nat (te_pos r) + Z.to_nat (te_length r))%nat in Hcs' by lia.
Qed.

Lemma all_in_range_disable gl te sl :
  all_in_range gl → ListGenome.disable_te gl te = Ok sl → all_in_range sl.
Proof.
  intros Hin Hs. destruct (dict_get (ListGenome.TEs gl) te) as [r|] eqn:Hr;
    [|by rewrite list_disable_te_unknown in Hs].
  destruct (list_disable_te_in_range gl te r Hr (Hin _ _ Hr))
    as (s' & Hs' & _ & HT & _ & Hlen & _).
  rewrite Hs' in Hs. injection Hs as <-. intros k r0. rewrite HT, Hlen.
  destruct (dict_get (ListGenome.TEs gl) k) as [r1|] eqn:E.
  - destruct (disable_keeps_bookkeeping _ te _ _ E) as (r' & -> & Hp & Hl & _).
    intros [= <-]. destruct (Hin _ _ E) as (? & ? & ?). unfold in_range. lia.
  - rewrite dict_get_alter, E. by case_decide.
Qed.

Lemma same_genome_scan gl gk pos :
  same_genome gl gk → all_in_range gl →
  ∃ sl sk, ListGenome.scan gl pos (ListGenome.TEs gl) = Ok sl ∧
           LinkedListGenome.scan gk pos (LinkedListGenome.TEs gk) = Ok sk ∧
           same_genome sl sk ∧ ListGenome.__len__ sl = ListGenome.__len__ gl.
Proof.
  intros Hsame Hin. pose proof Hsame as (_ & HT & _).
  rewrite list_scan_first, linked_scan_first, HT.
  destruct (first_collision pos (ListGenome.TEs gl)) as [te|] eqn:E; [|by exists gl, gk].
  destruct (dict_get_key _ _ (first_collision_key _ _ _ E)) as [r Hr].
  destruct (same_genome_disable gl gk te r Hsame Hr (Hin _ _ Hr))
    as (sl & sk & ? & ? & ? & ? & _).
  by exists sl, sk.
Qed.

Lemma same_genome_insert gl gk pos len :
  same_genome gl gk → all_in_range gl →
  1 ≤ pos ≤ ListGenome.__len__ gl → 0 ≤ len →
  ∃ sl sk i, ListGenome.insert_te gl pos len = Ok (sl, i) ∧
             LinkedListGenome.insert_te gk pos len = Ok (sk, i) ∧
             same_genome sl sk ∧ all_in_range sl.
Proof.
  intros Hsame Hin Hpos Hlen.
  destruct (same_genome_scan gl gk pos Hsame Hin) as (s0l & s0k & Hs0l & Hs0k & Hsame0 & Hlen0).
  destruct Hsame as (Hcs & HT & HC). destruct Hsame0 as (Hcs0 & _ & _).
  destruct (list_insert_te_Ok gl pos len) as (s0l' & sl & Hs0l' & Hsl & HG & HCl & HTl).
  assert (s0l' = s0l) as -> by congruence.
  destruct (linked_insert_te_Ok gk _ pos len Hcs)
    as (s0k' & cs1 & sk & Hs0k' & Hcs1 & _ & Hsk & Hcells & HCk & HTk).
  assert (s0k' = s0k) as -> by congruence.
  pose proof (cells_unique _ _ _ Hcs0 Hcs1) as <-.
  exists sl, sk, (ListGenome.TE_counter gl + 1). split_and!.
  - done.
  - by rewrite <- HC.
  - split_and!; [|congruence|congruence].
    unfold ListGenome.__len__ in *.
    unfold ring_insert in Hcells. rewrite decide_True in Hcells by lia.
    rewrite HG. unfold slice_to, slice_from.
    by rewrite slice_bound_in_range by lia.
  - intros k r Hr.
    assert (0 ≤ pos ≤ ListGenome.__len__ gl) as Hpos0 by lia.
    exact (proj2 (list_insert_te_in_range gl sl pos len _ Hin Hlen Hsl) Hpos0 k r Hr).
Qed.

(** One call on each structure, from the same genome. *)
Lemma same_genome_call gl gk c :
  same_genome gl gk → all_in_range gl → away_from_0 gl c →
  same_outcome (do_call gl c) (do_call gk c).
Proof.
  intros Hsame Hin Hc. pose proof Hsame as (Hcs & HT & HC).
  destruct c as [pos len|te offset|te]; simpl in *.
  - destruct Hc as [Hpos Hlen].
    destruct (same_genome_insert gl gk pos len Hsame Hin Hpos Hlen)
      as (sl & sk & i & -> & -> & ? & ?).
    rewrite !bind_Ok. by split_and!.
  - unfold ListGenome.copy_te, LinkedListGenome.copy_te. rewrite HT.
    destruct (dict_get (ListGenome.TEs gl) te) as [r|] eqn:Hr; [|done].
    destruct (is_active r); [|by split_and!].
    rewrite (cells_len _ _ Hcs), bind_Ok. fold (ListGenome.__len__ gl).
    case_decide; [done|].
    destruct (Hin _ _ Hr) as (? & ? & ?).
    pose proof (Z.mod_pos_bound (te_pos r + offset) (ListGenome.__len__ gl)) as Hm.
    assert (0 < ListGenome.__len__ gl) as Hn by (unfold ListGenome.__len__ in *; lia).
    destruct (same_genome_insert gl gk
                ((te_pos r + offset) `mod` ListGenome.__len__ gl) (te_length r) Hsame Hin)
      as (sl & sk & i & -> & -> & ? & ?); [lia|lia|].
    rewrite !bind_Ok. by split_and!.
  - destruct (dict_get (ListGenome.TEs gl) te) as [r|] eqn:Hr.
    + destruct (same_genome_disable gl gk te r Hsame Hr (Hin _ _ Hr))
        as (sl & sk & Hsl & -> & ? & _).
      pose proof (all_in_range_disable gl te sl Hin Hsl). rewrite Hsl, !bind_Ok.
      by split_and!.
    + rewrite list_disable_te_unknown by done.
      rewrite linked_disable_te_unknown by (by rewrite HT). done.
Qed.

Lemma same_genome_run gl gk calls :
  same_genome gl gk → all_in_range gl → calm gl calls → run gl calls = run gk calls.
Proof.
  revert gl gk. induction calls as [|c calls IH]; intros gl gk Hsame Hin Hcalm; [done|].
  destruct Hcalm as [Hc Hrest]. cbn [run].
  pose proof (same_genome_call gl gk c Hsame Hin Hc) as Hout. unfold same_outcome in Hout.
  destruct (do_call gl c) as [[sl rl]| |], (do_call gk c) as [[sk rk]| |]; try done.
  - destruct Hout as (-> & Hsame' & Hin'). rewrite !bind_Ok.
    pose proof Hsame' as (Hcs' & HT' & _). simpl.
    rewrite (cells_str _ _ Hcs'), !bind_Ok.
    rewrite (IH sl sk Hsame' Hin' Hrest).
    unfold ListGenome.active_tes, LinkedListGenome.active_tes, ListGenome.__str__.
    by rewrite HT'.
  - by subst.
Qed.

(** X1: on every sequence of calls that never inserts at position 0 (each
    [insert_te] has [1 <= pos <= len] and a length that is not negative,
    no [copy_te] of an active TE wraps to position 0), the list-backed and
    the linked genome of the same size give the same trace: the same
    returned values, renderings and active ids after each call, or the
    same exception. *)
Theorem X1_structures_agree_away_from_0 (n : Z) (calls : list call) :
  calm (ListGenome.__init__ n) calls →
  trace ListGenome.t n calls = trace LinkedListGenome.t n calls.
Proof.
  intros Hcalm. unfold trace. simpl.
  destruct (linked_init_Ok n) as (gk & -> & Hcells & HT & HC). rewrite !bind_Ok.
  apply same_genome_run; [by split_and!|done|done].
Qed.

Lemma X1_structures_agree_away_from_0_witness :
  let calls := [InsertTe 3 4; InsertTe 5 2; CopyTe 2 (-7); CopyTe 1 3;
                DisableTe 3; InsertTe 1 1] in
  trace ListGenome.t 10 calls = trace LinkedListGenome.t 10 calls.
Proof.
  apply X1_structures_agree_away_from_0.
  vm_compute. repeat split; discriminate.
Defined.

(** ** The links stay doubly linked *)

Section doubly.
Local Open Scope nat_scope.
Implicit Types (h : store) (a b c : nat).

Lemma doubly_linked_inverse h :
  doubly_linked h ↔ ∀ a b, nxt h a = Some b ↔ prv h b = Some a.
Proof.
  unfold doubly_linked, nxt, prv. split.
  - intros Hd a b. split.
    + destruct (h !! a) as [lk|] eqn:E; [|done]. intros [= <-].
      destruct (Hd _ _ E) as [(n & -> & <-) _]. done.
    + destruct (h !! b) as [lk|] eqn:E; [|done]. intros [= <-].
      destruct (Hd _ _ E) as [_ (p & -> & <-)]. done.
  - intros Hi a lk E. split.
    + pose proof (proj1 (Hi a (next lk))) as Hn. rewrite E in Hn.
      specialize (Hn eq_refl). destruct (h !! next lk) as [n|]; [|done].
      exists n. split; [done|]. by injection Hn.
    + pose proof (proj2 (Hi (prev lk) a)) as Hp. rewrite E in Hp.
      specialize (Hp eq_refl). destruct (h !! prev lk) as [p|]; [|done].
      exists p. split; [done|]. by injection Hp.
Qed.

Lemma nxt_insert_after h c v l h' a :
  h !! c = Some l → insert_after h c v = Ok h' →
  nxt h' a = if decide (a = c) then Some (length h)
             else if decide (a = length h) then Some (next l) else nxt h a.
Proof.
  intros Hc. unfold insert_after, nxt. rewrite Hc. intros [= <-].
  pose proof (lookup_lt_Some _ _ _ Hc).
  rewrite next_alter_prev, list_lookup_alter.
  repeat case_decide; subst; try lia.
  - by rewrite lookup_app_l, Hc.
  - by rewrite list_lookup_middle.
  - destruct (decide (a < length h)).
    + by rewrite lookup_app_l.
    + rewrite !(proj2 (lookup_ge_None _ _)); [done|lia|rewrite length_app; simpl; lia].
Qed.

Lemma prv_insert_after h c v l h' b :
  h !! c = Some l → next l < length h → insert_after h c v = Ok h' →
  prv h' b = if decide (b = next l) then Some (length h)
             else if decide (b = length h) then Some c else prv h b.
Proof.
  intros Hc Hn. unfold insert_after, prv. rewrite Hc. intros [= <-].
  pose proof (lookup_lt_Some _ _ _ Hc).
  set (new := {| val := Some v; prev := c; next := next l |}).
  assert (∀ i, prev <$> alter (set_next (length h)) c (h ++ [new]) !! i
               = prev <$> (h ++ [new]) !! i) as E.
  { intros i. rewrite list_lookup_alter. case_decide as Hi; [|done].
    rewrite Hi. by destruct ((h ++ [new]) !! i). }
  destruct (decide (b = next l)) as [->|Hb].
  - rewrite list_lookup_alter_eq.
    destruct (lookup_lt_is_Some_2 h (next l) Hn) as [n En].
    pose proof (E (next l)) as E'. rewrite lookup_app_l, En in E' by done.
    destruct (alter _ c (h ++ [new]) !! next l); by simplify_eq/=.
  - rewrite list_lookup_alter_ne by done. rewrite E.
    case_decide; subst.
    + by rewrite list_lookup_middle.
    + destruct (decide (b < length h)).
      * by rewrite lookup_app_l.
      * rewrite !(proj2 (lookup_ge_None _ _)); [done|lia|rewrite length_app; simpl; lia].
Qed.

Lemma insert_after_doubly_linked h c v h' :
  doubly_linked h → insert_after h c v = Ok h' → doubly_linked h'.
Proof.
  intros Hd Hins. destruct (h !! c) as [l|] eqn:Hc;
    [|by unfold insert_after in Hins; rewrite Hc in Hins].
  pose proof (lookup_lt_Some _ _ _ Hc) as Hlt.
  destruct (Hd _ _ Hc) as [(n & Hn & Hnp) _].
  pose proof (lookup_lt_Some _ _ _ Hn) as Hnl.
  pose proof (proj1 (doubly_linked_inverse h) Hd) as Hi.
  assert (nxt h c = Some (next l)) as F1 by (unfold nxt; by rewrite Hc).
  assert (∀ x y, nxt h x = Some y → x < length h ∧ y < length h) as F2.
  { intros x y Hx. pose proof (proj1 (Hi x y) Hx) as Hy. unfold nxt, prv in *.
    destruct (h !! x) eqn:Ex, (h !! y) eqn:Ey; try done.
    split; by eapply lookup_lt_Some. }
  apply (proj2 (doubly_linked_inverse h')). intros a b.
  rewrite (nxt_insert_after h c v l h' a Hc Hins),
    (prv_insert_after h c v l h' b Hc Hnl Hins).
  repeat case_decide; subst; split; intros Hab; simplify_eq; try done; try lia.
  all: try (apply Hi in Hab; rewrite F1 in Hab; by simplify_eq).
  all: try (apply Hi, F2 in Hab; lia).
  all: try (apply F2 in Hab; lia).
  all: try (by apply Hi).
  apply Hi in Hab. apply Hi in F1. rewrite F1 in Hab. by simplify_eq.
Qed.

End doubly.

Ltac bind_inv H :=
  match type of H with
  | (?r ≫= _) = Ok _ =>
      let E := fresh "E" in
      destruct r eqn:E; [rewrite bind_Ok in H | discriminate H | discriminate H]
  end.

Section doubly_methods.
Import LinkedListGenome.
Implicit Types (h : store) (self s : t).

Lemma alter_val_doubly_linked h a v :
  doubly_linked h → doubly_linked (alter (set_val v) a h).
Proof.
  intros Hd. apply (proj2 (doubly_linked_inverse _)). intros x y.
  pose proof (proj1 (doubly_linked_inverse h) Hd x y) as Hxy.
  assert (∀ i, prv (alter (set_val v) a h) i = prv h i) as Hp.
  { intros i. unfold prv. rewrite list_lookup_alter. case_decide as Hi; [|done].
    rewrite Hi. by destruct (h !! i). }
  unfold nxt at 1. by rewrite next_alter_val, Hp.
Qed.

Lemma mark_doubly_linked k h cur h' :
  mark k h cur = Ok h' → doubly_linked h → doubly_linked h'.
Proof.
  revert h cur. induction k as [|k IH]; intros h cur; simpl; [by intros [= <-]|].
  destruct (h !! cur) as [l|]; [|done]. intros Hm Hd.
  eapply IH; [exact Hm|]. by apply alter_val_doubly_linked.
Qed.

Lemma insert_after_times_doubly_linked k h c v h' :
  insert_after_times k h c v = Ok h' → doubly_linked h → doubly_linked h'.
Proof.
  revert h. induction k as [|k IH]; intros h; simpl; [by intros [= <-]|].
  intros Hm Hd. bind_inv Hm. eapply IH; [exact Hm|].
  by eapply insert_after_doubly_linked.
Qed.

Lemma insert_loop_doubly_linked f h hd cur count pos len h' :
  insert_loop f h hd cur count pos len = Ok h' → doubly_linked h → doubly_linked h'.
Proof.
  revert cur count. induction f as [|f IH]; intros cur count; simpl; [done|].
  repeat case_decide.
  - by intros [= <-].
  - intros Hm Hd. by eapply insert_after_times_doubly_linked.
  - intros Hm Hd. bind_inv Hm. by eapply IH.
Qed.

Lemma disable_loop_doubly_linked f h hd cur count pos len h' :
  disable_loop f h hd cur count pos len = Ok h' → doubly_linked h → doubly_linked h'.
Proof.
  revert cur count. induction f as [|f IH]; intros cur count; simpl; [done|].
  repeat case_decide.
  - by intros [= <-].
  - intros Hm Hd. by eapply mark_doubly_linked.
  - intros Hm Hd. bind_inv Hm. by eapply IH.
Qed.

Lemma disable_te_doubly_linked self te s :
  disable_te self te = Ok s → doubly_linked (links self) → doubly_linked (links s).
Proof.
  unfold disable_te. destruct (dict_get (TEs self) te) as [r|]; [|done].
  intros Hm Hd. bind_inv Hm. bind_inv Hm. injection Hm as <-. simpl.
  by eapply disable_loop_doubly_linked.
Qed.

Lemma insert_te_doubly_linked self pos len s i :
  insert_te self pos len = Ok (s, i) → doubly_linked (links self) → doubly_linked (links s).
Proof.
  unfold insert_te. intros Hm Hd. bind_inv Hm. bind_inv Hm. bind_inv Hm.
  injection Hm as <- _. simpl.
  eapply insert_loop_doubly_linked; [eassumption|].
  rewrite linked_scan_first in E.
  destruct (first_collision pos (TEs self)); [|by injection E as <-].
  by eapply disable_te_doubly_linked.
Qed.

Lemma copy_te_doubly_linked self te offset s i :
  copy_te self te offset = Ok (s, i) → doubly_linked (links self) → doubly_linked (links s).
Proof.
  unfold copy_te. destruct (dict_get (TEs self) te) as [r|]; [|done].
  destruct (is_active r); [|by intros [= <- _]].
  intros Hm Hd. bind_inv Hm. case_decide; [done|]. bind_inv Hm.
  destruct x0 as [s' i']. injection Hm as <- _.
  by eapply insert_te_doubly_linked.
Qed.

Lemma init_doubly_linked n g : __init__ n = Ok g → doubly_linked (links g).
Proof.
  unfold __init__. intros Hm. bind_inv Hm. injection Hm as <-. simpl.
  eapply insert_after_times_doubly_linked; [eassumption|].
  intros a lk Ha. destruct a as [|a]; [|done]. injection Ha as <-. simpl.
  split; by eexists.
Qed.

End doubly_methods.

(** X2: in every reachable linked genome the links are doubly linked: for
    every link [l], head included, [l.next.prev] is [l] and [l.prev.next]
    is [l].  [insert_after] keeps it so, and no method breaks it. *)
Theorem X2_links_stay_doubly_linked (g : LinkedListGenome.t) :
  linked_reachable g → doubly_linked (LinkedListGenome.links g).
Proof.
  induction 1 as [n g Hn Hg|g m pos len s i _ IH Hm Hpos Hlen Hs
                 |g te offset s i _ IH Hs|g te s _ IH Hs].
  - by eapply init_doubly_linked.
  - by eapply insert_te_doubly_linked.
  - by eapply copy_te_doubly_linked.
  - by eapply disable_te_doubly_linked.
Qed.

Lemma X2_links_stay_doubly_linked_witness :
  doubly_linked (LinkedListGenome.links demo_linked_two).
Proof.
  apply X2_links_stay_doubly_linked. exact demo_linked_two_reachable.
Defined.

(** ** The ids *)

Lemma list_call_step gl c s r :
  do_call gl c = Ok (s, r) →
  registry_step (ListGenome.TE_counter gl) (ListGenome.TEs gl)
    (ListGenome.TE_counter s) (ListGenome.TEs s).
Proof.
  destruct c as [pos len|te offset|te]; simpl.
  - destruct (list_insert_te_Ok gl pos len) as (_ & s' & _ & -> & _ & HC & HT).
    rewrite bind_Ok. intros [= <- _]. right; left. by exists pos, len.
  - unfold ListGenome.copy_te.
    destruct (dict_get (ListGenome.TEs gl) te) as [r0|]; [|done].
    destruct (is_active r0); [|intros [= <- _]; by left].
    case_decide; [done|].
    destruct (list_insert_te_Ok gl ((te_pos r0 + offset) `mod` ListGenome.__len__ gl)
                (te_length r0)) as (_ & s' & _ & -> & _ & HC & HT).
    rewrite bind_Ok. intros [= <- _]. right; left. by eexists _, _.
  - destruct (dict_get (ListGenome.TEs gl) te) as [r0|] eqn:Hr.
    + rewrite (list_disable_te_Ok _ _ _ Hr), bind_Ok. intros [= <- _].
      right; right. by exists te.
    + by rewrite list_disable_te_unknown.
Qed.

Lemma linked_call_step gk c s r :
  wf gk → do_call gk c = Ok (s, r) →
  registry_step (LinkedListGenome.TE_counter gk) (LinkedListGenome.TEs gk)
    (LinkedListGenome.TE_counter s) (LinkedListGenome.TEs s).
Proof.
  intros [cs Hcs]. destruct c as [pos len|te offset|te]; simpl.
  - destruct (linked_insert_te_Ok gk cs pos len Hcs)
      as (_ & _ & s' & _ & _ & _ & -> & _ & HC & HT).
    rewrite bind_Ok. intros [= <- _]. right; left. by exists pos, len.
  - unfold LinkedListGenome.copy_te.
    destruct (dict_get (LinkedListGenome.TEs gk) te) as [r0|]; [|done].
    destruct (is_active r0); [|intros [= <- _]; by left].
    rewrite (cells_len _ _ Hcs), bind_Ok. case_decide; [done|].
    destruct (linked_insert_te_Ok gk cs
                ((te_pos r0 + offset) `mod` Z.of_nat (length cs)) (te_length r0) Hcs)
      as (_ & _ & s' & _ & _ & _ & -> & _ & HC & HT).
    rewrite bind_Ok. intros [= <- _]. right; left. by eexists _, _.
  - destruct (dict_get (LinkedListGenome.TEs gk) te) as [r0|] eqn:Hr.
    + destruct (linked_disable_te_Ok gk cs te r0 Hcs Hr) as (s' & _ & -> & _ & _ & HT & HC & _).
      rewrite bind_Ok. intros [= <- _]. right; right. by exists te.
    + by rewrite linked_disable_te_unknown.
Qed.

(** A property of counter and registry that holds at construction and
    that every call keeps, holds of every reachable genome. *)
Lemma list_reachable_registry (P : Z → dict → Prop) :
  P 0 [] →
  (∀ c d c' d', registry_inv c d → P c d → registry_step c d c' d' → P c' d') →
  ∀ g, list_reachable g → P (ListGenome.TE_counter g) (ListGenome.TEs g).
Proof.
  intros H0 Hstep. induction 1 as [n Hn|g pos len s i Hg IH Hpos Hlen Hs
                                  |g te offset s i Hg IH Hs|g te s Hg IH Hs]; [done|..].
  - apply (Hstep _ _ _ _ (list_reachable_inv g Hg) IH).
    apply (list_call_step g (InsertTe pos len) s (Some i)). simpl. by rewrite Hs.
  - apply (Hstep _ _ _ _ (list_reachable_inv g Hg) IH).
    by apply (list_call_step g (CopyTe te offset) s i).
  - apply (Hstep _ _ _ _ (list_reachable_inv g Hg) IH).
    apply (list_call_step g (DisableTe te) s None). simpl. by rewrite Hs.
Qed.

Lemma linked_reachable_registry (P : Z → dict → Prop) :
  P 0 [] →
  (∀ c d c' d', registry_inv c d → P c d → registry_step c d c' d' → P c' d') →
  ∀ g, linked_reachable g →
       P (LinkedListGenome.TE_counter g) (LinkedListGenome.TEs g).
Proof.
  intros H0 Hstep. induction 1 as [n g Hn Hg|g m pos len s i Hg IH Hm Hpos Hlen Hs
                                  |g te offset s i Hg IH Hs|g te s Hg IH Hs].
  - destruct (linked_init_Ok n) as (g' & Hg' & _ & HT & HC).
    assert (g' = g) as <- by congruence. by rewrite HT, HC.
  - destruct (linked_reachable_inv g Hg) as [Hwf Hinv].
    apply (Hstep _ _ _ _ Hinv IH).
    apply (linked_call_step g (InsertTe pos len) s (Some i) Hwf). simpl. by rewrite Hs.
  - destruct (linked_reachable_inv g Hg) as [Hwf Hinv].
    apply (Hstep _ _ _ _ Hinv IH).
    by apply (linked_call_step g (CopyTe te offset) s i Hwf).
  - destruct (linked_reachable_inv g Hg) as [Hwf Hinv].
    apply (Hstep _ _ _ _ Hinv IH).
    apply (linked_call_step g (DisableTe te) s None Hwf). simpl. by rewrite Hs.
Qed.

Lemma keys_step c d c' d' :
  registry_inv c d → registry_step c d c' d' → keys d = seqZ 1 c → keys d' = seqZ 1 c'.
Proof.
  intros Hinv [[-> ->]|[(pos & len & -> & ->)|(te & -> & ->)]] Hk; [done| |].
  - rewrite keys_insert_tes.
    + rewrite Hk. rewrite seqZ_app by (by destruct Hinv || done).
      f_equal. rewrite seqZ_cons, seqZ_nil by done. f_equal. lia.
    + intros Hin. apply (inv_ids _ _ Hinv) in Hin. lia.
  - by rewrite keys_alter.
Qed.

(** X3: the ids are given out in sequence from 1 and none is ever dropped
    or reused: in every reachable genome, of either structure, the ids of
    the registry are exactly [1, 2, ..., TE_counter], in this order. *)
Theorem X3_ids_are_sequential (gl : ListGenome.t) (gk : LinkedListGenome.t) :
  list_reachable gl → linked_reachable gk →
  keys (ListGenome.TEs gl) = seqZ 1 (ListGenome.TE_counter gl) ∧
  keys (LinkedListGenome.TEs gk) = seqZ 1 (LinkedListGenome.TE_counter gk).
Proof.
  intros Hl Hk. split.
  - apply (list_reachable_registry (λ c d, keys d = seqZ 1 c)); [done| |done].
    intros c d c' d' Hinv Hd Hs. by eapply keys_step.
  - apply (linked_reachable_registry (λ c d, keys d = seqZ 1 c)); [done| |done].
    intros c d c' d' Hinv Hd Hs. by eapply keys_step.
Qed.

Lemma X3_ids_are_sequential_witness :
  keys (ListGenome.TEs demo_list_two) = seqZ 1 2 ∧
  keys (LinkedListGenome.TEs demo_linked_two) = seqZ 1 2.
Proof.
  exact (X3_ids_are_sequential demo_list_two demo_linked_two
           demo_list_two_reachable demo_linked_two_reachable).
Defined.

Lemma sublist_StronglySorted {X} (R : relation X) (l1 l2 : list X) :
  sublist l1 l2 → StronglySorted R l2 → StronglySorted R l1.
Proof.
  induction 1 as [|x l1 l2 Hsub IH|x l1 l2 Hsub IH]; [done|..].
  - intros [Hx Hl]%StronglySorted_cons. apply StronglySorted_cons. split; [|auto].
    apply Forall_forall. intros y Hy. apply (proj1 (Forall_forall _ _) Hx).
    by eapply elem_of_sublist.
  - intros [_ Hl]%StronglySorted_cons. auto.
Qed.

Lemma keys_sorted_step c d c' d' :
  registry_inv c d → registry_step c d c' d' →
  StronglySorted Z.lt (keys d) → StronglySorted Z.lt (keys d').
Proof.
  intros Hinv [[-> ->]|[(pos & len & -> & ->)|(te & -> & ->)]] Hk; [done| |].
  - assert (c + 1 ∉ keys d) as Hfresh by (intros ?%(inv_ids _ _ Hinv); lia).
    rewrite keys_insert_tes by done.
    apply StronglySorted_app_2; [|done|repeat constructor].
    intros x y ?%(inv_ids _ _ Hinv) ->%list_elem_of_singleton. lia.
  - by rewrite keys_alter.
Qed.

Lemma active_ids_sublist d : sublist (active_ids d) (keys d).
Proof. unfold active_ids, keys. apply fmap_sublist, sublist_filter. Qed.

(** X4: [active_tes()] lists the active ids in increasing order, each
    once, and all of them between 1 and [TE_counter]; in every reachable
    genome of either structure. *)
Theorem X4_active_tes_increasing (gl : ListGenome.t) (gk : LinkedListGenome.t) :
  list_reachable gl → linked_reachable gk →
  (StronglySorted Z.lt (ListGenome.active_tes gl) ∧
   ∀ k, k ∈ ListGenome.active_tes gl → 1 ≤ k ≤ ListGenome.TE_counter gl) ∧
  (StronglySorted Z.lt (LinkedListGenome.active_tes gk) ∧
   ∀ k, k ∈ LinkedListGenome.active_tes gk → 1 ≤ k ≤ LinkedListGenome.TE_counter gk).
Proof.
  intros Hl Hk.
  pose proof (list_reachable_inv gl Hl) as Il.
  destruct (linked_reachable_inv gk Hk) as [_ Ik].
  split; split.
  - apply (sublist_StronglySorted _ _ _ (active_ids_sublist _)).
    apply (list_reachable_registry (λ c d, StronglySorted Z.lt (keys d)));
      [constructor| |done].
    intros c d c' d' Hinv Hd Hs. by eapply keys_sorted_step.
  - intros k Hin. apply (inv_ids _ _ Il).
    by eapply elem_of_sublist; [|apply active_ids_sublist].
  - apply (sublist_StronglySorted _ _ _ (active_ids_sublist _)).
    apply (linked_reachable_registry (λ c d, StronglySorted Z.lt (keys d)));
      [constructor| |done].
    intros c d c' d' Hinv Hd Hs. by eapply keys_sorted_step.
  - intros k Hin. apply (inv_ids _ _ Ik).
    by eapply elem_of_sublist; [|apply active_ids_sublist].
Qed.

Lemma X4_active_tes_increasing_witness :
  StronglySorted Z.lt (ListGenome.active_tes demo_list_two) ∧
  StronglySorted Z.lt (LinkedListGenome.active_tes demo_linked_two).
Proof.
  destruct (X4_active_tes_increasing demo_list_two demo_linked_two
              demo_list_two_reachable demo_linked_two_reachable) as [[Hl _] [Hk _]].
  split; [exact Hl | exact Hk].
Defined.

(** ** The active ids along the calls *)

Section active.
Implicit Types (d : dict) (k te : Z) (r : TE).

Lemma active_ids_cons k r d :
  active_ids ((k, r) :: d) = if is_active r then k :: active_ids d else active_ids d.
Proof.
  unfold active_ids, dict. rewrite filter_cons. simpl.
  destruct (is_active r); by case_decide.
Qed.

Lemma active_ids_app d1 d2 : active_ids (d1 ++ d2) = active_ids d1 ++ active_ids d2.
Proof. unfold active_ids, dict. by rewrite filter_app, fmap_app. Qed.

Lemma active_ids_shift pos len d : active_ids (shift_tes pos len d) = active_ids d.
Proof.
  induction d as [|[k r] d IH]; [done|].
  change (shift_tes pos len ((k, r) :: d))
    with ((k, shift_te pos len r) :: shift_tes pos len d).
  rewrite !active_ids_cons, IH. unfold is_active. by rewrite shift_te_status.
Qed.

Lemma filter_all {X} (P : X → Prop) `{∀ x, Decision (P x)} (l : list X) :
  (∀ x, x ∈ l → P x) → filter P l = l.
Proof.
  induction l as [|x l IH]; [done|]. intros Hl.
  rewrite filter_cons_True by (apply Hl; left). f_equal. apply IH.
  intros y ?. apply Hl. by right.
Qed.

Lemma active_ids_disable te d :
  NoDup (keys d) →
  active_ids (dict_alter (set_status Disabled) te d) = filter (λ k, k ≠ te) (active_ids d).
Proof.
  induction d as [|[k r] d IH]; [done|]. simpl.
  intros [Hk Hnd]%NoDup_cons. case_decide as E.
  - subst k. rewrite !active_ids_cons.
    assert (is_active (set_status Disabled r) = false) as -> by done.
    assert (filter (λ k, k ≠ te) (active_ids d) = active_ids d) as Hid.
    { apply filter_all. intros x Hx ->. apply Hk.
      by eapply elem_of_sublist; [|apply active_ids_sublist]. }
    destruct (is_active r); [|done].
    rewrite filter_cons_False by (by intros ?). done.
  - rewrite !active_ids_cons. destruct (is_active r); [|auto].
    rewrite filter_cons_True by done. f_equal. auto.
Qed.

Lemma active_ids_insert_tes c pos len d :
  NoDup (keys d) → c + 1 ∉ keys d →
  active_ids (insert_tes c pos len d)
  = filter (λ k, first_collision pos d ≠ Some k) (active_ids d) ++ [c + 1].
Proof.
  intros Hnd Hc. unfold insert_tes.
  rewrite dict_set_fresh by (by rewrite keys_shift, keys_scan).
  rewrite active_ids_app, active_ids_shift. f_equal. unfold scan_tes.
  destruct (first_collision pos d) as [te|].
  - rewrite active_ids_disable by done. apply list_filter_iff. intros k.
    split; [intros ? [= ->]; done | intros Hk ->; by apply Hk].
  - symmetry. by apply filter_all.
Qed.

End active.

(** X5: after [insert_te(pos, length)], [active_tes()] is what it was,
    without the id the scan disabled if it disabled one, followed by the
    new id.  In both structures, on a registry whose ids are distinct and
    that does not hold the next id yet. *)
Theorem X5_active_tes_after_insert
  (gl : ListGenome.t) (gk : LinkedListGenome.t) (pos len : Z) :
  NoDup (keys (ListGenome.TEs gl)) →
  ListGenome.TE_counter gl + 1 ∉ keys (ListGenome.TEs gl) →
  NoDup (keys (LinkedListGenome.TEs gk)) →
  LinkedListGenome.TE_counter gk + 1 ∉ keys (LinkedListGenome.TEs gk) →
  wf gk →
  (∃ s i, ListGenome.insert_te gl pos len = Ok (s, i) ∧
     ListGenome.active_tes s
     = filter (λ k, first_collision pos (ListGenome.TEs gl) ≠ Some k)
         (ListGenome.active_tes gl) ++ [i]) ∧
  (∃ s i, LinkedListGenome.insert_te gk pos len = Ok (s, i) ∧
     LinkedListGenome.active_tes s
     = filter (λ k, first_collision pos (LinkedListGenome.TEs gk) ≠ Some k)
         (LinkedListGenome.active_tes gk) ++ [i]).
Proof.
  intros Hnd1 Hc1 Hnd2 Hc2 [cs Hcs]. split.
  - destruct (list_insert_te_Ok gl pos len) as (_ & s & _ & Hs & _ & _ & HT).
    exists s, (ListGenome.TE_counter gl + 1). split; [done|].
    unfold ListGenome.active_tes. rewrite HT. by apply active_ids_insert_tes.
  - destruct (linked_insert_te_Ok gk cs pos len Hcs)
      as (_ & _ & s & _ & _ & _ & Hs & _ & _ & HT).
    exists s, (LinkedListGenome.TE_counter gk + 1). split; [done|].
    unfold LinkedListGenome.active_tes. rewrite HT. by apply active_ids_insert_tes.
Qed.

Lemma X5_active_tes_after_insert_witness :
  (∃ s i, ListGenome.insert_te demo_list_two 5 2 = Ok (s, i) ∧
     ListGenome.active_tes s
     = filter (λ k, first_collision 5 (ListGenome.TEs demo_list_two) ≠ Some k)
         (ListGenome.active_tes demo_list_two) ++ [i]) ∧
  (∃ s i, LinkedListGenome.insert_te demo_linked_two 5 2 = Ok (s, i) ∧
     LinkedListGenome.active_tes s
     = filter (λ k, first_collision 5 (LinkedListGenome.TEs demo_linked_two) ≠ Some k)
         (LinkedListGenome.active_tes demo_linked_two) ++ [i]).
Proof.
  apply X5_active_tes_after_insert.
  - apply (bool_decide_unpack _). vm_compute. exact I.
  - apply (bool_decide_unpack _). vm_compute. exact I.
  - apply (bool_decide_unpack _). vm_compute. exact I.
  - apply (bool_decide_unpack _). vm_compute. exact I.
  - exact (proj1 (linked_reachable_inv _ demo_linked_two_reachable)).
Defined.

(** ** What no call does to the registry *)

Lemma registry_step_keeps c d c' d' te r :
  c + 1 ∉ keys d → registry_step c d c' d' → dict_get d te = Some r →
  c ≤ c' ∧
  ∃ r', dict_get d' te = Some r' ∧ te_length r' = te_length r ∧
        (te_status r = Disabled → te_status r' = Disabled).
Proof.
  intros Hc [[-> ->]|[(pos & len & -> & ->)|(t0 & -> & ->)]] Hr.
  - split; [lia|]. by exists r.
  - split; [lia|]. eexists. split; [by apply insert_tes_get_before|].
    rewrite shift_te_length, shift_te_status. case_decide; by split.
  - split; [lia|]. rewrite dict_get_alter, Hr. case_decide; eexists; by split_and!.
Qed.

(** X6: no call ever takes a record out of the registry, changes the
    length of a record, makes a disabled TE active again or lowers the
    counter; whatever the call and its arguments, in both structures, on
    a registry that does not hold the next id yet. *)
Theorem X6_calls_never_forget_or_reactivate
  (gl sl : ListGenome.t) (gk sk : LinkedListGenome.t) (c : call) (rl rk : option Z) :
  ListGenome.TE_counter gl + 1 ∉ keys (ListGenome.TEs gl) →
  LinkedListGenome.TE_counter gk + 1 ∉ keys (LinkedListGenome.TEs gk) →
  wf gk →
  do_call gl c = Ok (sl, rl) → do_call gk c = Ok (sk, rk) →
  (ListGenome.TE_counter gl ≤ ListGenome.TE_counter sl ∧
   ∀ te r, dict_get (ListGenome.TEs gl) te = Some r →
     ∃ r', dict_get (ListGenome.TEs sl) te = Some r' ∧ te_length r' = te_length r ∧
           (te_status r = Disabled → te_status r' = Disabled)) ∧
  (LinkedListGenome.TE_counter gk ≤ LinkedListGenome.TE_counter sk ∧
   ∀ te r, dict_get (LinkedListGenome.TEs gk) te = Some r →
     ∃ r', dict_get (LinkedListGenome.TEs sk) te = Some r' ∧ te_length r' = te_length r ∧
           (te_status r = Disabled → te_status r' = Disabled)).
Proof.
  intros Hc1 Hc2 Hwf Hl Hk.
  pose proof (list_call_step gl c sl rl Hl) as Sl.
  pose proof (linked_call_step gk c sk rk Hwf Hk) as Sk.
  split; split.
  - destruct Sl as [[-> _]|[(? & ? & -> & _)|(? & -> & _)]]; lia.
  - intros te r Hr. by destruct (registry_step_keeps _ _ _ _ te r Hc1 Sl Hr).
  - destruct Sk as [[-> _]|[(? & ? & -> & _)|(? & -> & _)]]; lia.
  - intros te r Hr. by destruct (registry_step_keeps _ _ _ _ te r Hc2 Sk Hr).
Qed.

Lemma X6_calls_never_forget_or_reactivate_witness :
  (∀ te r, dict_get (ListGenome.TEs demo_list_disabled) te = Some r →
     ∃ r', dict_get (ListGenome.TEs demo_list_copied) te = Some r' ∧
           te_length r' = te_length r ∧
           (te_status r = Disabled → te_status r' = Disabled)) ∧
  (∀ te r, dict_get (LinkedListGenome.TEs demo_linked_disabled) te = Some r →
     ∃ r', dict_get (LinkedListGenome.TEs demo_linked_copied) te = Some r' ∧
           te_length r' = te_length r ∧
           (te_status r = Disabled → te_status r' = Disabled)).
Proof.
  destruct (X6_calls_never_forget_or_reactivate
              demo_list_disabled demo_list_copied demo_linked_disabled demo_linked_copied
              (CopyTe 2 3) (Some 3) (Some 3)) as [[_ Hl] [_ Hk]].
  - apply (bool_decide_unpack _). vm_compute. exact I.
  - apply (bool_decide_unpack _). vm_compute. exact I.
  - exact demo_linked_disabled_wf.
  - vm_compute. reflexivity.
  - vm_compute. reflexivity.
  - split; [exact Hl | exact Hk].
Defined.

(** ** Disabling, then copying *)



(** ** The rendering *)

Lemma Forall_slice_assign {X} (P : X → Prop) (a b : list X) i j :
  Forall P a → Forall P b → Forall P (slice_assign a i j b).
Proof.
  intros Ha Hb. unfold slice_assign.
  apply Forall_app. split; [by apply Forall_take|].
  apply Forall_app. split; [done | by apply Forall_drop].
Qed.

Lemma Forall_splice {X} (P : X → Prop) (a b : list X) i :
  Forall P a → Forall P b → Forall P (slice_to a i ++ b ++ slice_from a i).
Proof.
  intros Ha Hb. unfold slice_to, slice_from.
  apply Forall_app. split; [by apply Forall_take|].
  apply Forall_app. split; [done | by apply Forall_drop].
Qed.

Lemma cell_char_times c n : cell_char c → Forall cell_char (times c n).
Proof. intros. by apply Forall_replicate. Qed.

Lemma list_disable_te_alphabet gl te s :
  Forall cell_char (ListGenome.genome gl) → ListGenome.disable_te gl te = Ok s →
  Forall cell_char (ListGenome.genome s).
Proof.
  intros Hg. destruct (dict_get (ListGenome.TEs gl) te) as [r|] eqn:Hr;
    [|by rewrite list_disable_te_unknown].
  rewrite (list_disable_te_Ok _ _ _ Hr). intros [= <-]. simpl.
  apply Forall_slice_assign; [done|]. apply cell_char_times. right; by right.
Qed.

Lemma list_insert_te_alphabet gl pos len s i :
  Forall cell_char (ListGenome.genome gl) → ListGenome.insert_te gl pos len = Ok (s, i) →
  Forall cell_char (ListGenome.genome s).
Proof.
  intros Hg Hs.
  destruct (list_insert_te_Ok gl pos len) as (s0 & s' & Hs0 & Hs' & HG & _).
  rewrite Hs' in Hs. injection Hs as <- _. rewrite HG.
  apply Forall_splice; [|apply cell_char_times; right; by left].
  rewrite list_scan_first in Hs0.
  destruct (first_collision pos (ListGenome.TEs gl)); [|by injection Hs0 as <-].
  by eapply list_disable_te_alphabet.
Qed.

Lemma list_reachable_alphabet g :
  list_reachable g → Forall cell_char (ListGenome.genome g).
Proof.
  induction 1 as [n Hn|g pos len s i _ IH Hpos Hlen Hs|g te offset s i _ IH Hs
                 |g te s _ IH Hs].
  - apply cell_char_times. by left.
  - by eapply list_insert_te_alphabet.
  - unfold ListGenome.copy_te in Hs.
    destruct (dict_get (ListGenome.TEs g) te) as [r|]; [|done].
    destruct (is_active r); [|by injection Hs as <- _].
    case_decide; [done|]. bind_inv Hs. destruct x as [s' i'].
    injection Hs as <- _. by eapply list_insert_te_alphabet.
  - by eapply list_disable_te_alphabet.
Qed.

Lemma vals_mark_all_Forall (P : ascii → Prop) l h order cs :
  P "x"%char → (∀ a, a ∈ order → (a < length h)%nat) →
  vals h order = Some <$> cs → Forall P cs →
  ∃ cs', vals (mark_all l h) order = Some <$> cs' ∧ Forall P cs'.
Proof.
  intros Px. revert cs. induction order as [|a order IH]; intros cs Hb Hv HP.
  - destruct cs; [|done]. by exists [].
  - destruct cs as [|c cs]; [done|]. injection Hv as Hc Hv.
    apply Forall_cons in HP as [Pc HP].
    destruct (IH cs) as (cs' & Hcs' & HP'); [intros; apply Hb; by right|done|done|].
    destruct (decide (a ∈ l)).
    + exists ("x"%char :: cs'). split; [|by constructor].
      unfold vals in *. rewrite !fmap_cons, Hcs'.
      rewrite val_mark_all_in; [done..|]. apply Hb. left.
    + exists (c :: cs'). split; [|by constructor].
      unfold vals in *. rewrite !fmap_cons, Hcs'.
      rewrite val_mark_all_notin by done. by rewrite Hc.
Qed.

Lemma linked_disable_te_alphabet gk cs te s :
  cells gk cs → Forall cell_char cs → LinkedListGenome.disable_te gk te = Ok s →
  ∃ cs', cells s cs' ∧ Forall cell_char cs'.
Proof.
  intros Hcs HP Hs. pose proof Hcs as (order & Hring & Hv).
  destruct (ring_first _ _ _ Hring) as (c & Hc & Hseg & Hhd).
  unfold LinkedListGenome.disable_te in Hs.
  destruct (dict_get (LinkedListGenome.TEs gk) te) as [r|]; [|done].
  rewrite Hc, bind_Ok in Hs.
  rewrite (disable_loop_lseg _ _ _ _ order) in Hs by (done || by eapply ring_fuel).
  assert (∃ l, (if decide (0 ≤ te_pos r) then
                  match order !! Z.to_nat (te_pos r - 0) with
                  | Some a => LinkedListGenome.mark (Z.to_nat (te_length r))
                                (LinkedListGenome.links gk) a
                  | None => Ok (LinkedListGenome.links gk)
                  end
                else Ok (LinkedListGenome.links gk))
               = Ok (mark_all l (LinkedListGenome.links gk))) as (l & Hl).
  { case_decide; [|by exists []].
    destruct (order !! Z.to_nat (te_pos r - 0)) as [a|] eqn:Ha; [|by exists []].
    destruct (mark_ring (Z.to_nat (te_length r)) _ _ _ a Hring) as (l & ? & _);
      [right; by eapply list_elem_of_lookup_2|].
    by exists l. }
  rewrite Hl, bind_Ok in Hs. injection Hs as <-.
  destruct (vals_mark_all_Forall cell_char l (LinkedListGenome.links gk) order cs)
    as (cs' & Hv' & HP'); [right; by right| |done|done|].
  { intros a. apply (lseg_bound _ _ _ _ _ Hseg). }
  exists cs'. split; [|done]. exists order. split; [by apply ring_mark_all|done].
Qed.

Lemma linked_insert_te_alphabet gk cs pos len s i :
  cells gk cs → Forall cell_char cs → LinkedListGenome.insert_te gk pos len = Ok (s, i) →
  ∃ cs', cells s cs' ∧ Forall cell_char cs'.
Proof.
  intros Hcs HP Hs.
  destruct (linked_insert_te_Ok gk cs pos len Hcs)
    as (s0 & cs1 & s' & Hs0 & Hcs1 & _ & Hs' & Hcells & _).
  rewrite Hs' in Hs. injection Hs as <- _.
  assert (Forall cell_char cs1) as HP1.
  { rewrite linked_scan_first in Hs0.
    destruct (first_collision pos (LinkedListGenome.TEs gk)).
    - destruct (linked_disable_te_alphabet gk cs _ s0 Hcs HP Hs0) as (cs' & Hcs' & HP').
      by rewrite (cells_unique _ _ _ Hcs1 Hcs').
    - injection Hs0 as <-. by rewrite (cells_unique _ _ _ Hcs1 Hcs). }
  exists (ring_insert cs1 pos len). split; [done|].
  unfold ring_insert. case_decide; [|done].
  apply Forall_app. split; [by apply Forall_take|].
  apply Forall_app. split; [apply cell_char_times; right; by left | by apply Forall_drop].
Qed.

Lemma linked_reachable_alphabet g :
  linked_reachable g → ∃ cs, cells g cs ∧ Forall cell_char cs.
Proof.
  induction 1 as [n g Hn Hg|g m pos len s i _ (cs & Hcs & HP) Hm Hpos Hlen Hs
                 |g te offset s i _ (cs & Hcs & HP) Hs|g te s _ (cs & Hcs & HP) Hs].
  - exists (times "-"%char n). split; [by apply linked_init_cells|].
    apply cell_char_times. by left.
  - by eapply linked_insert_te_alphabet.
  - unfold LinkedListGenome.copy_te in Hs.
    destruct (dict_get (LinkedListGenome.TEs g) te) as [r|]; [|done].
    destruct (is_active r); [|injection Hs as <- _; by exists cs].
    bind_inv Hs. case_decide; [done|]. bind_inv Hs. destruct x0 as [s' i'].
    injection Hs as <- _. by eapply linked_insert_te_alphabet.
  - by eapply linked_disable_te_alphabet.
Qed.

Lemma length_string_of_list (cs : list ascii) :
  String.length (string_of_list_ascii cs) = length cs.
Proof. induction cs as [|c cs IH]; [done|]. simpl. by rewrite IH. Qed.

(** X8: in every reachable genome, of either structure, the rendering has
    exactly as many characters as [len] says, and each of them is ['-'],
    ['A'] or ['x']. *)
Theorem X8_rendering_length_and_alphabet
  (gl : ListGenome.t) (gk : LinkedListGenome.t) :
  list_reachable gl → linked_reachable gk →
  (Z.of_nat (String.length (ListGenome.__str__ gl)) = ListGenome.__len__ gl ∧
   Forall cell_char (list_ascii_of_string (ListGenome.__str__ gl))) ∧
  (∃ str, LinkedListGenome.__str__ gk = Ok str ∧
          LinkedListGenome.__len__ gk = Ok (Z.of_nat (String.length str)) ∧
          Forall cell_char (list_ascii_of_string str)).
Proof.
  intros Hl Hk. split.
  - unfold ListGenome.__str__, ListGenome.__len__.
    rewrite length_string_of_list, list_ascii_of_string_of_list_ascii.
    split; [done | by apply list_reachable_alphabet].
  - destruct (linked_reachable_alphabet gk Hk) as (cs & Hcs & HP).
    exists (string_of_list_ascii cs).
    rewrite (cells_str _ _ Hcs), (cells_len _ _ Hcs).
    by rewrite length_string_of_list, list_ascii_of_string_of_list_ascii.
Qed.

Lemma X8_rendering_length_and_alphabet_witness :
  Z.of_nat (String.length (ListGenome.__str__ demo_list_two))
  = ListGenome.__len__ demo_list_two ∧
  ∃ str, LinkedListGenome.__str__ demo_linked_two = Ok str ∧
         LinkedListGenome.__len__ demo_linked_two = Ok (Z.of_nat (String.length str)).
Proof.
  destruct (X8_rendering_length_and_alphabet demo_list_two demo_linked_two
              demo_list_two_reachable demo_linked_two_reachable)
    as [[Hl _] (str & Hs & Hn & _)].
  split; [exact Hl|]. exists str. split; [exact Hs | exact Hn].
Defined.

(** ** The cells of the active TEs *)

Section painting.
Implicit Types (cs : list ascii) (d : dict).

Lemma lookup_splice {X} (a b : list X) (lo i : nat) :
  (lo ≤ length a)%nat →
  (take lo a ++ b ++ drop lo a) !! i
  = if decide (i < lo)%nat then a !! i
    else if decide (i < lo + length b)%nat then b !! (i - lo)%nat
         else a !! (i - length b)%nat.
Proof.
  intros Hlo. case_decide.
  - rewrite lookup_app_l by (rewrite length_take; lia). by apply lookup_take_lt.
  - rewrite lookup_app_r by (rewrite length_take; lia).
    rewrite length_take, Nat.min_l by lia. case_decide.
    + by rewrite lookup_app_l by lia.
    + rewrite lookup_app_r by lia. rewrite lookup_drop. f_equal. lia.
Qed.

Lemma lookup_overwrite {X} (a : list X) (lo n i : nat) (c : X) :
  (lo + n ≤ length a)%nat →
  (take lo a ++ replicate n c ++ drop (lo + n) a) !! i
  = if decide (lo ≤ i < lo + n)%nat then Some c else a !! i.
Proof.
  intros Hlo. case_decide.
  - apply lookup_overwritten; lia.
  - destruct (decide (i < lo)%nat).
    + rewrite lookup_app_l by (rewrite length_take; lia). by apply lookup_take_lt.
    + rewrite lookup_app_r by (rewrite length_take; lia).
      rewrite length_take, Nat.min_l by lia.
      rewrite lookup_app_r by (rewrite length_replicate; lia).
      rewrite length_replicate, lookup_drop. f_equal. lia.
Qed.

(** Disabling an active TE leaves the other active TEs their cells. *)
Lemma painted_disable cs d te r :
  disjoint_active d → dict_get d te = Some r → te_status r = Active →
  in_range r (Z.of_nat (length cs)) → painted cs d →
  painted (take (Z.to_nat (te_pos r)) cs ++ replicate (Z.to_nat (te_length r)) "x"%char
             ++ drop (Z.to_nat (te_pos r) + Z.to_nat (te_length r)) cs)
          (dict_alter (set_status Disabled) te d).
Proof.
  intros Hdis Hr Ha (Hp & Hl & Hle) Hpaint i.
  rewrite lookup_overwrite by lia. split.
  - case_decide; [discriminate|]. intros (k & r0 & Hr0 & Ha0 & Hi)%Hpaint.
    exists k, r0. split_and!; [|done|lia..].
    rewrite dict_get_alter, decide_False; [done|].
    intros ->. assert (r0 = r) as -> by congruence. lia.
  - intros (k & r0 & Hr0 & Ha0 & Hi).
    rewrite dict_get_alter in Hr0. case_decide as Hk.
    + subst k. rewrite Hr in Hr0. by injection Hr0 as <-.
    + destruct (Hdis k te r0 r (not_eq_sym Hk) Hr0 Hr Ha0 Ha) as [|];
        (rewrite decide_False by lia; apply Hpaint; by exists k, r0).
Qed.

(** An insertion at a position that no active record has strictly inside
    moves the cells of the active TEs with their records. *)
Lemma painted_insert cs d (c pos len : Z) :
  dict_get d (c + 1) = None →
  (∀ k r, dict_get d k = Some r → collides pos r = false) →
  0 ≤ pos ≤ Z.of_nat (length cs) → 0 ≤ len → painted cs d →
  painted (take (Z.to_nat pos) cs ++ times "A"%char len ++ drop (Z.to_nat pos) cs)
          (dict_set (c + 1) (mkTE pos len Active) (shift_tes pos len d)).
Proof.
  intros Hfresh Hclear Hpos Hlen Hpaint i.
  rewrite lookup_splice by lia. unfold times. rewrite length_replicate. split.
  - case_decide as H1; [|case_decide as H2].
    + intros (k & r & Hr & Ha & Hi)%Hpaint.
      exists k, (shift_te pos len r). rewrite dict_get_set, decide_False by congruence.
      rewrite dict_get_shift, Hr, shift_te_status, shift_te_pos, shift_te_length.
      split; [done|]. split; [done|].
      destruct (not_collides pos r (Hclear _ _ Hr) Ha); case_bool_decide; lia.
    + intros _. exists (c + 1), (mkTE pos len Active).
      rewrite dict_get_set, decide_True by done. simpl. split_and!; done || lia.
    + intros (k & r & Hr & Ha & Hi)%Hpaint.
      exists k, (shift_te pos len r). rewrite dict_get_set, decide_False by congruence.
      rewrite dict_get_shift, Hr, shift_te_status, shift_te_pos, shift_te_length.
      split; [done|]. split; [done|].
      destruct (not_collides pos r (Hclear _ _ Hr) Ha); case_bool_decide; lia.
  - intros (k & r' & Hr' & Ha' & Hi). rewrite dict_get_set in Hr'.
    case_decide as Hk.
    + injection Hr' as <-. simpl in Hi.
      rewrite decide_False, decide_True by lia. apply lookup_replicate_2. lia.
    + rewrite dict_get_shift in Hr'.
      destruct (dict_get d k) as [r|] eqn:Hr; [|done]. injection Hr' as <-.
      rewrite shift_te_status in Ha'. rewrite shift_te_pos, shift_te_length in Hi.
      destruct (not_collides pos r (Hclear _ _ Hr) Ha'); case_bool_decide; try lia.
      * rewrite !decide_False by lia. apply Hpaint. exists k, r. split_and!; done || lia.
      * rewrite decide_True by lia. apply Hpaint. exists k, r. split_and!; done || lia.
Qed.

End painting.

Lemma list_careful_reachable g : list_careful g → list_reachable g.
Proof.
  induction 1 as [n Hn|g pos len s i _ IH Hpos Hlen Hs|g te offset s i _ IH Hs
                 |g te r s _ IH Hr Ha Hs].
  - by apply lr_init.
  - by eapply lr_insert.
  - by eapply lr_copy.
  - by eapply lr_disable.
Qed.

Lemma list_disable_te_painted g te r s :
  disjoint_active (ListGenome.TEs g) → all_in_range g →
  painted (ListGenome.genome g) (ListGenome.TEs g) →
  dict_get (ListGenome.TEs g) te = Some r → te_status r = Active →
  ListGenome.disable_te g te = Ok s →
  painted (ListGenome.genome s) (ListGenome.TEs s).
Proof.
  intros Hdis Hin Hpaint Hr Ha Hs.
  destruct (list_disable_te_in_range g te r Hr (Hin _ _ Hr)) as (s' & Hs' & HG & HT & _).
  rewrite Hs' in Hs. injection Hs as <-. rewrite HG, HT.
  apply painted_disable; [done..| |done]. exact (Hin _ _ Hr).
Qed.

Lemma list_insert_te_painted g pos len s i :
  registry_inv (ListGenome.TE_counter g) (ListGenome.TEs g) → all_in_range g →
  painted (ListGenome.genome g) (ListGenome.TEs g) →
  0 ≤ pos ≤ ListGenome.__len__ g → 0 ≤ len →
  ListGenome.insert_te g pos len = Ok (s, i) →
  painted (ListGenome.genome s) (ListGenome.TEs s).
Proof.
  intros Hinv Hin Hpaint Hpos Hlen Hs.
  destruct (list_insert_te_Ok g pos len) as (s0 & s' & Hs0 & Hs' & HG & _ & HT).
  rewrite Hs' in Hs. injection Hs as <- _.
  assert (painted (ListGenome.genome s0) (scan_tes pos (ListGenome.TEs g)) ∧
          length (ListGenome.genome s0) = length (ListGenome.genome g)) as [Hpaint0 Hlen0].
  { rewrite list_scan_first in Hs0. unfold scan_tes.
    destruct (first_collision pos (ListGenome.TEs g)) as [te|] eqn:E;
      [|by injection Hs0 as <-].
    destruct (first_collision_Some _ _ _ E) as (d1 & r & d2 & Hd & Hc & _).
    assert (dict_get (ListGenome.TEs g) te = Some r) as Hr.
    { apply dict_elem_get; [apply (inv_nodup _ _ Hinv)|].
      rewrite Hd. apply elem_of_app; right; left. }
    apply collides_spec in Hc as (Ha & _).
    destruct (list_disable_te_in_range g te r Hr (Hin _ _ Hr))
      as (s1 & Hs1 & _ & HT1 & _ & Hlen1 & _).
    assert (s1 = s0) as -> by congruence. split.
    - rewrite <- HT1.
      by apply (list_disable_te_painted g te r s0 (inv_disjoint _ _ Hinv)).
    - unfold ListGenome.__len__ in Hlen1. lia. }
  unfold ListGenome.__len__ in Hpos.
  rewrite HG, HT. unfold insert_tes, slice_to, slice_from.
  rewrite slice_bound_in_range by lia.
  apply painted_insert; [| |lia|done|done].
  - apply dict_get_None. rewrite keys_scan. intros Hk.
    apply (inv_ids _ _ Hinv) in Hk. lia.
  - intros k r. apply scan_tes_clear; [apply (inv_nodup _ _ Hinv) | apply (inv_disjoint _ _ Hinv)].
Qed.

Lemma list_careful_painted g :
  list_careful g → painted (ListGenome.genome g) (ListGenome.TEs g).
Proof.
  induction 1 as [n Hn|g pos len s i Hg IH Hpos Hlen Hs|g te offset s i Hg IH Hs
                 |g te r s Hg IH Hr Ha Hs].
  - intros i. split.
    + simpl. unfold times. by intros [[=] _]%lookup_replicate.
    + by intros (k & r & ? & _).
  - apply list_careful_reachable in Hg.
    eapply list_insert_te_painted; [by apply list_reachable_inv
      |exact (list_reachable_in_range g Hg)|done|done| |done]. lia.
  - apply list_careful_reachable in Hg.
    pose proof (list_reachable_in_range g Hg) as Hin.
    unfold ListGenome.copy_te in Hs.
    destruct (dict_get (ListGenome.TEs g) te) as [r|] eqn:Hr; [|done].
    destruct (is_active r); [|by injection Hs as <- _].
    case_decide as Hn; [done|]. bind_inv Hs. destruct x as [s' i'].
    injection Hs as <- _.
    destruct (Hin _ _ Hr) as (? & ? & ?).
    pose proof (Z.mod_pos_bound (te_pos r + offset) (ListGenome.__len__ g)).
    assert (0 < ListGenome.__len__ g) by (unfold ListGenome.__len__ in *; lia).
    eapply list_insert_te_painted; [by apply list_reachable_inv|exact Hin|done| | |done]; lia.
  - apply list_careful_reachable in Hg.
    eapply list_disable_te_painted; [|exact (list_reachable_in_range g Hg)|done..].
    apply (inv_disjoint _ _ (list_reachable_inv g Hg)).
Qed.

(** A careful caller of the linked genome gets what the same calls give
    on the list-backed genome. *)
Lemma linked_careful_same gk :
  linked_careful gk → ∃ gl, list_careful gl ∧ same_genome gl gk.
Proof.
  induction 1 as [n g Hn Hg|g m pos len s i _ (gl & Hgl & Hsame) Hm Hpos Hlen Hs
                 |g m te offset s i _ (gl & Hgl & Hsame) Hm Hoff Hs
                 |g te r s _ (gl & Hgl & Hsame) Hr Ha Hs].
  - destruct (linked_init_Ok n) as (g' & Hg' & Hcells & HT & HC).
    assert (g' = g) as -> by congruence.
    exists (ListGenome.__init__ n). split; [by apply lc_init|]. by split_and!.
  - pose proof (list_reachable_in_range gl (list_careful_reachable gl Hgl)) as Hin.
    pose proof Hsame as (Hcs & _ & _).
    rewrite (cells_len _ _ Hcs) in Hm. injection Hm as <-.
    fold (ListGenome.__len__ gl) in Hpos.
    assert (0 ≤ len) as Hlen0 by lia.
    destruct (same_genome_insert gl g pos len Hsame Hin Hpos Hlen0)
      as (sl & sk & i' & Hsl & Hsk & Hsame' & _).
    assert (sk = s) as -> by congruence.
    exists sl. split; [|done]. eapply lc_insert; [done| |done..]. lia.
  - pose proof (list_reachable_in_range gl (list_careful_reachable gl Hgl)) as Hin.
    pose proof Hsame as (Hcs & HT & _).
    rewrite (cells_len _ _ Hcs) in Hm. injection Hm as <-.
    fold (ListGenome.__len__ gl) in Hoff.
    assert (away_from_0 gl (CopyTe te offset)) as Haway.
    { simpl. destruct (dict_get (ListGenome.TEs gl) te) as [r|] eqn:Hr; [|done].
      destruct (is_active r) eqn:Hact; [|done].
      apply Hoff; [by rewrite HT|]. unfold is_active in Hact.
      by apply bool_decide_eq_true in Hact. }
    pose proof (same_genome_call gl g (CopyTe te offset) Hsame Hin Haway) as Hout.
    simpl in Hout. rewrite Hs in Hout. unfold same_outcome in Hout.
    destruct (ListGenome.copy_te gl te offset) as [[sl rl]| |] eqn:Hsl; [|done..].
    destruct Hout as (_ & Hsame' & _).
    exists sl. split; [|done]. by eapply lc_copy.
  - pose proof (list_reachable_in_range gl (list_careful_reachable gl Hgl)) as Hin.
    pose proof Hsame as (_ & HT & _). rewrite HT in Hr.
    destruct (same_genome_disable gl g te r Hsame Hr (Hin _ _ Hr))
      as (sl & sk & Hsl & Hsk & Hsame' & _).
    assert (sk = s) as -> by congruence.
    exists sl. split; [|done]. by eapply lc_disable.
Qed.

(** The demo genomes with TE 1 disabled are those of a careful caller. *)
Lemma demo_list_disabled_careful : list_careful demo_list_disabled.
Proof.
  apply (lc_insert demo_list 5 2 _ 2); [|split; [lia|vm_compute; discriminate]|lia|reflexivity].
  apply (lc_insert (ListGenome.__init__ 10) 3 4 _ 1);
    [|split; [lia|vm_compute; discriminate]|lia|reflexivity].
  apply lc_init. lia.
Defined.

Lemma demo_linked_disabled_careful : linked_careful demo_linked_disabled.
Proof.
  apply (kc_insert demo_linked 14 5 2 _ 2); [|vm_compute; reflexivity|lia|lia|reflexivity].
  eapply (kc_insert _ 10 3 4 _ 1);
    [eapply (kc_init 10); [lia|vm_compute; reflexivity]
    |vm_compute; reflexivity|lia|lia|vm_compute; reflexivity].
Defined.

(** X9: the cells that hold ['A'] are exactly the cells of the intervals
    [[start, start + length)] of the active records, in every genome that
    a caller gets who keeps the arguments in range and calls [disable_te]
    on active TEs only; on the linked genome the caller also keeps away
    from position 0. *)
Theorem X9_active_cells_are_the_A_cells
  (gl : ListGenome.t) (gk : LinkedListGenome.t) :
  list_careful gl → linked_careful gk →
  painted (ListGenome.genome gl) (ListGenome.TEs gl) ∧
  ∃ cs, cells gk cs ∧ LinkedListGenome.__str__ gk = Ok (string_of_list_ascii cs) ∧
        painted cs (LinkedListGenome.TEs gk).
Proof.
  intros Hl Hk. split; [by apply list_careful_painted|].
  destruct (linked_careful_same gk Hk) as (gl' & Hgl' & Hcs & HT & _).
  exists (ListGenome.genome gl'). split; [done|]. split; [by apply cells_str|].
  rewrite HT. by apply list_careful_painted.
Qed.

Lemma X9_active_cells_are_the_A_cells_witness :
  painted (ListGenome.genome demo_list_disabled) (ListGenome.TEs demo_list_disabled) ∧
  ∃ cs, cells demo_linked_disabled cs ∧
        LinkedListGenome.__str__ demo_linked_disabled = Ok (string_of_list_ascii cs) ∧
        painted cs (LinkedListGenome.TEs demo_linked_disabled).
Proof.
  exact (X9_active_cells_are_the_A_cells demo_list_disabled demo_linked_disabled
           demo_list_disabled_careful demo_linked_disabled_careful).
Defined.

(** Without the care the cells and the registry part: [disable_te] on a
    TE that is disabled already overwrites cell 5 of active TE 2, and
    [insert_te(0, 2)] on the linked genome records a TE on cells that
    were never inserted. *)
Example careless_disable :
  match ListGenome.disable_te demo_list_disabled 1 with
  | Ok s => Some (ListGenome.genome s !! 5%nat, dict_get (ListGenome.TEs s) 2)
  | _ => None
  end = Some (Some "x"%char, Some (mkTE 5 2 Active)).
Proof. vm_compute. reflexivity. Qed.

Example careless_insert_at_0 :
  (g ← LinkedListGenome.__init__ 3;
   '(s, _) ← LinkedListGenome.insert_te g 0 2;
   str ← LinkedListGenome.__str__ s;
   Ok (str, LinkedListGenome.TEs s))
  = Ok ("---"%string, [(1, mkTE 0 2 Active)]).
Proof. vm_compute. reflexivity. Qed.

(** ** The loops of the linked genome *)

(** X10: on a linked genome whose links form a ring, every walk from the
    head comes back to the head: [len] and [str] return, [insert_te]
    returns the next id whatever the position and the length,
    [disable_te] and [copy_te] raise [KeyError] on an unknown id and
    return otherwise, but for [copy_te] of an active TE on a genome
    without cells, which raises [ZeroDivisionError]; and the links of the
    genome returned form a ring again. *)
Theorem X10_linked_methods_return
  (g : LinkedListGenome.t) (pos len te offset : Z) :
  wf g →
  (∃ n, LinkedListGenome.__len__ g = Ok n ∧ 0 ≤ n) ∧
  (∃ str, LinkedListGenome.__str__ g = Ok str) ∧
  (∃ s, LinkedListGenome.insert_te g pos len = Ok (s, LinkedListGenome.TE_counter g + 1) ∧
        wf s) ∧
  match dict_get (LinkedListGenome.TEs g) te with
  | None =>
      LinkedListGenome.disable_te g te = Raise KeyError ∧
      LinkedListGenome.copy_te g te offset = Raise KeyError
  | Some r =>
      (∃ s, LinkedListGenome.disable_te g te = Ok s ∧ wf s) ∧
      if is_active r
      then (LinkedListGenome.__len__ g = Ok 0 ∧
            LinkedListGenome.copy_te g te offset = Raise ZeroDivisionError) ∨
           (∃ s, LinkedListGenome.copy_te g te offset
                 = Ok (s, Some (LinkedListGenome.TE_counter g + 1)) ∧ wf s)
      else LinkedListGenome.copy_te g te offset = Ok (g, None)
  end.
Proof.
  intros [cs Hcs]. split_and!.
  - exists (Z.of_nat (length cs)). split; [by apply cells_len | lia].
  - eexists. by apply cells_str.
  - destruct (linked_insert_te_Ok g cs pos len Hcs)
      as (s0 & cs1 & s & _ & _ & _ & Hs & Hcells & _).
    exists s. split; [done | by eexists].
  - destruct (dict_get (LinkedListGenome.TEs g) te) as [r|] eqn:Hr.
    + split.
      * destruct (linked_disable_te_Ok g cs te r Hcs Hr) as (s & cs' & Hs & Hcs' & _).
        exists s. split; [done | by exists cs'].
      * unfold LinkedListGenome.copy_te. rewrite Hr.
        destruct (is_active r); [|done].
        rewrite (cells_len _ _ Hcs), bind_Ok. case_decide as Hn.
        { left. by rewrite Hn. }
        right.
        destruct (linked_insert_te_Ok g cs
                    ((te_pos r + offset) `mod` Z.of_nat (length cs)) (te_length r) Hcs)
          as (s0 & cs1 & s & _ & _ & _ & Hs & Hcells & _).
        exists s. rewrite Hs, bind_Ok. split; [done | by eexists].
    + split; [by apply linked_disable_te_unknown | by apply linked_copy_te_unknown].
Qed.

Lemma X10_linked_methods_return_witness :
  ∃ s, LinkedListGenome.insert_te demo_linked 5 2 = Ok (s, 2) ∧ wf s.
Proof.
  destruct (X10_linked_methods_return demo_linked 5 2 1 3 demo_linked_wf)
    as (_ & _ & H & _).
  exact H.
Defined.

(** The genome without cells is within reach on the linked structure:
    [insert_te(0, 3)] on a genome of size 0 records TE 1 and inserts no
    cell, and [copy_te(1, 1)] then divides by the length 0.  The
    list-backed genome has three cells by then and copies, into TE 1,
    which it disables. *)
Example copy_on_empty_linked :
  (g ← LinkedListGenome.__init__ 0;
   '(s, _) ← LinkedListGenome.insert_te g 0 3;
   LinkedListGenome.copy_te s 1 1) = Raise ZeroDivisionError ∧
  ('(s, _) ← ListGenome.insert_te (ListGenome.__init__ 0) 0 3;
   '(s, i) ← ListGenome.copy_te s 1 1;
   Ok (ListGenome.__str__ s, i)) = Ok ("xAAAxx"%string, Some 2).
Proof. split; vm_compute; reflexivity. Qed.

(** ** Where the new cells go *)

(** X11: [insert_te(pos, length)] with [0 <= pos <= len] first disables
    the first active TE that has [pos] strictly inside, if there is one,
    and then puts [length] cells ['A'] between the cells before [pos]
    and the cells from [pos] on, which keep their order and what they
    hold.  The linked genome does so from position 1 on; at position 0 it
    leaves its cells as they are after the disabling. *)
Theorem X11_insert_splices_the_cells
  (gl gl0 : ListGenome.t) (gk gk0 : LinkedListGenome.t) (cs0 : list ascii) (pos len : Z) :
  match first_collision pos (ListGenome.TEs gl) with
  | Some te => ListGenome.disable_te gl te
  | None => Ok gl
  end = Ok gl0 →
  wf gk →
  match first_collision pos (LinkedListGenome.TEs gk) with
  | Some te => LinkedListGenome.disable_te gk te
  | None => Ok gk
  end = Ok gk0 →
  cells gk0 cs0 →
  0 ≤ pos ≤ ListGenome.__len__ gl0 → 0 ≤ pos ≤ Z.of_nat (length cs0) → 0 ≤ len →
  (∃ sl, ListGenome.insert_te gl pos len = Ok (sl, ListGenome.TE_counter gl + 1) ∧
         ListGenome.genome sl
         = take (Z.to_nat pos) (ListGenome.genome gl0)
             ++ replicate (Z.to_nat len) "A"%char
             ++ drop (Z.to_nat pos) (ListGenome.genome gl0)) ∧
  (∃ sk, LinkedListGenome.insert_te gk pos len
         = Ok (sk, LinkedListGenome.TE_counter gk + 1) ∧
         cells sk (if decide (pos = 0) then cs0
                   else take (Z.to_nat pos) cs0 ++ replicate (Z.to_nat len) "A"%char
                          ++ drop (Z.to_nat pos) cs0)).
Proof.
  intros Hl0 [cs Hcs] Hk0 Hcs0 Hposl Hposk Hlen. split.
  - destruct (list_insert_te_Ok gl pos len) as (s0 & sl & Hs0 & Hsl & HG & _).
    rewrite list_scan_first, Hl0 in Hs0. injection Hs0 as <-.
    exists sl. split; [done|]. rewrite HG. unfold slice_to, slice_from, times.
    unfold ListGenome.__len__ in Hposl. by rewrite slice_bound_in_range by lia.
  - destruct (linked_insert_te_Ok gk cs pos len Hcs)
      as (s0 & cs1 & sk & Hs0 & Hcs1 & _ & Hsk & Hcells & _).
    rewrite linked_scan_first, Hk0 in Hs0. injection Hs0 as <-.
    rewrite (cells_unique _ _ _ Hcs1 Hcs0) in Hcells.
    exists sk. split; [done|]. unfold ring_insert, times in Hcells.
    destruct (decide (pos = 0)) as [->|H0].
    + by rewrite decide_False in Hcells by lia.
    + by rewrite decide_True in Hcells by lia.
Qed.

Lemma X11_insert_splices_the_cells_witness :
  ∃ sl sk, ListGenome.insert_te demo_list 9 3 = Ok (sl, 2) ∧
           LinkedListGenome.insert_te demo_linked 9 3 = Ok (sk, 2) ∧
           ListGenome.__str__ sl = "---AAAA--AAA-----"%string ∧
           cells sk (ListGenome.genome sl).
Proof.
  destruct (X11_insert_splices_the_cells demo_list demo_list demo_linked demo_linked
              (list_ascii_of_string "---AAAA-------") 9 3
              eq_refl demo_linked_wf eq_refl demo_linked_cells)
    as [(sl & Hsl & HG) (sk & Hsk & Hcs)];
    [split; [lia | vm_compute; discriminate] | simpl; lia | lia |].
  exists sl, sk. split; [exact Hsl|]. split; [exact Hsk|]. split.
  - unfold ListGenome.__str__. rewrite HG. reflexivity.
  - rewrite HG. exact Hcs.
Defined.

(** ** The length along the calls *)

Lemma list_scan_length g pos s0 :
  all_in_range g → ListGenome.scan g pos (ListGenome.TEs g) = Ok s0 →
  length (ListGenome.genome s0) = length (ListGenome.genome g).
Proof.
  intros Hin. rewrite list_scan_first.
  destruct (first_collision pos (ListGenome.TEs g)) as [te|] eqn:E; [|by intros [= <-]].
  destruct (dict_get_key _ _ (first_collision_key _ _ _ E)) as [r Hr].
  destruct (list_disable_te_in_range g te r Hr (Hin _ _ Hr))
    as (s1 & -> & _ & _ & _ & Hlen & _).
  intros [= <-]. unfold ListGenome.__len__ in Hlen. lia.
Qed.

Lemma list_insert_te_length g pos len s i :
  all_in_range g → ListGenome.insert_te g pos len = Ok (s, i) →
  ListGenome.__len__ s = ListGenome.__len__ g + Z.max 0 len.
Proof.
  intros Hin Hs.
  destruct (list_insert_te_Ok g pos len) as (s0 & s' & Hs0 & Hs' & HG & _).
  rewrite Hs' in Hs. injection Hs as <- _.
  unfold ListGenome.__len__.
  rewrite HG, length_splice, (list_scan_length g pos s0 Hin Hs0).
  pose proof (length_times "A"%char len). lia.
Qed.

Lemma list_call_length g c s r :
  all_in_range g → do_call g c = Ok (s, r) →
  ListGenome.__len__ g ≤ ListGenome.__len__ s ∧
  (∀ te, c = DisableTe te → ListGenome.__len__ s = ListGenome.__len__ g).
Proof.
  intros Hin. destruct c as [pos len|te offset|te]; simpl.
  - intros Hs. bind_inv Hs. destruct x as [s' i]. injection Hs as <- _.
    rewrite (list_insert_te_length g pos len s' i Hin E). split; [lia|done].
  - unfold ListGenome.copy_te.
    destruct (dict_get (ListGenome.TEs g) te) as [r0|]; [|done].
    destruct (is_active r0); [|intros [= <- _]; by split].
    case_decide; [done|]. intros Hs. bind_inv Hs. destruct x as [s' i].
    injection Hs as <- _.
    rewrite (list_insert_te_length g _ _ s' i Hin E). split; [lia|done].
  - destruct (dict_get (ListGenome.TEs g) te) as [r0|] eqn:Hr.
    + destruct (list_disable_te_in_range g te r0 Hr (Hin _ _ Hr))
        as (s1 & -> & _ & _ & _ & Hlen & _).
      rewrite bind_Ok. intros [= <- _]. split; [lia|done].
    + by rewrite list_disable_te_unknown.
Qed.

Lemma length_ring_insert cs pos len :
  (length cs ≤ length (ring_insert cs pos len))%nat.
Proof.
  unfold ring_insert. case_decide; [|done].
  rewrite !length_app, length_take, length_drop. lia.
Qed.

Lemma linked_call_length g cs c s r :
  cells g cs → do_call g c = Ok (s, r) →
  ∃ cs', cells s cs' ∧ (length cs ≤ length cs')%nat ∧
         (∀ te, c = DisableTe te → length cs' = length cs).
Proof.
  intros Hcs. destruct c as [pos len|te offset|te]; simpl.
  - destruct (linked_insert_te_Ok g cs pos len Hcs)
      as (_ & cs1 & s' & _ & _ & Hlen & -> & Hcells & _).
    rewrite bind_Ok. intros [= <- _]. eexists. split; [done|].
    split; [|done]. rewrite <- Hlen. apply length_ring_insert.
  - unfold LinkedListGenome.copy_te.
    destruct (dict_get (LinkedListGenome.TEs g) te) as [r0|]; [|done].
    destruct (is_active r0); [|intros [= <- _]; by exists cs].
    rewrite (cells_len _ _ Hcs), bind_Ok. case_decide; [done|].
    destruct (linked_insert_te_Ok g cs
                ((te_pos r0 + offset) `mod` Z.of_nat (length cs)) (te_length r0) Hcs)
      as (_ & cs1 & s' & _ & _ & Hlen & -> & Hcells & _).
    rewrite bind_Ok. intros [= <- _]. eexists. split; [done|].
    split; [|done]. rewrite <- Hlen. apply length_ring_insert.
  - destruct (dict_get (LinkedListGenome.TEs g) te) as [r0|] eqn:Hr.
    + destruct (linked_disable_te_Ok g cs te r0 Hcs Hr) as (s' & cs' & -> & Hcs' & Hlen & _).
      rewrite bind_Ok. intros [= <- _]. exists cs'. split; [done|]. split; [lia|done].
    + by rewrite linked_disable_te_unknown.
Qed.

(** X12: no call makes the genome shorter, whatever its arguments, and
    [disable_te] keeps the length: on the list-backed genome after calls
    in range, whose records all lie on cells of the genome, and on every
    linked genome whose links form a ring. *)
Theorem X12_no_call_shortens_the_genome
  (gl sl : ListGenome.t) (gk sk : LinkedListGenome.t) (c : call) (rl rk : option Z)
  (m : Z) :
  list_reachable gl → wf gk → LinkedListGenome.__len__ gk = Ok m →
  do_call gl c = Ok (sl, rl) → do_call gk c = Ok (sk, rk) →
  (ListGenome.__len__ gl ≤ ListGenome.__len__ sl ∧
   (∀ te, c = DisableTe te → ListGenome.__len__ sl = ListGenome.__len__ gl)) ∧
  (∃ m', LinkedListGenome.__len__ sk = Ok m' ∧ m ≤ m' ∧
         (∀ te, c = DisableTe te → m' = m)).
Proof.
  intros Hl [cs Hcs] Hm Hsl Hsk. split.
  - exact (list_call_length gl c sl rl (list_reachable_in_range gl Hl) Hsl).
  - destruct (linked_call_length gk cs c sk rk Hcs Hsk) as (cs' & Hcs' & Hle & Heq).
    rewrite (cells_len _ _ Hcs) in Hm. injection Hm as <-.
    exists (Z.of_nat (length cs')). split; [by apply cells_len|]. split; [lia|].
    intros te Hc. by rewrite (Heq te Hc).
Qed.

Lemma demo_list_reachable : list_reachable demo_list.
Proof.
  apply (lr_insert (ListGenome.__init__ 10) 3 4 _ 1);
    [|split; [lia|vm_compute; discriminate]|lia|reflexivity].
  apply lr_init. lia.
Defined.

Lemma X12_no_call_shortens_the_genome_witness :
  ListGenome.__len__ demo_list ≤ ListGenome.__len__ demo_list_disabled ∧
  ∃ m', LinkedListGenome.__len__ demo_linked_disabled = Ok m' ∧ 14 ≤ m'.
Proof.
  destruct (X12_no_call_shortens_the_genome
              demo_list demo_list_disabled demo_linked demo_linked_disabled
              (InsertTe 5 2) (Some 2) (Some 2) 14
              demo_list_reachable demo_linked_wf eq_refl eq_refl eq_refl)
    as [[Hl _] (m' & Hm' & Hle & _)].
  split; [exact Hl|]. exists m'. split; [exact Hm' | exact Hle].
Defined.

(** A record of negative length is what the list-backed genome needs to
    get shorter: [insert_te(3, -4)] inserts nothing and records
    [[3, -4, 'A']], and [disable_te(1)] then assigns nothing to the slice
    [genome[3:-1]].  The linked genome keeps its ten cells. *)
Example negative_length_shortens :
  ('(s, _) ← ListGenome.insert_te (ListGenome.__init__ 10) 3 (-4);
   s ← ListGenome.disable_te s 1;
   Ok (ListGenome.__str__ s)) = Ok "----"%string ∧
  (g ← LinkedListGenome.__init__ 10;
   '(s, _) ← LinkedListGenome.insert_te g 3 (-4);
   s ← LinkedListGenome.disable_te s 1;
   LinkedListGenome.__str__ s) = Ok "----------"%string.
Proof. split; vm_compute; reflexivity. Qed.
